(** * K8S_Monitoring: metrics normalisation and resource association

    A shallow embedding of the pure parts of

    - [src/lib/server-actions.ts]                        (module [ServerActions])
    - [src/app/api/kubectl/namespace-details/route.ts]   (module [NamespaceDetailsRoute])
    - the cluster-info route bundled after [src/lib/types.ts]
                                                         (module [ClusterInfoRoute])

    Conventions of the embedding.

    - A JavaScript string is a [string]: a sequence of code units below 256.
    - A JavaScript number is a [JsNum]: [NaN], an infinity, or a finite
      double [m * 2^e] with 53 bits of precision.  Every operation rounds to
      the nearest double, ties to even, as IEEE 754 has it.  The sign of
      zero is not kept: the embedded functions add, multiply, divide by
      1024 and take floors, and none of them tells [-0] from [0].
    - A label set and a selector are [gmap string string]s.  The metrics map
      of [parsePodMetrics] is a [gmap string Metrics] in which the key
      [__proto__] stands for the prototype of the object: assigning an
      object to [result["__proto__"]] and reading [result["__proto__"]]
      set and return the prototype.  A read of another name that is not in
      the map finds what the object inherits (see [inheritedTruthy]).
    - An optional JSON field is an [option]; a [TypeError] raised by reading a
      property of [undefined] is the [None] of a fallible function.
    - The objects of a listing have the shape the Kubernetes API gives
      them (module [K8s]): the catalog objects and the services carry
      [metadata.name].  A listing of another shape is outside the
      embedding. *)

From Stdlib Require Import Ascii String ZArith Lia.
From stdpp Require Import gmap strings list fin_maps pretty.

Local Open Scope string_scope.
Local Open Scope list_scope.

Set Warnings "-clear-no-such-hyp".

(** ** JavaScript primitives used by the sources *)

Module Js.

(** *** Numbers *)

(** [Fin m e] is the number [m * 2^e]. *)
Inductive JsNum : Type :=
| NaN : JsNum
| Inf (negative : bool) : JsNum
| Fin (m e : Z) : JsNum.

(** A positive number as an odd number times a power of two. *)
Fixpoint oddPart (p : positive) : positive * Z :=
  match p with
  | xO p' => let '(o, k) := oddPart p' in (o, k + 1)%Z
  | _ => (p, 0%Z)
  end.

(** The one way of writing [m * 2^e] with an odd [m]; zero is [(0, 0)]. *)
Definition norm (m e : Z) : Z * Z :=
  match m with
  | Z0 => (0, 0)%Z
  | Zpos p => let '(o, k) := oddPart p in (Zpos o, e + k)%Z
  | Zneg p => let '(o, k) := oddPart p in (Zneg o, e + k)%Z
  end.

(** The integer nearest to [a / 2^s], the even one of two that are equally
    near. *)
Definition roundShift (a s : Z) : Z :=
  let d := (2 ^ s)%Z in
  let k := (a `div` d)%Z in
  match (2 * (a `mod` d) ?= d)%Z with
  | Lt => k
  | Gt => (k + 1)%Z
  | Eq => if Z.even k then k else (k + 1)%Z
  end.

(** The double nearest to [m * 2^e]: 53 bits from the leading one, no
    bit below [2^-1074], an infinity from [2^1024] on. *)
Definition round (m e : Z) : JsNum :=
  let '(m', e') := norm m e in
  let u := Z.max (Z.log2 (Z.abs m') + e' - 52) (-1074) in
  let '(n, x) :=
    if (u <=? e')%Z then (m', e') else norm (roundShift m' (u - e')) u in
  if (1024 <=? Z.log2 (Z.abs n) + x)%Z then Inf (m <? 0)%Z else Fin n x.

(** The number written as the integer literal [z]. *)
Definition ofZ (z : Z) : JsNum := round z 0.
Definition ofN (n : N) : JsNum := ofZ (Z.of_N n).

(** [a + b] *)
Definition add (a b : JsNum) : JsNum :=
  match a, b with
  | NaN, _ | _, NaN => NaN
  | Inf s, Inf t => if Bool.eqb s t then Inf s else NaN
  | Inf s, Fin _ _ | Fin _ _, Inf s => Inf s
  | Fin m1 e1, Fin m2 e2 =>
      let e := Z.min e1 e2 in
      round (m1 * 2 ^ (e1 - e) + m2 * 2 ^ (e2 - e))%Z e
  end.

(** [a * b] *)
Definition mul (a b : JsNum) : JsNum :=
  match a, b with
  | NaN, _ | _, NaN => NaN
  | Inf s, Inf t => Inf (xorb s t)
  | Inf s, Fin m _ | Fin m _, Inf s =>
      if (m =? 0)%Z then NaN else Inf (xorb s (m <? 0)%Z)
  | Fin m1 e1, Fin m2 e2 => round (m1 * m2)%Z (e1 + e2)%Z
  end.

(** [a / 1024]; the sources divide by no other number. *)
Definition div1024 (a : JsNum) : JsNum :=
  match a with
  | Fin m e => round m (e - 10)%Z
  | _ => a
  end.

(** [Math.floor(a)] *)
Definition floor (a : JsNum) : JsNum :=
  match a with
  | Fin m e =>
      if (0 <=? e)%Z then round m e else round (m `div` 2 ^ (- e))%Z 0
  | _ => a
  end.

(** Truthiness of a number: [NaN] and zero are falsy. *)
Definition truthyNumber (a : JsNum) : bool :=
  match a with
  | NaN => false
  | Inf _ => true
  | Fin m _ => negb (m =? 0)%Z
  end.

(** [sum + value] where [value] may be [undefined], which is [None]. *)
Definition addValue (sum : JsNum) (value : option JsNum) : JsNum :=
  match value with
  | Some x => add sum x
  | None => NaN
  end.

(** The integer a number is, when it is one. *)
Definition integerValue (a : JsNum) : option Z :=
  match a with
  | Fin m e => if (0 <=? e)%Z then Some (m * 2 ^ e)%Z else None
  | _ => None
  end.

(** The integers up to [2^53] in magnitude: every one of them is a
    double. *)
Definition precise (z : Z) : Prop := (Z.abs z ≤ 2 ^ 53)%Z.

(** A number as the operations return it: rounding it changes nothing. *)
Definition canonical (a : JsNum) : Prop :=
  match a with
  | Fin m e => round m e = Fin m e
  | _ => True
  end.

(** *** Characters and strings *)

(** White space of [String.prototype.trim] and of the regular expression
    class [\s], restricted to code units below 256. *)
Definition isSpace (c : ascii) : bool :=
  let code := N_of_ascii c in
  ((9 <=? code) && (code <=? 13) || (code =? 32) || (code =? 160))%N.

(** The value of a decimal digit, from its code: ["0"] is 48. *)
Definition digitOf (c : ascii) : option N :=
  let code := N_of_ascii c in
  if ((48 <=? code) && (code <=? 57))%N then Some (code - 48)%N else None.

Fixpoint trimStart (s : string) : string :=
  match s with
  | String c s' => if isSpace c then trimStart s' else s
  | "" => ""
  end.

Fixpoint trimEnd (s : string) : string :=
  match s with
  | String c s' =>
      match trimEnd s' with
      | "" => if isSpace c then "" else String c ""
      | t => String c t
      end
  | "" => ""
  end.

(** [s.trim()] *)
Definition trim (s : string) : string := trimEnd (trimStart s).

Definition consHead (c : ascii) (l : list string) : list string :=
  match l with
  | h :: t => String c h :: t
  | [] => [String c ""]
  end.

(** [s.split(sep)] for a one-character separator: the pieces between the
    occurrences of [sep]; the empty string gives one empty piece. *)
Fixpoint splitChar (sep : ascii) (s : string) : list string :=
  match s with
  | String c s' =>
      if Ascii.eqb c sep then "" :: splitChar sep s'
      else consHead c (splitChar sep s')
  | "" => [""]
  end.

(** [s.split(/\s+/)]: the pieces between the maximal runs of white space.
    [inRun] tells that the previous character belonged to a run. *)
Fixpoint splitSpaces (inRun : bool) (s : string) : list string :=
  match s with
  | String c s' =>
      if isSpace c
      then (if inRun then splitSpaces true s' else "" :: splitSpaces true s')
      else consHead c (splitSpaces false s')
  | "" => [""]
  end.

(** [s.endsWith(suffix)] *)
Fixpoint endsWith (s suffix : string) : bool :=
  if String.eqb s suffix then true
  else match s with
       | String _ s' => endsWith s' suffix
       | "" => false
       end.

(** [s.slice(0, -k)] for a positive literal [k] *)
Definition dropLast (k : nat) (s : string) : string :=
  String.substring 0 (String.length s - k) s.

(** [array.join(sep)] on strings *)
Definition join (sep : string) (l : list string) : string :=
  String.concat sep l.

(** [array.includes(x)] on strings *)
Definition includes (l : list string) (x : string) : bool :=
  bool_decide (x ∈ l).

(** [[...new Set(l)]]: the first occurrence of every element, in order. *)
Fixpoint uniqueFrom (seen l : list string) : list string :=
  match l with
  | x :: l' =>
      if includes seen x then uniqueFrom seen l'
      else x :: uniqueFrom (x :: seen) l'
  | [] => []
  end.

Definition unique (l : list string) : list string := uniqueFrom [] l.

(** *** [Number.parseInt(s, 10)]

    The integer read is rounded to the nearest double, as V8 does; the
    standard lets an engine read the digits after the twentieth as
    zeros. *)

(** The longest prefix of decimal digits, read left to right; [acc] is
    [None] as long as no digit was seen. *)
Fixpoint scanDigits (acc : option N) (s : string) : option N :=
  match s with
  | String c s' =>
      match digitOf c with
      | Some d => scanDigits (Some (10 * default 0 acc + d)%N) s'
      | None => acc
      end
  | "" => acc
  end.

Definition parseInt (s : string) : JsNum :=
  let body := trimStart s in
  let '(negative, digits) :=
    match body with
    | String "-" r => (true, r)
    | String "+" r => (false, r)
    | _ => (false, body)
    end in
  match scanDigits None digits with
  | Some n => ofZ (if negative : bool then - Z.of_N n else Z.of_N n)
  | None => NaN
  end.

(** Truthiness of an optional string property: present and not empty. *)
Definition truthy (o : option string) : option string :=
  match o with
  | Some "" => None
  | _ => o
  end.

(** The names of the properties of [Object.prototype], which every object
    written as a literal inherits; all but [__proto__] are functions. *)
Definition objectPrototypeNames : list string :=
  [ "constructor"; "__defineGetter__"; "__defineSetter__";
    "hasOwnProperty"; "__lookupGetter__"; "__lookupSetter__";
    "isPrototypeOf"; "propertyIsEnumerable"; "toString"; "valueOf";
    "__proto__"; "toLocaleString" ].

End Js.

(** ** Shapes of the objects decoded from [kubectl ... -o json]

    Only the properties the sources read.  A property the sources test
    before use is optional; [metadata.name] of a catalog object, a service
    and a pod is read unguarded. *)

Module K8s.

Record PvcSource := { claimName : option string }.
Record ConfigMapSource := { configMapName : option string }.
Record SecretSource := { secretName : option string }.

Record Volume := {
  persistentVolumeClaim : option PvcSource;
  configMap : option ConfigMapSource;
  secret : option SecretSource }.

Record KeyRef := { keyRefName : option string }.

Record EnvSource := {
  configMapKeyRef : option KeyRef;
  secretKeyRef : option KeyRef }.

Record EnvVar := { valueFrom : option EnvSource }.

Record Container := { env : option (list EnvVar) }.

Record PodSpec := {
  volumes : option (list Volume);
  containers : option (list Container) }.

Record PodMeta := {
  podName : string;
  labels : option (gmap string string) }.

Record PodObject := {
  metadata : option PodMeta;
  spec : option PodSpec }.

(** An object of a catalog (storage claims, config maps or secrets):
    [r.metadata.name]. *)
Record Resource := { resourceName : string }.

Record ServicePort := { port : N }.

Record ServiceSpec := {
  selector : option (gmap string string);
  ports : option (list ServicePort) }.

Record Service := {
  serviceName : string;
  serviceSpec : option ServiceSpec }.

Record BackendService := { backendName : option string }.
Record Backend := { service : option BackendService }.
Record HttpPath := { backend : option Backend }.
Record HttpRule := { paths : option (list HttpPath) }.

Record IngressRule := {
  host : option string;
  http : option HttpRule }.

Record IngressSpec := { rules : option (list IngressRule) }.
Record Ingress := { ingressSpec : option IngressSpec }.

End K8s.

(** ** Records of [src/lib/types.ts] and of the metrics map *)

(** [{ cpu: number; memory: number }] *)
Record Metrics := { cpu : Js.JsNum; memory : Js.JsNum }.

(** [Pod]; [cpuUsage] and [memoryUsage] hold what [metrics.cpu] and
    [metrics.memory] gave, which is [undefined] ([None]) when [metrics] is
    not a metrics object. *)
Module Pod.
Record t := {
  id : string;
  name : string;
  cpuUsage : option Js.JsNum;
  memoryUsage : option Js.JsNum;
  pvcs : list string;
  configMaps : list string;
  secrets : list string;
  services : list string;
  ingresses : list string }.
End Pod.

Module Namespace.
Record t := {
  id : string;
  name : string;
  podCount : nat;
  cpuUsage : Js.JsNum;
  memoryUsage : Js.JsNum;
  pods : list Pod.t }.
End Namespace.

(** The four running totals of [parseNodeMetrics]. *)
Record NodeTotals := {
  nodeCpuUsage : Js.JsNum;
  nodeCpuTotal : Js.JsNum;
  nodeMemoryUsage : Js.JsNum;
  nodeMemoryTotal : Js.JsNum }.

(** The two running totals of [parseNamespaceMetrics]. *)
Record NamespaceTotals := {
  nsCpuUsage : Js.JsNum;
  nsMemoryUsage : Js.JsNum }.

(** ** Decoding one field of a metrics line

    Every parser of the sources repeats the same two [if] chains inside its
    [forEach] callback; they are written once here. *)

Module Decode.
Import Js.

(** The block under [// Parse CPU], the same in all parsers. *)
Definition cpuOf (cpuStr : string) : JsNum :=
  if endsWith cpuStr "m" then parseInt (dropLast 1 cpuStr)
  else mul (parseInt cpuStr) (ofZ 1000).

(** The block under [// Parse Memory] with the three branches [Mi], [Gi]
    and [Ki]: all parsers of [server-actions.ts] and both
    [parseNamespaceMetrics].  [None]: no branch is taken. *)
Definition memoryOf (memStr : string) : option JsNum :=
  if endsWith memStr "Mi" then Some (parseInt (dropLast 2 memStr))
  else if endsWith memStr "Gi" then
    Some (mul (parseInt (dropLast 2 memStr)) (ofZ 1024))
  else if endsWith memStr "Ki" then
    Some (floor (div1024 (parseInt (dropLast 2 memStr))))
  else None.

(** The same block in the two parsers marked
    [Correction du calcul de la mémoire], with the branches for a trailing
    [m] and for a bare number of bytes. *)
Definition memoryOfCorrected (memStr : string) : JsNum :=
  if endsWith memStr "Mi" then parseInt (dropLast 2 memStr)
  else if endsWith memStr "Gi" then
    mul (parseInt (dropLast 2 memStr)) (ofZ 1024)
  else if endsWith memStr "Ki" then
    floor (div1024 (parseInt (dropLast 2 memStr)))
  else if endsWith memStr "m" then
    div1024 (div1024 (parseInt (dropLast 1 memStr)))
  else div1024 (div1024 (parseInt memStr)).

(** [metricsOutput.trim().split("\n")] *)
Definition linesOf (metricsOutput : string) : list string :=
  splitChar "010"%char (trim metricsOutput).

(** [line.trim().split(/\s+/)] *)
Definition partsOf (line : string) : list string :=
  splitSpaces false (trim line).

End Decode.

(** ** [src/lib/server-actions.ts] *)

Module ServerActions.
Import Js K8s Decode.

(** *** [parseNodeMetrics] *)

Definition parseNodeMetricsLine (acc : NodeTotals) (line : string)
  : NodeTotals :=
  match partsOf line with
  | _ :: cpuStr :: memStr :: _ =>
      {| nodeCpuUsage := add (nodeCpuUsage acc) (cpuOf cpuStr);
         nodeCpuTotal := add (nodeCpuTotal acc) (ofZ 4000);
         nodeMemoryUsage :=
           match memoryOf memStr with
           | Some m => add (nodeMemoryUsage acc) m
           | None => nodeMemoryUsage acc
           end;
         nodeMemoryTotal := add (nodeMemoryTotal acc) (ofZ 16384) |}
  | _ => acc
  end.

Definition parseNodeMetrics (metricsOutput : string) : NodeTotals :=
  fold_left parseNodeMetricsLine (linesOf metricsOutput)
    {| nodeCpuUsage := ofZ 0; nodeCpuTotal := ofZ 0;
       nodeMemoryUsage := ofZ 0; nodeMemoryTotal := ofZ 0 |}.

(** *** [parseNamespaceMetrics] *)

Definition parseNamespaceMetricsLine (acc : NamespaceTotals) (line : string)
  : NamespaceTotals :=
  match partsOf line with
  | _ :: cpuStr :: memStr :: _ =>
      {| nsCpuUsage := add (nsCpuUsage acc) (cpuOf cpuStr);
         nsMemoryUsage :=
           match memoryOf memStr with
           | Some m => add (nsMemoryUsage acc) m
           | None => nsMemoryUsage acc
           end |}
  | _ => acc
  end.

Definition parseNamespaceMetrics (metricsOutput : string) : NamespaceTotals :=
  fold_left parseNamespaceMetricsLine (linesOf metricsOutput)
    {| nsCpuUsage := ofZ 0; nsMemoryUsage := ofZ 0 |}.

(** *** [parsePodMetrics] *)

Definition parsePodMetricsLine (result : gmap string Metrics) (line : string)
  : gmap string Metrics :=
  match partsOf line with
  | podName :: cpuStr :: memStr :: _ =>
      <[podName := {| cpu := cpuOf cpuStr;
                      memory := default (ofZ 0) (memoryOf memStr) |}]> result
  | _ => result
  end.

Definition parsePodMetrics (metricsOutput : string) : gmap string Metrics :=
  fold_left parsePodMetricsLine (linesOf metricsOutput) ∅.

(** *** [findAssociatedResources] *)

(** [resources.find((r) => r.metadata.name === wanted)] *)
Definition findByName (resources : list Resource) (wanted : string)
  : option Resource :=
  List.find (λ r, bool_decide (resourceName r = wanted)) resources.

(** The callback of [pod.spec.volumes.forEach]; [result.push] appends. *)
Definition volumeStep (resources : list Resource) (result : list string)
    (volume : Volume) : list string :=
  match persistentVolumeClaim volume ≫= (λ p, truthy (claimName p)) with
  | Some wanted =>
      match findByName resources wanted with
      | Some pvc => result ++ [resourceName pvc]
      | None => result
      end
  | None =>
      match configMap volume ≫= (λ c, truthy (configMapName c)) with
      | Some wanted =>
          match findByName resources wanted with
          | Some configMap => result ++ [resourceName configMap]
          | None => result
          end
      | None =>
          match secret volume ≫= (λ s, truthy (secretName s)) with
          | Some wanted =>
              match findByName resources wanted with
              | Some secret => result ++ [resourceName secret]
              | None => result
              end
          | None => result
          end
      end
  end.

(** [if (found && !result.includes(found.metadata.name)) result.push(...)] *)
Definition pushIfNew (resources : list Resource) (result : list string)
    (wanted : string) : list string :=
  match findByName resources wanted with
  | Some found =>
      if includes result (resourceName found) then result
      else result ++ [resourceName found]
  | None => result
  end.

(** The callback of [container.env.forEach]. *)
Definition envStep (resources : list Resource) (result : list string)
    (e : EnvVar) : list string :=
  match valueFrom e with
  | Some source =>
      match configMapKeyRef source ≫= (λ r, truthy (keyRefName r)) with
      | Some wanted => pushIfNew resources result wanted
      | None =>
          match secretKeyRef source ≫= (λ r, truthy (keyRefName r)) with
          | Some wanted => pushIfNew resources result wanted
          | None => result
          end
      end
  | None => result
  end.

(** The callback of [pod.spec.containers.forEach]. *)
Definition containerStep (resources : list Resource) (result : list string)
    (container : Container) : list string :=
  match env container with
  | Some entries => fold_left (envStep resources) entries result
  | None => result
  end.

Definition findAssociatedResources (pod : PodObject)
    (resources : list Resource) : list string :=
  let result := [] in
  let result :=
    match spec pod ≫= volumes with
    | Some vs => fold_left (volumeStep resources) vs result
    | None => result
    end in
  let result :=
    match spec pod ≫= containers with
    | Some cs => fold_left (containerStep resources) cs result
    | None => result
    end in
  unique result.

(** *** [findAssociatedServices] *)

(** [Object.entries(selector).every(([key, value]) => labels[key] === value)] *)
Definition selectorMatches (podLabels sel : gmap string string) : bool :=
  bool_decide (map_Forall (λ key value, podLabels !! key = Some value) sel).

(** The name of a matching service, followed by [:] and its ports when
    [service.spec.ports] is a non-empty array. *)
Definition formatService (svc : Service) (sp : ServiceSpec) : string :=
  match ports sp with
  | Some ((_ :: _) as ps) =>
      serviceName svc +:+ ":" +:+ join "," ((λ p, pretty (port p)) <$> ps)
  | _ => serviceName svc
  end.

(** The callback of [services.forEach]. *)
Definition serviceStep (podLabels : gmap string string)
    (result : list string) (svc : Service) : list string :=
  match serviceSpec svc with
  | Some sp =>
      match selector sp with
      | Some sel =>
          if selectorMatches podLabels sel
          then result ++ [formatService svc sp]
          else result
      | None => result
      end
  | None => result
  end.

Definition findAssociatedServices (pod : PodObject)
    (services : list Service) : list string :=
  match metadata pod ≫= labels with
  | Some podLabels => fold_left (serviceStep podLabels) services []
  | None => []
  end.

(** *** [findAssociatedIngresses] *)

(** [s.split(":")[0]] *)
Definition basename (s : string) : string :=
  default "" (head (splitChar ":"%char s)).

(** The callback of [rule.http.paths.forEach]. *)
Definition pathStep (serviceBasenames : list string) (rule : IngressRule)
    (result : list string) (path : HttpPath) : list string :=
  match (backend path ≫= service) ≫= (λ s, truthy (backendName s)) with
  | Some wanted =>
      if includes serviceBasenames wanted then
        match truthy (host rule) with
        | Some h => result ++ [h]
        | None => result
        end
      else result
  | None => result
  end.

(** The callback of [ingress.spec.rules.forEach]. *)
Definition ruleStep (serviceBasenames : list string) (result : list string)
    (rule : IngressRule) : list string :=
  match http rule ≫= paths with
  | Some ps => fold_left (pathStep serviceBasenames rule) ps result
  | None => result
  end.

(** The callback of [ingresses.forEach]. *)
Definition ingressStep (serviceBasenames : list string)
    (result : list string) (ingress : Ingress) : list string :=
  match ingressSpec ingress ≫= rules with
  | Some rs => fold_left (ruleStep serviceBasenames) rs result
  | None => result
  end.

Definition findAssociatedIngresses (serviceNames : list string)
    (ingresses : list Ingress) : list string :=
  let serviceBasenames := basename <$> serviceNames in
  unique (fold_left (ingressStep serviceBasenames) ingresses []).

(** *** [getNamespaceDetails], after the listings were fetched *)

(** Whether a name that is not in the map is found, with a truthy value,
    on the prototype chain of the object: on the metrics object a line
    named [__proto__] installed as prototype, which has the properties
    [cpu] and [memory], and after it on [Object.prototype]. *)
Definition inheritedTruthy (podMetricsMap : gmap string Metrics)
    (podName : string) : bool :=
  match podMetricsMap !! "__proto__" with
  | Some prototype =>
      if decide (podName = "cpu") then truthyNumber (cpu prototype)
      else if decide (podName = "memory")
           then truthyNumber (memory prototype)
           else bool_decide (podName ∈ objectPrototypeNames)
  | None => bool_decide (podName ∈ objectPrototypeNames)
  end.

(** [podMetricsMap[podName] || { cpu: 0, memory: 0 }] followed by the reads
    of [.cpu] and [.memory]: an inherited function or number has neither
    property. *)
Definition usageOf (podMetricsMap : gmap string Metrics) (podName : string)
  : option JsNum * option JsNum :=
  match podMetricsMap !! podName with
  | Some metrics => (Some (cpu metrics), Some (memory metrics))
  | None =>
      if inheritedTruthy podMetricsMap podName then (None, None)
      else (Some (ofZ 0), Some (ofZ 0))
  end.

(** The callback of [podsData.items.map].  Reading [pod.metadata.name] of a
    pod without [metadata] raises; that is [None]. *)
Definition podRecord (podMetricsMap : gmap string Metrics)
    (pvcs configMaps secrets : list Resource) (services : list Service)
    (ingresses : list Ingress) (pod : PodObject) : option Pod.t :=
  meta ← metadata pod;
  let podName := podName meta in
  let metrics := usageOf podMetricsMap podName in
  let podPvcs := findAssociatedResources pod pvcs in
  let podConfigMaps := findAssociatedResources pod configMaps in
  let podSecrets := findAssociatedResources pod secrets in
  let podServices := findAssociatedServices pod services in
  let podIngresses := findAssociatedIngresses podServices ingresses in
  Some {| Pod.id := podName;
          Pod.name := podName;
          Pod.cpuUsage := metrics.1;
          Pod.memoryUsage := metrics.2;
          Pod.pvcs := podPvcs;
          Pod.configMaps := podConfigMaps;
          Pod.secrets := podSecrets;
          Pod.services := podServices;
          Pod.ingresses := podIngresses |}.

(** [array.reduce(f, init)] *)
Definition reduce {A B} (f : B → A → B) (init : B) (l : list A) : B :=
  fold_left f l init.

(** From [// Create pod objects] to the construction of [namespace]. *)
Definition namespaceOf (namespaceName : string)
    (podMetricsMap : gmap string Metrics) (items : list PodObject)
    (pvcs configMaps secrets : list Resource) (services : list Service)
    (ingresses : list Ingress) : option Namespace.t :=
  pods ← mapM (podRecord podMetricsMap pvcs configMaps secrets services
                 ingresses) items;
  let cpuUsage :=
    reduce (λ sum pod, addValue sum (Pod.cpuUsage pod)) (ofZ 0) pods in
  let memoryUsage :=
    reduce (λ sum pod, addValue sum (Pod.memoryUsage pod)) (ofZ 0) pods in
  Some {| Namespace.id := namespaceName;
          Namespace.name := namespaceName;
          Namespace.podCount := length pods;
          Namespace.cpuUsage := cpuUsage;
          Namespace.memoryUsage := memoryUsage;
          Namespace.pods := pods |}.

(** The metrics map of [getNamespaceDetails]: [{}] when [kubectl top pods]
    failed ([None]), the parsed output otherwise. *)
Definition podMetricsMapOf (metricsStdout : option string)
  : gmap string Metrics :=
  match metricsStdout with
  | Some out => parsePodMetrics out
  | None => ∅
  end.

Definition getNamespaceDetails (namespaceName : string)
    (metricsStdout : option string) (items : list PodObject)
    (pvcs configMaps secrets : list Resource) (services : list Service)
    (ingresses : list Ingress) : option Namespace.t :=
  namespaceOf namespaceName (podMetricsMapOf metricsStdout) items
    pvcs configMaps secrets services ingresses.

End ServerActions.

(** ** [src/app/api/kubectl/namespace-details/route.ts]

    [findAssociatedResources], [findAssociatedServices] and
    [findAssociatedIngresses] and the assembly of the namespace are copies,
    character for character, of those of [server-actions.ts]; only
    [parsePodMetrics] differs. *)

Module NamespaceDetailsRoute.
Import Js K8s Decode.

Definition parsePodMetricsLine (result : gmap string Metrics) (line : string)
  : gmap string Metrics :=
  match partsOf line with
  | podName :: cpuStr :: memStr :: _ =>
      <[podName := {| cpu := cpuOf cpuStr;
                      memory := memoryOfCorrected memStr |}]> result
  | _ => result
  end.

Definition parsePodMetrics (metricsOutput : string) : gmap string Metrics :=
  fold_left parsePodMetricsLine (linesOf metricsOutput) ∅.

Definition findAssociatedResources := ServerActions.findAssociatedResources.
Definition findAssociatedServices := ServerActions.findAssociatedServices.
Definition findAssociatedIngresses := ServerActions.findAssociatedIngresses.

Definition podMetricsMapOf (metricsStdout : option string)
  : gmap string Metrics :=
  match metricsStdout with
  | Some out => parsePodMetrics out
  | None => ∅
  end.

(** The body of [POST] after the listings were fetched. *)
Definition POST (namespaceName : string)
    (metricsStdout : option string) (items : list PodObject)
    (pvcs configMaps secrets : list Resource) (services : list Service)
    (ingresses : list Ingress) : option Namespace.t :=
  ServerActions.namespaceOf namespaceName (podMetricsMapOf metricsStdout)
    items pvcs configMaps secrets services ingresses.

End NamespaceDetailsRoute.

(** ** The cluster-info route *)

Module ClusterInfoRoute.
Import Js Decode.

Definition parseNodeMetricsLine (acc : NodeTotals) (line : string)
  : NodeTotals :=
  match partsOf line with
  | _ :: cpuStr :: memStr :: _ =>
      {| nodeCpuUsage := add (nodeCpuUsage acc) (cpuOf cpuStr);
         nodeCpuTotal := add (nodeCpuTotal acc) (ofZ 4000);
         nodeMemoryUsage :=
           add (nodeMemoryUsage acc) (memoryOfCorrected memStr);
         nodeMemoryTotal := add (nodeMemoryTotal acc) (ofZ 16384) |}
  | _ => acc
  end.

Definition parseNodeMetrics (metricsOutput : string) : NodeTotals :=
  fold_left parseNodeMetricsLine (linesOf metricsOutput)
    {| nodeCpuUsage := ofZ 0; nodeCpuTotal := ofZ 0;
       nodeMemoryUsage := ofZ 0; nodeMemoryTotal := ofZ 0 |}.

Definition parseNamespaceMetrics := ServerActions.parseNamespaceMetrics.

End ClusterInfoRoute.

(** ** Specification-side definitions

    What the statements below compare the code with; none of them is read by
    the embedded functions. *)

Module Spec.
Import Js K8s.

(** A token of a metrics line: not empty and free of white space. *)
Fixpoint noSpace (s : string) : bool :=
  match s with
  | String c s' => negb (isSpace c) && noSpace s'
  | "" => true
  end.

Definition isToken (s : string) : bool :=
  match s with
  | "" => false
  | _ => noSpace s
  end.

Fixpoint allDigits (s : string) : bool :=
  match s with
  | String c s' => bool_decide (is_Some (digitOf c)) && allDigits s'
  | "" => true
  end.

Fixpoint noColon (s : string) : bool :=
  match s with
  | String c s' => negb (Ascii.eqb c ":"%char) && noColon s'
  | "" => true
  end.



(** The text of a CPU field that is handed to [Number.parseInt]. *)
Definition cpuPayload (cpuStr : string) : string :=
  if endsWith cpuStr "m" then dropLast 1 cpuStr else cpuStr.

(** Summation of quantities, field by field and from the first to the
    last, as the specification words it: [aggregate(samples)]. *)
Definition aggregate (samples : list Metrics) : Metrics :=
  {| cpu := fold_left (λ total q, add total (cpu q)) samples (ofZ 0);
     memory := fold_left (λ total q, add total (memory q)) samples (ofZ 0) |}.

(** The quantity carried by a pod record; a usage that is [undefined]
    counts as [NaN], which is what adding it gives. *)
Definition quantityOf (p : Pod.t) : Metrics :=
  {| cpu := default NaN (Pod.cpuUsage p);
     memory := default NaN (Pod.memoryUsage p) |}.

(** The sum of a list of integers. *)
Definition sumZ (l : list Z) : Z := foldr Z.add 0%Z l.

(** The object a volume refers to by name: the first of its three sources
    that carries a non-empty name. *)
Definition volumeTarget (v : Volume) : option string :=
  match persistentVolumeClaim v ≫= (λ p, truthy (claimName p)) with
  | Some n => Some n
  | None =>
      match configMap v ≫= (λ c, truthy (configMapName c)) with
      | Some n => Some n
      | None => secret v ≫= (λ s, truthy (secretName s))
      end
  end.

(** The object an environment entry refers to by name. *)
Definition envTarget (e : EnvVar) : option string :=
  source ← valueFrom e;
  match configMapKeyRef source ≫= (λ r, truthy (keyRefName r)) with
  | Some n => Some n
  | None => secretKeyRef source ≫= (λ r, truthy (keyRefName r))
  end.

(** Every name a pod refers to, volumes first, then the environment
    entries of its containers, in declaration order. *)
Definition referencedNames (pod : PodObject) : list string :=
  omap volumeTarget (default [] (spec pod ≫= volumes)) ++
  omap envTarget
    (mjoin ((λ c, default [] (env c)) <$> default [] (spec pod ≫= containers))).

(** The rendering of a service for a label set, when it matches. *)
Definition rendered (podLabels : gmap string string) (svc : Service)
  : option string :=
  sp ← serviceSpec svc;
  sel ← selector sp;
  if decide (map_Forall (λ key value, podLabels !! key = Some value) sel)
  then Some (match ports sp with
             | Some (p :: ps) =>
                 serviceName svc +:+ ":" +:+
                 join "," ((λ q, pretty (port q)) <$> p :: ps)
             | _ => serviceName svc
             end)
  else None.

(** The hosts an ingress rule contributes for a list of base names: its
    host once per path whose backend service is among them. *)
Definition ruleHosts (basenames : list string) (rule : IngressRule)
  : list string :=
  match truthy (host rule) with
  | Some h =>
      omap (λ path,
              wanted ← (backend path ≫= service) ≫=
                         (λ s, truthy (backendName s));
              if decide (wanted ∈ basenames) then Some h else None)
           (default [] (http rule ≫= paths))
  | None => []
  end.

Definition ingressRules (ingress : Ingress) : list IngressRule :=
  default [] (ingressSpec ingress ≫= rules).

End Spec.

(** ** The objects of the examples *)

Module Examples.
Import K8s.

Definition pvcVolume (claim : string) : Volume :=
  {| persistentVolumeClaim := Some {| claimName := Some claim |};
     configMap := None;
     secret := None |}.

Definition configMapEnv (configMapName : string) : EnvVar :=
  {| valueFrom :=
       Some {| configMapKeyRef := Some {| keyRefName := Some configMapName |};
               secretKeyRef := None |} |}.

Definition podOf (labels : option (gmap string string))
    (volumes : list Volume) (entries : list EnvVar) : PodObject :=
  {| metadata := Some {| podName := "web-1"; labels := labels |};
     spec := Some {| volumes := Some volumes;
                     containers := Some [ {| env := Some entries |} ] |} |}.

(** One volume on the storage claim [data-1], one environment entry on
    the config map [app-config], labels [app=web] and [tier=frontend]. *)
Definition webPod : PodObject :=
  podOf (Some {[ "app" := "web"; "tier" := "frontend" ]})
    [pvcVolume "data-1"] [configMapEnv "app-config"].

Definition data1 : Resource := {| resourceName := "data-1" |}.
Definition data2 : Resource := {| resourceName := "data-2" |}.
Definition appConfig : Resource := {| resourceName := "app-config" |}.

Definition serviceOf (name : string)
    (selector : option (gmap string string)) (ports : list N) : Service :=
  {| serviceName := name;
     serviceSpec :=
       Some {| selector := selector;
               ports := Some ((λ p, {| port := p |}) <$> ports) |} |}.

Definition ingressOf (host : option string) (backend : string) : Ingress :=
  {| ingressSpec :=
       Some {| rules :=
         Some [ {| host := host;
                   http := Some {| paths :=
                     Some [ {| backend :=
                       Some {| service :=
                         Some {| backendName := Some backend |} |} |} ] |} |} ] |} |}.

(** Two lines of [kubectl top pods]; the CPU field of the first and the
    memory field of the second carry no number. *)
Definition twoLines : string :=
  "pod-a abc 12Mi" +:+ String "010" "pod-b 5m xMi".

End Examples.

(** ** [getClusterInfo] and the cluster-info route, after the commands ran

    The two copies differ in the node parser they call. *)

Module Overview.
Import Js Decode.

(** The object [getClusterInfo] returns for a namespace, cast to
    [Namespace]: [podCount] is the number read from [wc -l], [pods] is
    empty. *)
Record NamespaceSummary := {
  summaryId : string;
  summaryName : string;
  summaryPodCount : JsNum;
  summaryCpuUsage : JsNum;
  summaryMemoryUsage : JsNum }.

(** [Cluster] of [src/lib/types.ts]. *)
Record Cluster := {
  id : string;
  name : string;
  context : string;
  cpuUsage : JsNum;
  cpuTotal : JsNum;
  memoryUsage : JsNum;
  memoryTotal : JsNum;
  namespaces : list NamespaceSummary }.

(** What the commands printed for one namespace: its name, the output of
    [kubectl get pods ... | wc -l], and the output of [kubectl top pods],
    [None] when that command failed. *)
Record NamespaceListing := {
  nsName : string;
  podStdout : string;
  nsMetricsStdout : option string }.

(** [x || 0] on numbers *)
Definition orZero (x : JsNum) : JsNum :=
  if truthyNumber x then x else ofZ 0.

(** The callback of [namespaces.items.map]. *)
Definition namespaceSummary (listing : NamespaceListing)
  : NamespaceSummary :=
  let nsName := nsName listing in
  let podCount := orZero (parseInt (trim (podStdout listing))) in
  let podMetrics :=
    match nsMetricsStdout listing with
    | Some nsMetricsStdout =>
        ServerActions.parseNamespaceMetrics nsMetricsStdout
    | None => {| nsCpuUsage := ofZ 0; nsMemoryUsage := ofZ 0 |}
    end in
  {| summaryId := nsName;
     summaryName := nsName;
     summaryPodCount := podCount;
     summaryCpuUsage := nsCpuUsage podMetrics;
     summaryMemoryUsage := nsMemoryUsage podMetrics |}.

(** From [// Get node metrics] to the end: [nodeStdout] is the output of
    [kubectl top nodes], [None] when the command failed. *)
Definition clusterOf (parseNodeMetrics : string → NodeTotals)
    (contextName : string) (nodeStdout : option string)
    (listings : list NamespaceListing) : Cluster :=
  let nodeMetrics :=
    match nodeStdout with
    | Some metricsStdout => parseNodeMetrics metricsStdout
    | None => {| nodeCpuUsage := ofZ 0; nodeCpuTotal := ofZ 8000;
                 nodeMemoryUsage := ofZ 0; nodeMemoryTotal := ofZ 32000 |}
    end in
  let cluster :=
    {| id := contextName; name := contextName; context := contextName;
       cpuUsage := nodeCpuUsage nodeMetrics;
       cpuTotal := nodeCpuTotal nodeMetrics;
       memoryUsage := nodeMemoryUsage nodeMetrics;
       memoryTotal := nodeMemoryTotal nodeMetrics;
       namespaces := [] |} in
  let namespaces := namespaceSummary <$> listings in
  {| id := id cluster; name := name cluster; context := context cluster;
     cpuUsage :=
       ServerActions.reduce (λ sum ns, add sum (summaryCpuUsage ns))
         (ofZ 0) namespaces;
     cpuTotal := cpuTotal cluster;
     memoryUsage :=
       ServerActions.reduce (λ sum ns, add sum (summaryMemoryUsage ns))
         (ofZ 0) namespaces;
     memoryTotal := memoryTotal cluster;
     namespaces := namespaces |}.

(** [getClusterInfo] of [server-actions.ts]. *)
Definition getClusterInfo := clusterOf ServerActions.parseNodeMetrics.

(** [POST] of the cluster-info route. *)
Definition POST := clusterOf ClusterInfoRoute.parseNodeMetrics.

End Overview.

(** ** [getKubeContexts] and [getCurrentContext], after the commands ran *)

Module Contexts.
Import Js.

(** An item of [kubectl config get-contexts -o json]: [context.name] and
    the three properties read of [context.context]. *)
Record ContextItem := {
  itemName : string;
  itemCluster : string;
  itemUser : string;
  itemNamespace : option string }.

(** [KubeContext] of [src/lib/types.ts]. *)
Record KubeContext := {
  name : string;
  cluster : string;
  user : string;
  namespace : option string;
  current : bool }.

(** [getCurrentContext]: the trimmed output of
    [kubectl config current-context], the empty string when the command
    failed ([None]). *)
Definition getCurrentContext (stdout : option string) : string :=
  match stdout with
  | Some out => trim out
  | None => ""
  end.

(** The callback of [contexts.items.map]. *)
Definition formatContext (currentContext : string) (item : ContextItem)
  : KubeContext :=
  {| name := itemName item;
     cluster := itemCluster item;
     user := itemUser item;
     namespace := itemNamespace item;
     current := bool_decide (itemName item = currentContext) |}.

Definition getKubeContexts (items : list ContextItem)
    (currentStdout : option string) : list KubeContext :=
  let currentContext := getCurrentContext currentStdout in
  formatContext currentContext <$> items.

End Contexts.

(** ** Reading a metrics text, declaratively

    What the loops of the parsers are compared with further down. *)

Module Reading.
Import Js Decode.

(** The three fields a line contributes: its first three parts, when it has
    that many. *)
Definition fieldsOf (line : string) : option (string * string * string) :=
  match partsOf line with
  | name :: cpuStr :: memStr :: _ => Some (name, cpuStr, memStr)
  | _ => None
  end.

(** The lines of a text that contribute. *)
Definition samplesOf (metricsOutput : string)
  : list (string * string * string) :=
  omap fieldsOf (linesOf metricsOutput).

(** A text made of white space only. *)
Fixpoint blank (s : string) : bool :=
  match s with
  | String c s' => isSpace c && blank s'
  | "" => true
  end.

(** The per-pod reading of a sample by [server-actions.ts] and by the
    route. *)
Definition serverMetrics (sample : string * string * string) : Metrics :=
  {| cpu := cpuOf sample.1.2;
     memory := default (ofZ 0) (memoryOf sample.2) |}.

Definition routeMetrics (sample : string * string * string) : Metrics :=
  {| cpu := cpuOf sample.1.2; memory := memoryOfCorrected sample.2 |}.

(** One step of a per-pod parser whose reading of a sample is [reading]:
    the sample, when there is one, is stored under its name. *)
Definition insertSample (reading : string * string * string → Metrics)
    (result : gmap string Metrics) (line : string) : gmap string Metrics :=
  match fieldsOf line with
  | Some sample => <[sample.1.1 := reading sample]> result
  | None => result
  end.

(** The own keys of the object a per-pod parser returns: the names
    stored in it, [__proto__] apart, which names its prototype. *)
Definition ownKeys (result : gmap string Metrics) : gset string :=
  dom result ∖ {[ "__proto__" ]}.

(** Sum of a list of numbers, from the first to the last. *)
Definition total (l : list JsNum) : JsNum := fold_left add l (ofZ 0).

End Reading.

(** ** More objects for examples *)

Module MoreExamples.
Import K8s.

(** The same pod on two lines. *)
Definition repeatedPod : string :=
  "pod-a 1m 1Mi" +:+ String "010" "pod-a 2m 2Mi".

(** Two pods, a blank line and a line of two parts between them. *)
Definition twoPods : string :=
  "web-1 250m 64Mi" +:+ String "010" "" +:+ String "010" "no metrics"
  +:+ String "010" "db-1 1 1Gi".

(** Three pods; the first uses [2^53] millicores. *)
Definition unevenPods : string :=
  "a 9007199254740992m 1Mi" +:+ String "010" "b 1m 1Mi"
  +:+ String "010" "c 1m 1Mi".

(** A pod of the given name, without labels and without spec. *)
Definition barePod (name : string) : PodObject :=
  {| metadata := Some {| podName := name; labels := None |};
     spec := None |}.

End MoreExamples.

(** ** Decidable equality of numbers and records, for evaluation *)

Global Instance JsNum_eq_dec : EqDecision Js.JsNum.
Proof. solve_decision. Defined.

Global Instance Metrics_eq_dec : EqDecision Metrics.
Proof. solve_decision. Defined.

Global Instance NodeTotals_eq_dec : EqDecision NodeTotals.
Proof. solve_decision. Defined.

Global Instance NamespaceTotals_eq_dec : EqDecision NamespaceTotals.
Proof. solve_decision. Defined.

Global Instance Pod_eq_dec : EqDecision Pod.t.
Proof. solve_decision. Defined.

Global Instance Namespace_eq_dec : EqDecision Namespace.t.
Proof. solve_decision. Defined.

(** Closes a closed, decidable statement by evaluation. *)
Ltac by_evaluation :=
  apply (bool_decide_eq_true_1 _); vm_compute; reflexivity.

(** ** Strings *)

Section Strings.
Import Js Spec.

Lemma app_cons c s r : String c s +:+ r = String c (s +:+ r).
Proof. reflexivity. Qed.

Lemma app_empty_l r : "" +:+ r = r.
Proof. reflexivity. Qed.

Lemma app_empty_r s : s +:+ "" = s.
Proof. induction s as [|c s IH]; [done|]. by rewrite app_cons, IH. Qed.


Lemma length_app a b :
  String.length (a +:+ b) = String.length a + String.length b.
Proof. induction a as [|x a IH]; [done|]. rewrite app_cons. simpl. lia. Qed.

Lemma eqb_length a b : String.eqb a b = true → String.length a = String.length b.
Proof. intros ->%String.eqb_eq. done. Qed.

(** *** [endsWith] *)

Lemma endsWith_unfold s suffix :
  endsWith s suffix =
    if String.eqb s suffix then true
    else match s with String _ s' => endsWith s' suffix | "" => false end.
Proof. by destruct s. Qed.

Lemma endsWith_short s suffix :
  String.length s < String.length suffix → endsWith s suffix = false.
Proof.
  induction s as [|c s IH]; intros Hlen; rewrite endsWith_unfold.
  - destruct suffix; [simpl in Hlen; lia | done].
  - destruct (String.eqb (String c s) suffix) eqn:E.
    + apply eqb_length in E. lia.
    + apply IH. simpl in Hlen. lia.
Qed.

(** A string that ends with a piece as long as [suffix] ends with [suffix]
    exactly when the piece is [suffix]. *)
Lemma endsWith_app a piece suffix :
  String.length piece = String.length suffix →
  endsWith (a +:+ piece) suffix = String.eqb piece suffix.
Proof.
  intros Hlen. induction a as [|c a IH].
  - rewrite app_empty_l, endsWith_unfold.
    destruct (String.eqb piece suffix) eqn:E; [done|].
    destruct piece as [|c p].
    + done.
    + apply endsWith_short. simpl in Hlen. lia.
  - rewrite app_cons, endsWith_unfold.
    destruct (String.eqb (String c (a +:+ piece)) suffix) eqn:E; [|done].
    apply eqb_length in E. simpl in E. rewrite length_app in E. lia.
Qed.

(** What holds of every character of a string holds of every character of
    a suffix of it. *)
Lemma endsWith_allDigits s suffix :
  endsWith s suffix = true → allDigits s = true → allDigits suffix = true.
Proof.
  induction s as [|c s IH]; rewrite endsWith_unfold.
  - destruct (String.eqb "" suffix) eqn:E; [|done].
    apply String.eqb_eq in E as <-. done.
  - destruct (String.eqb _ suffix) eqn:E.
    + apply String.eqb_eq in E as <-. done.
    + simpl. intros ? [_ ?]%andb_prop. auto.
Qed.

(** A string that ends with [prefix +:+ suffix] ends with [suffix]. *)
Lemma endsWith_shorter s prefix suffix :
  endsWith s (prefix +:+ suffix) = true → endsWith s suffix = true.
Proof.
  induction s as [|c s IH]; rewrite endsWith_unfold.
  - destruct (String.eqb "" (prefix +:+ suffix)) eqn:E; [|done].
    apply String.eqb_eq in E. by destruct prefix, suffix.
  - destruct (String.eqb (String c s) (prefix +:+ suffix)) eqn:E.
    + apply String.eqb_eq in E as ->. intros _.
      rewrite endsWith_app by done. apply String.eqb_refl.
    + intros H%IH. rewrite endsWith_unfold, H. by case_match.
Qed.

(** *** [slice(0, -k)] *)

Lemma substring_app a b :
  String.substring 0 (String.length a) (a +:+ b) = a.
Proof.
  induction a as [|c a IH].
  - by destruct b.
  - rewrite app_cons. simpl. by rewrite IH.
Qed.

Lemma dropLast_app a suffix :
  dropLast (String.length suffix) (a +:+ suffix) = a.
Proof.
  unfold dropLast. rewrite length_app.
  replace (_ + _ - _) with (String.length a) by lia. apply substring_app.
Qed.

End Strings.

(** ** Decimal numerals and [Number.parseInt] *)

Section Numerals.
Import Js Spec.

Lemma digitOf_pretty_char d :
  (d < 10)%N → digitOf (pretty_N_char d) = Some d.
Proof.
  intros Hd.
  assert (d = 0 ∨ d = 1 ∨ d = 2 ∨ d = 3 ∨ d = 4 ∨ d = 5 ∨ d = 6 ∨ d = 7
          ∨ d = 8 ∨ d = 9)%N as Hcases by lia.
  repeat (destruct Hcases as [->|Hcases]; [done|]). by subst.
Qed.

Lemma digit_not_space c : is_Some (digitOf c) → isSpace c = false.
Proof.
  destruct c as [[] [] [] [] [] [] [] []]; try done; by intros [? [=]].
Qed.

Lemma allDigits_noSpace s : allDigits s = true → noSpace s = true.
Proof.
  induction s as [|c s IH]; [done|]. simpl.
  intros [Hc Hs]%andb_prop. apply bool_decide_eq_true_1 in Hc.
  by rewrite (digit_not_space c Hc), IH.
Qed.

(** [pretty_N_go x s] writes the digits of [x] in front of [s]. *)
Lemma pretty_go_app x s r : pretty_N_go x s +:+ r = pretty_N_go x (s +:+ r).
Proof.
  revert s. induction (N.lt_wf_0 x) as [x _ IH]; intros s.
  destruct (decide (x = 0)%N) as [->|Hx]; [done|].
  rewrite (pretty_N_go_step x s), (pretty_N_go_step x (s +:+ r)) by lia.
  rewrite IH by (apply N.div_lt; lia). reflexivity.
Qed.

Lemma allDigits_pretty_go x s :
  allDigits (pretty_N_go x s) = allDigits s.
Proof.
  revert s. induction (N.lt_wf_0 x) as [x _ IH]; intros s.
  destruct (decide (x = 0)%N) as [->|Hx]; [done|].
  rewrite pretty_N_go_step by lia. rewrite IH by (apply N.div_lt; lia).
  simpl. rewrite digitOf_pretty_char by (apply N.mod_lt; lia).
  rewrite bool_decide_eq_true_2; [done | by eexists].
Qed.

Lemma pretty_go_nonempty x s : (0 < x)%N → pretty_N_go x s ≠ "".
Proof.
  revert s. induction (N.lt_wf_0 x) as [x _ IH]; intros s Hx.
  rewrite pretty_N_go_step by done.
  destruct (decide (x `div` 10 = 0)%N) as [->|Hq]; [done|].
  apply IH; [apply N.div_lt; lia | by apply N.neq_0_lt_0].
Qed.

Lemma allDigits_pretty (n : N) : allDigits (pretty n) = true.
Proof.
  unfold pretty, pretty_N. case_decide; [done|]. apply allDigits_pretty_go.
Qed.

Lemma pretty_nonempty (n : N) : pretty n ≠ "".
Proof.
  unfold pretty, pretty_N. case_decide; [done|].
  apply pretty_go_nonempty. lia.
Qed.

(** Reading back the digits written by [pretty_N_go]. *)
Lemma scanDigits_pretty_go x :
  (0 < x)%N →
  ∃ p, ∀ acc s,
    scanDigits acc (pretty_N_go x s)
    = scanDigits (Some (default 0 acc * p + x)%N) s.
Proof.
  induction (N.lt_wf_0 x) as [x _ IH]; intros Hx.
  assert (Hstep : ∀ acc s,
    scanDigits acc (String (pretty_N_char (x `mod` 10)) s)
    = scanDigits (Some (10 * default 0 acc + x `mod` 10)%N) s).
  { intros acc s. simpl.
    by rewrite digitOf_pretty_char by (apply N.mod_lt; lia). }
  destruct (decide (x `div` 10 = 0)%N) as [Hq|Hq].
  - exists 10%N. intros acc s.
    rewrite pretty_N_go_step, Hq, pretty_N_go_0, Hstep by done.
    do 2 f_equal. rewrite (N.div_mod x 10) at 2 by done. rewrite Hq. lia.
  - destruct (IH (x `div` 10)%N) as [p Hp];
      [apply N.div_lt; lia | by apply N.neq_0_lt_0 |].
    exists (10 * p)%N. intros acc s.
    rewrite pretty_N_go_step, Hp, Hstep by done. simpl.
    do 2 f_equal. rewrite (N.div_mod x 10) at 3 by done.
    generalize (x `div` 10)%N (x `mod` 10)%N. intros q r. lia.
Qed.

Lemma scanDigits_pretty (n : N) : scanDigits None (pretty n) = Some n.
Proof.
  unfold pretty, pretty_N. case_decide as Hn; [by subst|].
  destruct (scanDigits_pretty_go n) as [p Hp]; [lia|].
  by rewrite Hp.
Qed.

(** A numeral that starts with a digit has no sign and no leading space. *)
Lemma parseInt_digit_head c s :
  is_Some (digitOf c) →
  parseInt (String c s)
  = match scanDigits None (String c s) with
    | Some n => ofZ (Z.of_N n)
    | None => NaN
    end.
Proof.
  destruct c as [[] [] [] [] [] [] [] []]; intros Hc;
    try (by destruct Hc as [? [=]]); reflexivity.
Qed.

Lemma parseInt_pretty (n : N) : parseInt (pretty n) = ofN n.
Proof.
  pose proof (allDigits_pretty n) as Hd. pose proof (pretty_nonempty n) as Hne.
  pose proof (scanDigits_pretty n) as Hscan.
  destruct (pretty n) as [|c s]; [done|].
  simpl in Hd. apply andb_prop in Hd as [Hc _].
  apply bool_decide_eq_true_1 in Hc.
  by rewrite parseInt_digit_head, Hscan.
Qed.

Lemma endsWith_pretty (n : N) suffix :
  allDigits suffix = false → endsWith (pretty n) suffix = false.
Proof.
  intros Hsuf. destruct (endsWith (pretty n) suffix) eqn:E; [|done].
  apply endsWith_allDigits in E; [congruence | apply allDigits_pretty].
Qed.

End Numerals.

(** ** Numbers *)

Section Numbers.
Import Js Spec Reading.
Local Open Scope Z_scope.

Lemma oddPart_spec p o k :
  oddPart p = (o, k) → Zpos p = Zpos o * 2 ^ k ∧ 0 ≤ k ∧ Z.odd (Zpos o) = true.
Proof.
  revert o k. induction p as [p _|p IH|]; intros o k; simpl.
  - intros [= <- <-]. by rewrite Z.mul_1_r.
  - destruct (oddPart p) as [o' k'] eqn:E. intros [= <- <-].
    destruct (IH _ _ eq_refl) as (Hp & Hk & Hodd).
    split; [|split; [lia | done]].
    rewrite Z.add_1_r, Z.pow_succ_r by done. rewrite Pos2Z.inj_xO, Hp. ring.
  - by intros [= <- <-].
Qed.

Lemma oddPart_odd p :
  Z.odd (Zpos p) = true → oddPart p = (p, 0).
Proof. by destruct p. Qed.

(** [norm] keeps the value and leaves an odd mantissa. *)
Lemma norm_spec m e m' e' :
  norm m e = (m', e') → m ≠ 0 →
  m = m' * 2 ^ (e' - e) ∧ e ≤ e' ∧ Z.odd m' = true.
Proof.
  destruct m as [|p|p]; [done|..]; simpl;
    destruct (oddPart p) as [o k] eqn:E; intros [= <- <-] _;
    destruct (oddPart_spec _ _ _ E) as (Hp & Hk & Hodd);
    replace (e + k - e) with k by lia.
  - by split; [|split; [lia|]].
  - split; [|split; [lia | done]].
    rewrite <- Pos2Z.opp_pos, Hp, <- Pos2Z.opp_pos. ring.
Qed.

Lemma norm_zero m e m' e' : norm m e = (m', e') → (m' = 0 ↔ m = 0).
Proof.
  destruct m as [|p|p]; simpl; [by intros [= <- <-]|..];
    destruct (oddPart p); by intros [= <- <-].
Qed.

Lemma norm_sign m e m' e' : norm m e = (m', e') → (m' <? 0) = (m <? 0).
Proof.
  destruct m as [|p|p]; simpl; [by intros [= <- <-]|..];
    destruct (oddPart p); by intros [= <- <-].
Qed.

Lemma norm_odd m e : Z.odd m = true → norm m e = (m, e).
Proof.
  destruct m as [|p|p]; [done|..]; simpl; intros Hodd;
    rewrite (oddPart_odd p) by done; f_equal; lia.
Qed.

Lemma norm_idem m e m' e' : norm m e = (m', e') → norm m' e' = (m', e').
Proof.
  intros H. destruct (decide (m = 0)) as [->|Hm].
  - by injection H as <- <-.
  - apply norm_odd. by destruct (norm_spec _ _ _ _ H Hm) as (_ & _ & ?).
Qed.

Lemma norm_double m e : norm (2 * m) e = norm m (e + 1).
Proof.
  destruct m as [|p|p]; [done|..].
  - change (2 * Z.pos p) with (Z.pos p~0). simpl.
    destruct (oddPart p) as [o k]. f_equal. lia.
  - change (2 * Z.neg p) with (Z.neg p~0). simpl.
    destruct (oddPart p) as [o k]. f_equal. lia.
Qed.

Lemma norm_shift m e k : 0 ≤ k → norm (m * 2 ^ k) e = norm m (e + k).
Proof.
  intros Hk. revert e. pattern k. apply natlike_ind; [| |done].
  - intros e. by rewrite Z.mul_1_r, Z.add_0_r.
  - intros j Hj IH e. rewrite Z.pow_succ_r by done.
    replace (m * (2 * 2 ^ j)) with (2 * (m * 2 ^ j)) by ring.
    rewrite norm_double, IH. f_equal. lia.
Qed.

Lemma round_norm m e m' e' :
  norm m e = (m', e') → round m e = round m' e'.
Proof.
  intros H. unfold round. rewrite H, (norm_idem _ _ _ _ H).
  by rewrite (norm_sign _ _ _ _ H).
Qed.

(** Rounding sees the value only: the mantissa may trade powers of two
    with the exponent. *)
Lemma round_shift m e k : 0 ≤ k → round (m * 2 ^ k) e = round m (e + k).
Proof.
  intros Hk. destruct (norm m (e + k)) as [m' e'] eqn:H.
  rewrite (round_norm _ _ _ _ H). apply round_norm. by rewrite norm_shift.
Qed.

(** A value that fits is kept. *)
Lemma round_exact m e m' e' :
  norm m e = (m', e') →
  Z.log2 (Z.abs m') ≤ 52 → -1074 ≤ e' → Z.log2 (Z.abs m') + e' < 1024 →
  round m e = Fin m' e'.
Proof.
  intros H Hbits Hexp Htop. unfold round. rewrite H.
  rewrite (proj2 (Z.leb_le _ _)) by lia.
  by rewrite (proj2 (Z.leb_gt _ _)) by lia.
Qed.

Lemma roundShift_bound a s :
  0 ≤ s → Z.abs a < 2 ^ (s + 53) → Z.abs (roundShift a s) ≤ 2 ^ 53.
Proof.
  intros Hs Ha. rewrite Z.pow_add_r in Ha by lia.
  assert (Hd : 0 < 2 ^ s) by (by apply Z.pow_pos_nonneg).
  assert (Hk : - 2 ^ 53 ≤ a `div` 2 ^ s ≤ 2 ^ 53 - 1).
  { split.
    - apply Z.div_le_lower_bound; lia.
    - assert (a `div` 2 ^ s < 2 ^ 53); [|lia].
      apply Z.div_lt_upper_bound; lia. }
  unfold roundShift.
  destruct (2 * (a `mod` 2 ^ s) ?= 2 ^ s); [destruct (Z.even _)|..]; lia.
Qed.

Lemma odd_part_bound n k N :
  N = n * 2 ^ k → 0 ≤ k → Z.odd n = true → Z.abs N ≤ 2 ^ 53 →
  Z.log2 (Z.abs n) ≤ 52.
Proof.
  intros -> Hk Hodd HN.
  assert (Hpow : 0 < 2 ^ k) by (apply Z.pow_pos_nonneg; lia).
  assert (Hn : Z.abs n ≤ 2 ^ 53).
  { rewrite Z.abs_mul, (Z.abs_eq (2 ^ k)) in HN by lia. nia. }
  destruct (decide (Z.abs n = 2 ^ 53)) as [Heq|Hne].
  - exfalso. assert (H : Z.odd (Z.abs n) = true) by (by destruct n as [|[]|[]]).
    by rewrite Heq in H.
  - assert (Z.abs n < 2 ^ 53) by lia.
    destruct (decide (Z.abs n = 0)) as [->|?]; [done|].
    assert (Z.log2 (Z.abs n) < 53); [|lia].
    apply Z.log2_lt_pow2; lia.
Qed.

(** What [round] returns is a double: rounding it again changes nothing. *)
Lemma round_canonical m e : canonical (round m e).
Proof.
  unfold canonical. destruct (round m e) as [| |n x] eqn:Hround; [done..|].
  unfold round in Hround. destruct (norm m e) as [m' e'] eqn:Hnorm.
  set (u := Z.max (Z.log2 (Z.abs m') + e' - 52) (-1074)) in *.
  destruct (u <=? e') eqn:Hfits.
  - destruct (1024 <=? _) eqn:Htop; [done|]. injection Hround as <- <-.
    apply Z.leb_le in Hfits. apply Z.leb_gt in Htop.
    apply round_exact; [by eapply norm_idem | lia..].
  - apply Z.leb_gt in Hfits.
    destruct (norm (roundShift m' (u - e')) u) as [n' x'] eqn:Hshift.
    destruct (1024 <=? _) eqn:Htop; [done|]. injection Hround as <- <-.
    apply Z.leb_gt in Htop.
    apply round_exact; [by eapply norm_idem | | | done].
    + destruct (decide (roundShift m' (u - e') = 0)) as [Hzero|Hnz].
      { rewrite Hzero in Hshift. by injection Hshift as <- <-. }
      destruct (norm_spec _ _ _ _ Hshift Hnz) as (Hvalue & Hle & Hodd).
      eapply odd_part_bound; [exact Hvalue | lia | done |].
      apply roundShift_bound; [lia|].
      destruct (decide (m' = 0)) as [->|Hm']; [by apply Z.pow_pos_nonneg; lia|].
      assert (Hlog := Z.log2_spec (Z.abs m') ltac:(lia)).
      eapply Z.lt_le_trans; [apply Hlog|].
      apply Z.pow_le_mono_r; lia.
    + destruct (decide (roundShift m' (u - e') = 0)) as [Hzero|Hnz].
      { rewrite Hzero in Hshift. by injection Hshift as <- <-. }
      destruct (norm_spec _ _ _ _ Hshift Hnz) as (_ & Hle & _). lia.
Qed.

Lemma ofZ_precise z : precise z → integerValue (ofZ z) = Some z ∧ canonical (ofZ z).
Proof.
  intros Hz. split; [|apply round_canonical]. unfold ofZ.
  destruct (decide (z = 0)) as [->|Hnz]; [done|].
  destruct (norm z 0) as [m' e'] eqn:Hnorm.
  destruct (norm_spec _ _ _ _ Hnorm Hnz) as (Hvalue & Hle & Hodd).
  rewrite Z.sub_0_r in Hvalue.
  assert (Hm' : m' ≠ 0) by (intros ->; simpl in Hvalue; lia).
  assert (Hbits : Z.log2 (Z.abs m') ≤ 52).
  { eapply odd_part_bound; [exact Hvalue | done..]. }
  assert (Hsize : Z.log2 (Z.abs m') + e' = Z.log2 (Z.abs z)).
  { rewrite Hvalue, Z.abs_mul, (Z.abs_eq (2 ^ e'))
      by (apply Z.pow_nonneg; lia).
    rewrite Z.log2_mul_pow2 by lia. lia. }
  assert (Z.log2 (Z.abs z) ≤ 53).
  { etrans; [apply Z.log2_le_mono, Hz|]. by rewrite Z.log2_pow2. }
  rewrite (round_exact _ _ _ _ Hnorm) by lia.
  simpl. rewrite (proj2 (Z.leb_le _ _)) by lia. by rewrite <- Hvalue.
Qed.

Lemma ofZ_inj a b : precise a → precise b → ofZ a = ofZ b → a = b.
Proof.
  intros [Ha _]%ofZ_precise [Hb _]%ofZ_precise Heq. rewrite Heq in Ha. congruence.
Qed.

(** *** Addition *)

Lemma add_comm a b : add a b = add b a.
Proof.
  destruct a as [|s|m1 e1], b as [|t|m2 e2]; simpl; try done.
  - by destruct s, t.
  - by rewrite Z.min_comm, Z.add_comm.
Qed.

Lemma add_NaN_r a : add a NaN = NaN.
Proof. by destruct a. Qed.

Lemma add_NaN_l a : add NaN a = NaN.
Proof. done. Qed.

Lemma add_canonical a b : canonical (add a b).
Proof.
  destruct a as [|s|m1 e1], b as [|t|m2 e2]; simpl; try done.
  - by destruct (Bool.eqb s t).
  - apply round_canonical.
Qed.

Lemma add_0_l a : canonical a → add (ofZ 0) a = a.
Proof.
  destruct a as [|s|m e]; [done..|]. intros Hm. change (ofZ 0) with (Fin 0 0).
  cbn [add]. rewrite Z.mul_0_l, Z.add_0_l.
  rewrite round_shift by lia. unfold canonical in Hm.
  replace (Z.min 0 e + (e - Z.min 0 e)) with e by lia. done.
Qed.

Lemma add_0_r a : canonical a → add a (ofZ 0) = a.
Proof. intros Ha. by rewrite add_comm, add_0_l. Qed.

Lemma add_integers a b va vb :
  integerValue a = Some va → integerValue b = Some vb →
  add a b = ofZ (va + vb).
Proof.
  destruct a as [| |m1 e1], b as [| |m2 e2]; try done. simpl.
  destruct (0 <=? e1) eqn:H1; [|done]. destruct (0 <=? e2) eqn:H2; [|done].
  apply Z.leb_le in H1, H2. intros [= <-] [= <-]. unfold ofZ.
  set (e := Z.min e1 e2).
  replace (m1 * 2 ^ e1 + m2 * 2 ^ e2)
    with ((m1 * 2 ^ (e1 - e) + m2 * 2 ^ (e2 - e)) * 2 ^ e).
  - rewrite round_shift by lia. f_equal.
  - rewrite Z.mul_add_distr_r, <- !Z.mul_assoc, <- !Z.pow_add_r by lia.
    f_equal; f_equal; f_equal; lia.
Qed.

Lemma ofZ_add a b : precise a → precise b → add (ofZ a) (ofZ b) = ofZ (a + b).
Proof.
  intros [Ha _]%ofZ_precise [Hb _]%ofZ_precise. by apply add_integers.
Qed.

(** *** Multiplication, division by 1024 and floor *)



Lemma mul_canonical a b : canonical (mul a b).
Proof.
  destruct a as [|s|m1 e1], b as [|t|m2 e2]; simpl; try done.
  - by destruct (m2 =? 0).
  - by destruct (m1 =? 0).
  - apply round_canonical.
Qed.

Lemma div1024_canonical a : canonical a → canonical (div1024 a).
Proof. destruct a; [done..|]. intros _. apply round_canonical. Qed.

Lemma floor_canonical a : canonical a → canonical (floor a).
Proof.
  destruct a as [| |m e]; [done..|]. intros _. simpl.
  destruct (0 <=? e); apply round_canonical.
Qed.

(** [Math.floor(z / 1024)] on a precise integer is the integer quotient. *)
Lemma floor_div1024 z :
  precise z → floor (div1024 (ofZ z)) = ofZ (z `div` 1024).
Proof.
  intros Hz. destruct (decide (z = 0)) as [->|Hnz]; [done|].
  unfold ofZ at 1. destruct (norm z 0) as [m' e'] eqn:Hnorm.
  destruct (norm_spec _ _ _ _ Hnorm Hnz) as (Hvalue & Hle & Hodd).
  rewrite Z.sub_0_r in Hvalue.
  assert (Hm' : m' ≠ 0) by (intros ->; simpl in Hvalue; lia).
  assert (Hbits : Z.log2 (Z.abs m') ≤ 52).
  { eapply odd_part_bound; [exact Hvalue | done..]. }
  assert (Hsize : Z.log2 (Z.abs m') + e' = Z.log2 (Z.abs z)).
  { rewrite Hvalue, Z.abs_mul, (Z.abs_eq (2 ^ e'))
      by (apply Z.pow_nonneg; lia).
    rewrite Z.log2_mul_pow2 by lia. lia. }
  assert (Z.log2 (Z.abs z) ≤ 53).
  { etrans; [apply Z.log2_le_mono, Hz|]. by rewrite Z.log2_pow2. }
  rewrite (round_exact _ _ _ _ Hnorm) by lia. cbn [div1024].
  rewrite (round_exact m' (e' - 10) m' (e' - 10))
    by (by apply norm_odd || lia).
  cbn [floor]. unfold ofZ. destruct (0 <=? e' - 10) eqn:Hexp.
  - apply Z.leb_le in Hexp.
    replace (z `div` 1024) with (m' * 2 ^ (e' - 10)).
    + rewrite round_shift by lia. f_equal.
    + rewrite Hvalue. replace e' with (e' - 10 + 10) at 2 by lia.
      rewrite Z.pow_add_r, Z.mul_assoc by lia.
      by rewrite Z.div_mul.
  - apply Z.leb_gt in Hexp. f_equal. rewrite Hvalue.
    replace 1024 with (2 ^ e' * 2 ^ (10 - e')).
    + rewrite (Z.mul_comm m'), Z.div_mul_cancel_l
        by (apply Z.pow_nonzero; lia).
      f_equal. f_equal. lia.
    + rewrite <- Z.pow_add_r by lia. by replace (e' + (10 - e')) with 10 by lia.
Qed.

(** *** What the operations return *)

Lemma ofZ_canonical z : canonical (ofZ z).
Proof. apply round_canonical. Qed.

Lemma parseInt_canonical s : canonical (parseInt s).
Proof.
  unfold parseInt. repeat case_match; try done; apply round_canonical.
Qed.

Lemma fold_add_canonical l a : canonical a → canonical (fold_left add l a).
Proof.
  revert a. induction l as [|x l IH]; intros a Ha; [done|].
  cbn [fold_left]. apply IH, add_canonical.
Qed.

(** *** Sums from the first to the last *)

Lemma fold_add_NaN l : fold_left add l NaN = NaN.
Proof. induction l as [|x l IH]; [done|]. by cbn [fold_left add]. Qed.

Lemma fold_add_poisoned l a : NaN ∈ l → fold_left add l a = NaN.
Proof.
  revert a. induction l as [|x l IH]; intros a; [by intros ?%elem_of_nil|].
  cbn [fold_left]. intros [<-|Hin]%elem_of_cons.
  - by rewrite add_NaN_r, fold_add_NaN.
  - by apply IH.
Qed.

Lemma sumZ_nonneg zs : Forall (λ z, 0 ≤ z) zs → 0 ≤ sumZ zs.
Proof. induction 1 as [|z zs Hz _ IH]; simpl; lia. Qed.

Lemma sumZ_perm zs zs' : zs ≡ₚ zs' → sumZ zs = sumZ zs'.
Proof.
  induction 1 as [|z zs zs' _ IH|y z zs|zs1 zs2 zs3 _ IH1 _ IH2]; simpl; lia.
Qed.

(** As long as the sum of non-negative integers stays within [2^53], adding
    them one after the other loses nothing. *)
Lemma fold_add_precise zs a :
  0 ≤ a → Forall (λ z, 0 ≤ z) zs → a + sumZ zs ≤ 2 ^ 53 →
  fold_left add (ofZ <$> zs) (ofZ a) = ofZ (a + sumZ zs).
Proof.
  intros Ha Hzs. revert a Ha.
  induction Hzs as [|z zs Hz Hzs IH]; intros a Ha Hsum; simpl in *.
  - by rewrite Z.add_0_r.
  - pose proof (sumZ_nonneg zs Hzs).
    rewrite ofZ_add by (unfold precise; lia).
    rewrite IH by lia. f_equal. lia.
Qed.

Lemma total_precise zs :
  Forall (λ z, 0 ≤ z) zs → sumZ zs ≤ 2 ^ 53 →
  total (ofZ <$> zs) = ofZ (sumZ zs).
Proof. intros Hzs Hsum. unfold total. by rewrite fold_add_precise. Qed.

End Numbers.

(** ** Lines and tokens *)

Section Tokens.
Import Js Spec Decode.


Lemma isToken_nonempty s : isToken s = true → s ≠ "".
Proof. by destruct s. Qed.


Lemma isToken_pretty (n : N) : isToken (pretty n) = true.
Proof.
  pose proof (allDigits_noSpace _ (allDigits_pretty n)).
  pose proof (pretty_nonempty n). by destruct (pretty n).
Qed.

Lemma trimStart_token a r :
  isToken a = true → trimStart (a +:+ r) = a +:+ r.
Proof.
  destruct a as [|c a]; [done|]. rewrite app_cons. simpl.
  intros [Hc _]%andb_prop. by destruct (isSpace c).
Qed.














End Tokens.

(** ** Decoding a field *)

Section Fields.
Import Js Spec Decode.



Lemma cpuOf_unparseable cpuStr :
  parseInt (cpuPayload cpuStr) = NaN → cpuOf cpuStr = NaN.
Proof.
  unfold cpuPayload, cpuOf. destruct (endsWith cpuStr "m"); [done|].
  by intros ->.
Qed.

(** The three suffixes every parser knows, and what each does to the
    number in front of it. *)
Lemma memoryOf_Mi payload :
  memoryOf (payload +:+ "Mi") = Some (parseInt payload).
Proof.
  unfold memoryOf. rewrite endsWith_app by done. simpl.
  by rewrite (dropLast_app _ "Mi").
Qed.

Lemma memoryOf_Gi payload :
  memoryOf (payload +:+ "Gi") = Some (mul (parseInt payload) (ofZ 1024)).
Proof.
  unfold memoryOf. rewrite !endsWith_app by done. simpl.
  by rewrite (dropLast_app _ "Gi").
Qed.

Lemma memoryOf_Ki payload :
  memoryOf (payload +:+ "Ki") = Some (floor (div1024 (parseInt payload))).
Proof.
  unfold memoryOf. rewrite !endsWith_app by done. simpl.
  by rewrite (dropLast_app _ "Ki").
Qed.

(** On a field with one of the three suffixes the corrected chain agrees
    with the original one. *)
Lemma memoryOfCorrected_known memStr m :
  memoryOf memStr = Some m → memoryOfCorrected memStr = m.
Proof.
  unfold memoryOf, memoryOfCorrected.
  repeat (case_match; [by intros [= <-]|]). done.
Qed.

Lemma memoryOf_None memStr :
  memoryOf memStr = None ↔
  endsWith memStr "Mi" = false ∧ endsWith memStr "Gi" = false ∧
  endsWith memStr "Ki" = false.
Proof.
  unfold memoryOf.
  destruct (endsWith memStr "Mi"); [split; [done | by intros (? & _)]|].
  destruct (endsWith memStr "Gi"); [split; [done | by intros (_ & ? & _)]|].
  destruct (endsWith memStr "Ki"); [split; [done | by intros (_ & _ & ?)]|].
  done.
Qed.

(** Without one of the three suffixes the corrected chain reads bytes. *)
Lemma memoryOfCorrected_bytes memStr :
  memoryOf memStr = None →
  memoryOfCorrected memStr
  = div1024 (div1024 (parseInt (if endsWith memStr "m"
                                then dropLast 1 memStr else memStr))).
Proof.
  intros (HMi & HGi & HKi)%memoryOf_None. unfold memoryOfCorrected.
  rewrite HMi, HGi, HKi. by destruct (endsWith memStr "m").
Qed.

Lemma memoryOf_pretty_None (n : N) :
  memoryOf (pretty n) = None ∧ memoryOf (pretty n +:+ "m") = None.
Proof.
  split; apply memoryOf_None.
  - by rewrite !endsWith_pretty.
  - assert (H : ∀ c, endsWith (pretty n +:+ "m") (String c "i") = false).
    { intros c. destruct (endsWith _ (String c "i")) eqn:E; [|done].
      apply (endsWith_shorter _ (String c "") "i") in E.
      by rewrite endsWith_app in E. }
    by rewrite !H.
Qed.

End Fields.

(** ** The parsers, line by line *)

Section Parsers.
Import Js Spec Decode.

(** A running total that is [NaN] stays [NaN]. *)
Lemma fold_left_sticky {A} (step : A → string → A) (total : A → JsNum)
    (lines : list string) (acc : A) :
  (∀ acc line, total acc = NaN → total (step acc line) = NaN) →
  total acc = NaN → total (fold_left step lines acc) = NaN.
Proof.
  intros Hstep. revert acc.
  induction lines as [|line lines IH]; intros acc Hacc; simpl; auto.
Qed.

Lemma fold_left_poisoned {A} (step : A → string → A) (total : A → JsNum)
    (lines : list string) (line : string) (acc : A) :
  (∀ acc line, total acc = NaN → total (step acc line) = NaN) →
  (∀ acc, total (step acc line) = NaN) →
  line ∈ lines → total (fold_left step lines acc) = NaN.
Proof.
  intros Hsticky Hline (before & after & ->)%list_elem_of_split.
  rewrite fold_left_app. simpl. by apply fold_left_sticky.
Qed.

Lemma pod_line_server result line podName cpuStr memStr rest :
  partsOf line = podName :: cpuStr :: memStr :: rest →
  ServerActions.parsePodMetricsLine result line !! podName
  = Some {| cpu := cpuOf cpuStr;
            memory := default (ofZ 0) (memoryOf memStr) |}.
Proof.
  intros Hparts. unfold ServerActions.parsePodMetricsLine.
  rewrite Hparts. apply lookup_insert_eq.
Qed.

Lemma pod_line_route result line podName cpuStr memStr rest :
  partsOf line = podName :: cpuStr :: memStr :: rest →
  NamespaceDetailsRoute.parsePodMetricsLine result line !! podName
  = Some {| cpu := cpuOf cpuStr; memory := memoryOfCorrected memStr |}.
Proof.
  intros Hparts. unfold NamespaceDetailsRoute.parsePodMetricsLine.
  rewrite Hparts. apply lookup_insert_eq.
Qed.



End Parsers.

(** A total over a text one of whose lines yields [NaN]: the callback
    [step] keeps a [NaN] total, which closes the first goal; what is left
    is the total after the line itself. *)
Ltac poisoned_total step total line Hparts :=
  apply (fold_left_poisoned _ total _ line);
  [ let Hacc := fresh "Hacc" in
    intros ? ? Hacc; unfold step; repeat case_match; simpl;
    by rewrite ?Hacc
  | intros ?; unfold step; rewrite Hparts; simpl
  | done ].

(** ** De-duplication *)

Section Unique.
Import Js.

Lemma includes_true l x : includes l x = true ↔ x ∈ l.
Proof. unfold includes. apply bool_decide_eq_true. Qed.

Lemma includes_false l x : includes l x = false ↔ x ∉ l.
Proof. unfold includes. apply bool_decide_eq_false. Qed.

Lemma elem_of_uniqueFrom seen l x :
  x ∈ uniqueFrom seen l ↔ x ∈ l ∧ x ∉ seen.
Proof.
  revert seen. induction l as [|y l IH]; intros seen; simpl.
  - rewrite elem_of_nil. naive_solver.
  - destruct (includes seen y) eqn:E.
    + apply includes_true in E. rewrite IH, elem_of_cons. naive_solver.
    + apply includes_false in E.
      rewrite !elem_of_cons, IH, elem_of_cons.
      destruct (decide (x = y)); naive_solver.
Qed.

Lemma NoDup_uniqueFrom seen l : NoDup (uniqueFrom seen l).
Proof.
  revert seen. induction l as [|y l IH]; intros seen; simpl.
  - constructor.
  - destruct (includes seen y); [done|]. constructor; [|done].
    rewrite elem_of_uniqueFrom, elem_of_cons. naive_solver.
Qed.

Lemma elem_of_unique l x : x ∈ unique l ↔ x ∈ l.
Proof.
  unfold unique. rewrite elem_of_uniqueFrom, elem_of_nil. naive_solver.
Qed.

Lemma NoDup_unique l : NoDup (unique l).
Proof. apply NoDup_uniqueFrom. Qed.

End Unique.

(** ** Resolution of references *)

Section Resources.
Import Js K8s Spec ServerActions.
Context (resources : list Resource).

Lemma findByName_Some wanted found :
  findByName resources wanted = Some found →
  resourceName found = wanted ∧ wanted ∈ resourceName <$> resources.
Proof.
  unfold findByName. intros [Hin Hname]%find_some.
  apply bool_decide_eq_true_1 in Hname. split; [done|].
  subst. apply list_elem_of_fmap_2. by apply list_elem_of_In.
Qed.

Lemma findByName_None wanted :
  wanted ∉ resourceName <$> resources → findByName resources wanted = None.
Proof.
  intros Hnot. destruct (findByName resources wanted) eqn:E; [|done].
  by apply findByName_Some in E as [_ ?].
Qed.

Lemma findByName_is_Some wanted :
  wanted ∈ resourceName <$> resources →
  ∃ found, findByName resources wanted = Some found ∧
           resourceName found = wanted.
Proof.
  intros (r & -> & Hr)%list_elem_of_fmap.
  destruct (findByName resources (resourceName r)) as [found|] eqn:E.
  - exists found. split; [done|]. by apply findByName_Some in E as [? _].
  - unfold findByName in E. apply list_elem_of_In in Hr.
    apply (find_none _ _ E) in Hr. by apply bool_decide_eq_false_1 in Hr.
Qed.

(** One volume: its target is pushed exactly when the catalog has it. *)
Lemma volumeStep_spec result v :
  volumeStep resources result v =
    match volumeTarget v with
    | Some wanted =>
        if decide (wanted ∈ resourceName <$> resources)
        then (result ++ [wanted])%list else result
    | None => result
    end.
Proof.
  assert (Hpush : ∀ wanted,
    match findByName resources wanted with
    | Some found => (result ++ [resourceName found])%list
    | None => result
    end = if decide (wanted ∈ resourceName <$> resources)
          then (result ++ [wanted])%list else result).
  { intros wanted. case_decide as Hin.
    - by destruct (findByName_is_Some _ Hin) as (found & -> & ->).
    - by rewrite findByName_None. }
  unfold volumeStep, volumeTarget.
  destruct (persistentVolumeClaim v ≫= _); [apply Hpush|].
  destruct (configMap v ≫= _); [apply Hpush|].
  destruct (secret v ≫= _); [apply Hpush|done].
Qed.

Lemma pushIfNew_spec result wanted :
  pushIfNew resources result wanted =
    if decide (wanted ∈ resourceName <$> resources ∧ wanted ∉ result)
    then (result ++ [wanted])%list else result.
Proof.
  unfold pushIfNew. case_decide as Hin.
  - destruct Hin as [Hin Hnew].
    destruct (findByName_is_Some _ Hin) as (found & -> & ->).
    by rewrite (proj2 (includes_false _ _)).
  - destruct (findByName resources wanted) as [found|] eqn:E; [|done].
    apply findByName_Some in E as [-> Hin'].
    destruct (includes result wanted) eqn:E'; [done|].
    apply includes_false in E'. naive_solver.
Qed.

Lemma envStep_spec result e :
  envStep resources result e =
    match envTarget e with
    | Some wanted => pushIfNew resources result wanted
    | None => result
    end.
Proof.
  unfold envStep, envTarget. destruct (valueFrom e) as [source|]; [|done].
  simpl. destruct (configMapKeyRef source ≫= _); [done|].
  by destruct (secretKeyRef source ≫= _).
Qed.

(** A reference to an object the catalog lacks changes nothing. *)
Lemma volumeStep_dangling result v wanted :
  volumeTarget v = Some wanted → wanted ∉ resourceName <$> resources →
  volumeStep resources result v = result.
Proof. intros Hv Hnot. rewrite volumeStep_spec, Hv. by case_decide. Qed.

Lemma envStep_dangling result e wanted :
  envTarget e = Some wanted → wanted ∉ resourceName <$> resources →
  envStep resources result e = result.
Proof.
  intros He Hnot. rewrite envStep_spec, He, pushIfNew_spec.
  case_decide; naive_solver.
Qed.

Lemma containerStep_dangling result before e after wanted :
  envTarget e = Some wanted → wanted ∉ resourceName <$> resources →
  containerStep resources result {| env := Some (before ++ e :: after) |}
  = containerStep resources result {| env := Some (before ++ after) |}.
Proof.
  intros He Hnot. unfold containerStep. simpl. rewrite !fold_left_app.
  simpl. by rewrite (envStep_dangling _ _ _ He Hnot).
Qed.

(** Membership after the three loops. *)
Lemma elem_of_volumes_fold vs result x :
  x ∈ fold_left (volumeStep resources) vs result ↔
  x ∈ result ∨ (x ∈ omap volumeTarget vs ∧ x ∈ resourceName <$> resources).
Proof.
  revert result. induction vs as [|v vs IH]; intros result; simpl.
  - rewrite elem_of_nil. naive_solver.
  - rewrite IH, volumeStep_spec.
    destruct (volumeTarget v) as [wanted|]; [|naive_solver].
    rewrite elem_of_cons. case_decide.
    + rewrite elem_of_app, list_elem_of_singleton. naive_solver.
    + naive_solver.
Qed.

Lemma elem_of_env_fold es result x :
  x ∈ fold_left (envStep resources) es result ↔
  x ∈ result ∨ (x ∈ omap envTarget es ∧ x ∈ resourceName <$> resources).
Proof.
  revert result. induction es as [|e es IH]; intros result; simpl.
  - rewrite elem_of_nil. naive_solver.
  - rewrite IH, envStep_spec.
    destruct (envTarget e) as [wanted|]; [|naive_solver].
    rewrite elem_of_cons, pushIfNew_spec. case_decide.
    + rewrite elem_of_app, list_elem_of_singleton. naive_solver.
    + destruct (decide (x = wanted)) as [->|]; [|naive_solver].
      destruct (decide (wanted ∈ result)); naive_solver.
Qed.

Lemma elem_of_containers_fold cs result x :
  x ∈ fold_left (containerStep resources) cs result ↔
  x ∈ result ∨
  (x ∈ omap envTarget (mjoin ((λ c, default [] (env c)) <$> cs)) ∧
   x ∈ resourceName <$> resources).
Proof.
  revert result. induction cs as [|c cs IH]; intros result; simpl.
  - rewrite elem_of_nil. naive_solver.
  - rewrite IH. unfold containerStep.
    rewrite omap_app, elem_of_app.
    destruct (env c) as [entries|]; simpl.
    + rewrite elem_of_env_fold. naive_solver.
    + rewrite elem_of_nil. naive_solver.
Qed.

Lemma elem_of_findAssociatedResources pod x :
  x ∈ findAssociatedResources pod resources ↔
  x ∈ referencedNames pod ∧ x ∈ resourceName <$> resources.
Proof.
  unfold findAssociatedResources, referencedNames.
  rewrite elem_of_unique, elem_of_app.
  destruct (spec pod ≫= containers) as [cs|]; simpl.
  - rewrite elem_of_containers_fold.
    destruct (spec pod ≫= volumes) as [vs|]; simpl.
    + rewrite elem_of_volumes_fold, elem_of_nil. naive_solver.
    + rewrite !elem_of_nil. naive_solver.
  - destruct (spec pod ≫= volumes) as [vs|]; simpl.
    + rewrite elem_of_volumes_fold, !elem_of_nil. naive_solver.
    + rewrite !elem_of_nil. naive_solver.
Qed.

End Resources.

(** ** Services and ingresses *)

Section Services.
Import Js K8s Spec ServerActions.

Lemma serviceStep_spec podLabels result svc :
  serviceStep podLabels result svc
  = result ++ option_list (rendered podLabels svc).
Proof.
  unfold serviceStep, rendered, selectorMatches, formatService.
  destruct (serviceSpec svc) as [sp|]; simpl; [|by rewrite app_nil_r].
  destruct (selector sp) as [sel|]; simpl; [|by rewrite app_nil_r].
  case_bool_decide as Hall.
  - rewrite decide_True by done. by destruct (ports sp) as [[|p ps]|].
  - rewrite decide_False by done. by rewrite app_nil_r.
Qed.

Lemma services_fold podLabels services result :
  fold_left (serviceStep podLabels) services result
  = result ++ omap (rendered podLabels) services.
Proof.
  revert result. induction services as [|svc services IH]; intros result.
  - by rewrite app_nil_r.
  - simpl. rewrite IH, serviceStep_spec, <- app_assoc. f_equal.
    by destruct (rendered podLabels svc).
Qed.

Lemma findAssociatedServices_labelled pod podLabels services :
  metadata pod ≫= labels = Some podLabels →
  findAssociatedServices pod services = omap (rendered podLabels) services.
Proof.
  intros Hlabels. unfold findAssociatedServices. rewrite Hlabels.
  apply services_fold.
Qed.

Lemma rendered_Some podLabels svc s :
  rendered podLabels svc = Some s ↔
  ∃ sp sel, serviceSpec svc = Some sp ∧ selector sp = Some sel ∧
    (∀ key value, sel !! key = Some value → podLabels !! key = Some value) ∧
    s = formatService svc sp.
Proof.
  unfold rendered, formatService.
  destruct (serviceSpec svc) as [sp|]; simpl;
    [|split; [done | by intros (? & ? & [=] & _)]].
  destruct (selector sp) as [sel|] eqn:Hsel; simpl;
    [|split; [done | intros (? & ? & [= <-] & ? & _); congruence]].
  case_decide as Hall.
  - split.
    + intros [= <-]. exists sp, sel. do 3 (split; [done|]).
      by destruct (ports sp) as [[|p ps]|].
    + intros (? & ? & [= <-] & _ & _ & ->).
      by destruct (ports sp) as [[|p ps]|].
  - split; [done|]. intros (? & sel' & [= <-] & Hsel' & Hall' & _).
    destruct Hall. rewrite Hsel in Hsel'. by injection Hsel' as ->.
Qed.

(** *** Base names *)

Lemma splitChar_noColon a :
  noColon a = true → splitChar ":"%char a = [a].
Proof.
  induction a as [|c a IH]; [done|]. simpl. intros [Hc Ha]%andb_prop.
  apply negb_true_iff in Hc. by rewrite Hc, IH.
Qed.

Lemma splitChar_colon a b :
  noColon a = true →
  splitChar ":"%char (a +:+ String ":" b) = a :: splitChar ":"%char b.
Proof.
  induction a as [|c a IH]; [done|]. rewrite app_cons. simpl.
  intros [Hc Ha]%andb_prop. apply negb_true_iff in Hc.
  by rewrite Hc, IH.
Qed.

Lemma basename_plain a : noColon a = true → basename a = a.
Proof. intros Ha. unfold basename. by rewrite splitChar_noColon. Qed.

Lemma basename_ports a b :
  noColon a = true → basename (a +:+ ":" +:+ b) = a.
Proof.
  intros Ha. unfold basename.
  change (a +:+ ":" +:+ b) with (a +:+ String ":" b).
  by rewrite splitChar_colon.
Qed.

Lemma basename_rendered podLabels svc s :
  noColon (serviceName svc) = true →
  rendered podLabels svc = Some s → basename s = serviceName svc.
Proof.
  intros Hname (sp & sel & _ & _ & _ & ->)%rendered_Some.
  unfold formatService. destruct (ports sp) as [[|p ps]|];
    auto using basename_plain, basename_ports.
Qed.

(** *** Ingresses *)

Lemma pathStep_spec basenames rule result path :
  pathStep basenames rule result path
  = result ++
    match truthy (host rule) with
    | Some h =>
        option_list
          (wanted ← (backend path ≫= service) ≫=
                      (λ s, truthy (backendName s));
           if decide (wanted ∈ basenames) then Some h else None)
    | None => []
    end.
Proof.
  unfold pathStep, includes.
  destruct ((backend path ≫= service) ≫= _) as [wanted|].
  - change (Some wanted ≫= ?f) with (f wanted). cbv beta.
    destruct (truthy (host rule)) as [h|].
    + case_bool_decide as Hin.
      * by rewrite decide_True.
      * rewrite decide_False by done. by rewrite app_nil_r.
    + case_bool_decide; by rewrite app_nil_r.
  - destruct (truthy (host rule)); by rewrite app_nil_r.
Qed.

Lemma paths_fold basenames rule ps result :
  fold_left (pathStep basenames rule) ps result
  = result ++
    match truthy (host rule) with
    | Some h =>
        omap (λ path,
                wanted ← (backend path ≫= service) ≫=
                           (λ s, truthy (backendName s));
                if decide (wanted ∈ basenames) then Some h else None) ps
    | None => []
    end.
Proof.
  revert result. induction ps as [|path ps IH]; intros result.
  - simpl. destruct (truthy (host rule)); by rewrite app_nil_r.
  - cbn [fold_left]. rewrite IH, pathStep_spec, <- app_assoc. f_equal.
    destruct (truthy (host rule)) as [h|]; [|done].
    cbn [omap list_omap].
    by destruct (_ ≫= _).
Qed.

Lemma ruleStep_spec basenames result rule :
  ruleStep basenames result rule = result ++ ruleHosts basenames rule.
Proof.
  unfold ruleStep, ruleHosts.
  destruct (http rule ≫= paths) as [ps|]; simpl.
  - by rewrite paths_fold.
  - destruct (truthy (host rule)); by rewrite app_nil_r.
Qed.

Lemma rules_fold basenames rs result :
  fold_left (ruleStep basenames) rs result
  = result ++ (rs ≫= ruleHosts basenames).
Proof.
  revert result. induction rs as [|rule rs IH]; intros result.
  - by rewrite app_nil_r.
  - cbn [fold_left]. by rewrite IH, ruleStep_spec, <- app_assoc.
Qed.

Lemma ingressStep_spec basenames result ingress :
  ingressStep basenames result ingress
  = result ++ (ingressRules ingress ≫= ruleHosts basenames).
Proof.
  unfold ingressStep, ingressRules.
  destruct (ingressSpec ingress ≫= rules) as [rs|]; simpl.
  - by rewrite rules_fold.
  - by rewrite app_nil_r.
Qed.

Lemma ingresses_fold basenames ingresses result :
  fold_left (ingressStep basenames) ingresses result
  = result ++ (ingresses ≫= λ i, ingressRules i ≫= ruleHosts basenames).
Proof.
  revert result. induction ingresses as [|i ingresses IH]; intros result.
  - by rewrite app_nil_r.
  - cbn [fold_left]. by rewrite IH, ingressStep_spec, <- app_assoc.
Qed.

Lemma elem_of_ruleHosts basenames rule h :
  h ∈ ruleHosts basenames rule ↔
  ∃ path wanted,
    path ∈ default [] (http rule ≫= paths) ∧
    (backend path ≫= service) ≫= (λ s, truthy (backendName s)) = Some wanted ∧
    wanted ∈ basenames ∧ truthy (host rule) = Some h.
Proof.
  unfold ruleHosts. destruct (truthy (host rule)) as [h'|].
  - rewrite list_elem_of_omap. split.
    + intros (path & Hpath & Hsome). exists path.
      destruct ((backend path ≫= service) ≫= _) as [wanted|]; [|done].
      simpl in Hsome. case_decide; [|done]. injection Hsome as ->.
      by exists wanted.
    + intros (path & wanted & Hpath & Hwanted & Hin & [= ->]).
      exists path. split; [done|]. rewrite Hwanted. simpl.
      by rewrite decide_True.
  - rewrite elem_of_nil. naive_solver.
Qed.

End Services.

(** ** Totals *)

Section Totals.
Import Js K8s Spec Reading ServerActions.

Lemma reduce_fold {A} (f : A → JsNum) (l : list A) (start : JsNum) :
  reduce (λ sum x, add sum (f x)) start l = fold_left add (f <$> l) start.
Proof.
  unfold reduce. revert start.
  induction l as [|x l IH]; intros start; [done|].
  rewrite fmap_cons. cbn [fold_left]. apply IH.
Qed.

(** Adding [undefined] gives [NaN], as adding [NaN] does. *)
Lemma reduce_addValue {A} (g : A → option JsNum) (l : list A) start :
  reduce (λ sum x, addValue sum (g x)) start l
  = fold_left add ((λ x, default NaN (g x)) <$> l) start.
Proof.
  unfold reduce. revert start.
  induction l as [|x l IH]; intros start; [done|].
  rewrite fmap_cons. cbn [fold_left]. rewrite IH. f_equal.
  destruct (g x); [done|]. simpl. by rewrite add_NaN_r.
Qed.

Lemma aggregate_fold samples :
  aggregate samples
  = {| cpu := fold_left add (cpu <$> samples) (ofZ 0);
       memory := fold_left add (memory <$> samples) (ofZ 0) |}.
Proof.
  unfold aggregate. f_equal.
  - apply (reduce_fold cpu).
  - apply (reduce_fold memory).
Qed.

Lemma aggregate_pair a b :
  canonical (cpu a) → canonical (memory a) →
  aggregate [a; b]
  = {| cpu := add (cpu a) (cpu b); memory := add (memory a) (memory b) |}.
Proof.
  intros Hc Hm. unfold aggregate. cbn [fold_left]. by rewrite !add_0_l.
Qed.

(** A sum may be continued: what was summed so far counts as one
    quantity. *)
Lemma aggregate_continued a b c :
  aggregate [a; b; c] = aggregate [aggregate [a; b]; c].
Proof.
  unfold aggregate. cbn [fold_left cpu memory].
  by rewrite !(add_0_l (add _ _)) by apply add_canonical.
Qed.

(** Quantities of non-negative integers whose sums stay within [2^53]. *)
Lemma aggregate_precise (qs : list (Z * Z)) :
  Forall (λ q, 0 ≤ q.1 ∧ 0 ≤ q.2)%Z qs →
  (sumZ (fst <$> qs) ≤ 2 ^ 53)%Z → (sumZ (snd <$> qs) ≤ 2 ^ 53)%Z →
  aggregate ((λ q, {| cpu := ofZ q.1; memory := ofZ q.2 |}) <$> qs)
  = {| cpu := ofZ (sumZ (fst <$> qs)); memory := ofZ (sumZ (snd <$> qs)) |}.
Proof.
  intros Hqs Hcpu Hmem. rewrite aggregate_fold, <- !list_fmap_compose.
  f_equal.
  - transitivity (total (ofZ <$> (fst <$> qs))).
    { unfold total. f_equal. rewrite <- list_fmap_compose.
      by apply list_fmap_ext. }
    apply total_precise; [|done].
    apply Forall_fmap. eapply Forall_impl; [done|]. by intros q [? _].
  - transitivity (total (ofZ <$> (snd <$> qs))).
    { unfold total. f_equal. rewrite <- list_fmap_compose.
      by apply list_fmap_ext. }
    apply total_precise; [|done].
    apply Forall_fmap. eapply Forall_impl; [done|]. by intros q [_ ?].
Qed.

End Totals.

(** * Quantity normalisation *)

Section QuantityClaims.
Import Js Spec Decode.

(** C1, as stated, fails: a per-pod memory field with the suffix [Ki] is
    floored as well.  Both per-pod parsers decode ["1Ki"] to [0], not to
    [1/1024].  And not every integer is a number: the payload
    [9007199254742015], above [2^53], is read as [9007199254742016], so the
    field adds [8796093022209] to a namespace total where the integer
    quotient is [8796093022208]. *)
Lemma C1_per_pod_Ki_not_unfloored :
  memory <$> (ServerActions.parsePodMetrics "pod-a 1m 1Ki" !! "pod-a")
    = Some (ofZ 0) ∧
  memory <$> (NamespaceDetailsRoute.parsePodMetrics "pod-a 1m 1Ki" !! "pod-a")
    = Some (ofZ 0) ∧
  ofZ 0 ≠ div1024 (ofN 1) ∧
  integerValue
    (nsMemoryUsage
       (ServerActions.parseNamespaceMetrics "pod-a 1m 9007199254742015Ki"))
    = Some 8796093022209%Z ∧
  (9007199254742015 `div` 1024 = 8796093022208)%Z.
Proof. repeat split; by_evaluation. Qed.

(** C1, amended: for every non-negative integer [v] up to [2^53], a memory
    field ["vKi"] decodes to [floor(v / 1024)] in every parser: the two
    per-pod parsers store it as the pod's memory, the namespace and node
    parsers add it to their running total. *)
Theorem C1_Ki_floored_in_every_parser
    (v : N) (line podName cpuStr : string) (rest : list string) :
  precise (Z.of_N v) →
  partsOf line = podName :: cpuStr :: (pretty v +:+ "Ki") :: rest →
  let mebibytes := floor (div1024 (ofN v)) in
  mebibytes = ofN (v `div` 1024) ∧
  integerValue mebibytes = Some (Z.of_N (v `div` 1024)) ∧
  (∀ result,
     memory <$> (ServerActions.parsePodMetricsLine result line !! podName)
     = Some mebibytes) ∧
  (∀ result,
     memory <$> (NamespaceDetailsRoute.parsePodMetricsLine result line !! podName)
     = Some mebibytes) ∧
  (∀ acc,
     nsMemoryUsage (ServerActions.parseNamespaceMetricsLine acc line)
     = add (nsMemoryUsage acc) mebibytes) ∧
  (∀ acc,
     nodeMemoryUsage (ServerActions.parseNodeMetricsLine acc line)
     = add (nodeMemoryUsage acc) mebibytes) ∧
  (∀ acc,
     nodeMemoryUsage (ClusterInfoRoute.parseNodeMetricsLine acc line)
     = add (nodeMemoryUsage acc) mebibytes).
Proof.
  intros Hv Hparts mebibytes.
  assert (Hmem : memoryOf (pretty v +:+ "Ki") = Some mebibytes).
  { by rewrite memoryOf_Ki, parseInt_pretty. }
  assert (Hfloor : mebibytes = ofN (v `div` 1024)).
  { unfold mebibytes, ofN. by rewrite floor_div1024, N2Z.inj_div. }
  assert (Hquotient : precise (Z.of_N (v `div` 1024))).
  { unfold precise in *. rewrite N2Z.inj_div.
    assert (0 ≤ Z.of_N v `div` 1024 ≤ Z.of_N v)%Z; [|lia].
    split; [apply Z.div_pos; lia|]. apply Z.div_le_upper_bound; lia. }
  repeat split.
  - done.
  - rewrite Hfloor. by apply ofZ_precise.
  - intros result. erewrite pod_line_server by done. simpl. by rewrite Hmem.
  - intros result. erewrite pod_line_route by done. simpl.
    by rewrite (memoryOfCorrected_known _ _ Hmem).
  - intros acc. unfold ServerActions.parseNamespaceMetricsLine.
    rewrite Hparts. simpl. by rewrite Hmem.
  - intros acc. unfold ServerActions.parseNodeMetricsLine.
    rewrite Hparts. simpl. by rewrite Hmem.
  - intros acc. unfold ClusterInfoRoute.parseNodeMetricsLine.
    rewrite Hparts. simpl. by rewrite (memoryOfCorrected_known _ _ Hmem).
Qed.

Lemma C1_Ki_floored_witness :
  precise (Z.of_N 2049) ∧
  partsOf "pod-a 5m 2049Ki" = ["pod-a"; "5m"; pretty 2049%N +:+ "Ki"] ∧
  ∀ result,
    memory <$> (ServerActions.parsePodMetricsLine result "pod-a 5m 2049Ki"
                  !! "pod-a")
    = Some (floor (div1024 (ofN 2049))).
Proof.
  assert (Hv : precise (Z.of_N 2049)) by (unfold precise; simpl; lia).
  split; [done|]. split; [by vm_compute|].
  apply (C1_Ki_floored_in_every_parser 2049 "pod-a 5m 2049Ki" "pod-a" "5m" []
           Hv).
  by vm_compute.
Defined.

(** C3, at the failing input: the per-pod parser of [server-actions.ts]
    leaves the memory of a field without [Mi], [Gi] or [Ki] at [0], with or
    without a trailing [m], where the per-pod parser of the route reads it as
    bytes. *)
Theorem C3_server_actions_pod_parser_drops_bytes :
  memory <$> (ServerActions.parsePodMetrics "pod-a 5m 1048576" !! "pod-a")
    = Some (ofZ 0) ∧
  memory <$> (ServerActions.parsePodMetrics "pod-a 5m 1048576m" !! "pod-a")
    = Some (ofZ 0) ∧
  memory <$> (NamespaceDetailsRoute.parsePodMetrics "pod-a 5m 1048576" !! "pod-a")
    = Some (ofZ 1) ∧
  memory <$> (NamespaceDetailsRoute.parsePodMetrics "pod-a 5m 1048576m" !! "pod-a")
    = Some (ofZ 1).
Proof. repeat split; by_evaluation. Qed.

(** What C3 says holds of the per-pod parser of the route, for every field:
    without one of the three suffixes the field is a number of bytes, after
    a trailing [m] is dropped. *)
Lemma route_pod_parser_reads_bytes
    (line podName cpuStr memStr : string) (rest : list string) result :
  partsOf line = podName :: cpuStr :: memStr :: rest →
  endsWith memStr "Mi" = false → endsWith memStr "Gi" = false →
  endsWith memStr "Ki" = false →
  memory <$> (NamespaceDetailsRoute.parsePodMetricsLine result line !! podName)
  = Some (div1024 (div1024 (parseInt (if endsWith memStr "m"
                                      then dropLast 1 memStr
                                      else memStr)))).
Proof.
  intros Hparts HMi HGi HKi. erewrite pod_line_route by done. simpl.
  by rewrite memoryOfCorrected_bytes by (by apply memoryOf_None).
Qed.

(** The same field in the per-pod parser of [server-actions.ts]. *)
Lemma server_pod_parser_ignores_bytes
    (line podName cpuStr memStr : string) (rest : list string) result :
  partsOf line = podName :: cpuStr :: memStr :: rest →
  endsWith memStr "Mi" = false → endsWith memStr "Gi" = false →
  endsWith memStr "Ki" = false →
  memory <$> (ServerActions.parsePodMetricsLine result line !! podName)
  = Some (ofZ 0).
Proof.
  intros Hparts HMi HGi HKi. erewrite pod_line_server by done. simpl.
  by rewrite (proj2 (memoryOf_None memStr)).
Qed.

End QuantityClaims.

Section LeniencyClaims.
Import Js Spec Decode Examples.

(** C5, as stated, fails: unparseable numeric text decodes to [NaN], not to
    [0], and a total that includes such a line is [NaN]. *)
Lemma C5_unparseable_field_not_zero :
  cpu <$> (ServerActions.parsePodMetrics "pod-a abc 12Mi" !! "pod-a")
    = Some NaN ∧
  memory <$> (ServerActions.parsePodMetrics "pod-a 5m xMi" !! "pod-a")
    = Some NaN ∧
  nsCpuUsage (ServerActions.parseNamespaceMetrics twoLines) = NaN ∧
  nodeMemoryUsage (ServerActions.parseNodeMetrics twoLines) = NaN ∧
  NaN ≠ ofZ 0.
Proof. repeat split; by_evaluation. Qed.

(** C5, amended: no parser raises; on a line whose CPU field has no leading
    number the decoded CPU is [NaN], and so is every CPU total over a text
    that contains the line; the same holds of a memory field made of a text
    without leading number followed by [Mi], [Gi] or [Ki]. *)
Theorem C5_unparseable_field_is_NaN
    (text line podName cpuStr memStr : string) (rest : list string) :
  line ∈ linesOf text →
  partsOf line = podName :: cpuStr :: memStr :: rest →
  (parseInt (cpuPayload cpuStr) = NaN →
     (∀ result,
        cpu <$> (ServerActions.parsePodMetricsLine result line !! podName)
        = Some NaN) ∧
     (∀ result,
        cpu <$> (NamespaceDetailsRoute.parsePodMetricsLine result line !! podName)
        = Some NaN) ∧
     nsCpuUsage (ServerActions.parseNamespaceMetrics text) = NaN ∧
     nodeCpuUsage (ServerActions.parseNodeMetrics text) = NaN ∧
     nodeCpuUsage (ClusterInfoRoute.parseNodeMetrics text) = NaN) ∧
  (∀ payload suffix,
     memStr = payload +:+ suffix → suffix ∈ ["Mi"; "Gi"; "Ki"] →
     parseInt payload = NaN →
     (∀ result,
        memory <$> (ServerActions.parsePodMetricsLine result line !! podName)
        = Some NaN) ∧
     (∀ result,
        memory <$> (NamespaceDetailsRoute.parsePodMetricsLine result line !! podName)
        = Some NaN) ∧
     nsMemoryUsage (ServerActions.parseNamespaceMetrics text) = NaN ∧
     nodeMemoryUsage (ServerActions.parseNodeMetrics text) = NaN ∧
     nodeMemoryUsage (ClusterInfoRoute.parseNodeMetrics text) = NaN).
Proof.
  intros Hline Hparts. split.
  - intros Hcpu%cpuOf_unparseable. repeat split.
    + intros result. erewrite pod_line_server by done. simpl. by rewrite Hcpu.
    + intros result. erewrite pod_line_route by done. simpl. by rewrite Hcpu.
    + poisoned_total ServerActions.parseNamespaceMetricsLine nsCpuUsage
        line Hparts. by rewrite Hcpu, add_NaN_r.
    + poisoned_total ServerActions.parseNodeMetricsLine nodeCpuUsage
        line Hparts. by rewrite Hcpu, add_NaN_r.
    + poisoned_total ClusterInfoRoute.parseNodeMetricsLine nodeCpuUsage
        line Hparts. by rewrite Hcpu, add_NaN_r.
  - intros payload suffix -> Hsuffix Hpayload.
    assert (Hmem : memoryOf (payload +:+ suffix) = Some NaN).
    { apply list_elem_of_In in Hsuffix. simpl in Hsuffix.
      destruct Hsuffix as [<-|[<-|[<-|[]]]].
      - by rewrite memoryOf_Mi, Hpayload.
      - by rewrite memoryOf_Gi, Hpayload.
      - by rewrite memoryOf_Ki, Hpayload. }
    pose proof (memoryOfCorrected_known _ _ Hmem) as Hmem'.
    repeat split.
    + intros result. erewrite pod_line_server by done. simpl. by rewrite Hmem.
    + intros result. erewrite pod_line_route by done. simpl. by rewrite Hmem'.
    + poisoned_total ServerActions.parseNamespaceMetricsLine nsMemoryUsage
        line Hparts. by rewrite Hmem, add_NaN_r.
    + poisoned_total ServerActions.parseNodeMetricsLine nodeMemoryUsage
        line Hparts. by rewrite Hmem, add_NaN_r.
    + poisoned_total ClusterInfoRoute.parseNodeMetricsLine nodeMemoryUsage
        line Hparts. by rewrite Hmem', add_NaN_r.
Qed.

Lemma C5_unparseable_field_witness :
  "pod-a abc 12Mi" ∈ linesOf twoLines ∧
  partsOf "pod-a abc 12Mi" = ["pod-a"; "abc"; "12Mi"] ∧
  parseInt (cpuPayload "abc") = NaN ∧
  nsCpuUsage (ServerActions.parseNamespaceMetrics twoLines) = NaN.
Proof.
  assert (Hline : "pod-a abc 12Mi" ∈ linesOf twoLines) by (vm_compute; left).
  assert (Hparts : partsOf "pod-a abc 12Mi" = ["pod-a"; "abc"; "12Mi"])
    by (by vm_compute).
  assert (Hcpu : parseInt (cpuPayload "abc") = NaN) by (by vm_compute).
  split; [done|]. split; [done|]. split; [done|].
  destruct (C5_unparseable_field_is_NaN twoLines "pod-a abc 12Mi" "pod-a"
              "abc" "12Mi" [] Hline Hparts) as [Hfield _].
  by destruct (Hfield Hcpu) as (_ & _ & Hns & _).
Defined.




End LeniencyClaims.

(** * Association of configuration and storage objects *)

Section ResourceClaims.
Import Js K8s Spec Examples.

(** C4, as stated, fails: the resolver takes no kind.  Against one catalog
    that holds the storage claims and the config map it returns both names,
    and a storage-claim volume resolves against a catalog of config maps
    that happens to hold the same name. *)
Lemma C4_no_filter_by_kind :
  ServerActions.findAssociatedResources webPod [data1; appConfig; data2]
    = ["data-1"; "app-config"] ∧
  ServerActions.findAssociatedResources webPod [data1; appConfig; data2]
    ≠ ["data-1"] ∧
  ServerActions.findAssociatedResources
    (podOf None [pvcVolume "app-config"] []) [appConfig]
    = ["app-config"].
Proof. repeat split; by_evaluation. Qed.

(** C4, amended: against the listing of the storage claims, [data-1] and
    [data-2], the pod resolves to exactly [data-1]; against the listing of
    the config maps, [app-config], to exactly [app-config].  In general a
    name is returned exactly when the pod refers to it and the listing handed
    in holds it: the kind is the caller's choice of listing. *)
Theorem C4_resolution_by_name_in_listing :
  ServerActions.findAssociatedResources webPod [data1; data2] = ["data-1"] ∧
  ServerActions.findAssociatedResources webPod [appConfig] = ["app-config"] ∧
  NamespaceDetailsRoute.findAssociatedResources webPod [data1; data2]
    = ["data-1"] ∧
  NamespaceDetailsRoute.findAssociatedResources webPod [appConfig]
    = ["app-config"] ∧
  ∀ pod resources name,
    name ∈ ServerActions.findAssociatedResources pod resources ↔
    name ∈ referencedNames pod ∧ name ∈ resourceName <$> resources.
Proof.
  do 4 (split; [by_evaluation|]).
  intros pod resources name. apply elem_of_findAssociatedResources.
Qed.

(** C8: a volume or an environment entry that names an object absent from
    the catalog is passed over: the result is the one of the pod without
    that reference.  The resolver is a total function; nothing is raised. *)
Theorem C8_dangling_reference_omitted
    (resources : list Resource) (meta : option PodMeta) (wanted : string) :
  wanted ∉ resourceName <$> resources →
  (∀ before v after cs,
     volumeTarget v = Some wanted →
     ServerActions.findAssociatedResources
       {| metadata := meta;
          spec := Some {| volumes := Some (before ++ v :: after);
                          containers := cs |} |} resources
     = ServerActions.findAssociatedResources
         {| metadata := meta;
            spec := Some {| volumes := Some (before ++ after);
                            containers := cs |} |} resources) ∧
  (∀ vs csBefore before e after csAfter,
     envTarget e = Some wanted →
     ServerActions.findAssociatedResources
       {| metadata := meta;
          spec := Some {| volumes := vs;
                          containers :=
                            Some (csBefore ++
                                  {| env := Some (before ++ e :: after) |}
                                  :: csAfter) |} |} resources
     = ServerActions.findAssociatedResources
         {| metadata := meta;
            spec := Some {| volumes := vs;
                            containers :=
                              Some (csBefore ++
                                    {| env := Some (before ++ after) |}
                                    :: csAfter) |} |} resources).
Proof.
  intros Hnot. split.
  - intros before v after cs Hv. unfold ServerActions.findAssociatedResources.
    simpl. rewrite !fold_left_app. simpl.
    by rewrite (volumeStep_dangling _ _ _ _ Hv Hnot).
  - intros vs csBefore before e after csAfter He.
    unfold ServerActions.findAssociatedResources. simpl.
    rewrite !fold_left_app. simpl.
    by rewrite (containerStep_dangling _ _ _ _ _ _ He Hnot).
Qed.

Lemma C8_dangling_reference_witness :
  ("gone" ∉ resourceName <$> [data1; data2]) ∧
  (ServerActions.findAssociatedResources
     (podOf None [pvcVolume "gone"; pvcVolume "data-1"] []) [data1; data2]
   = ServerActions.findAssociatedResources
       (podOf None [pvcVolume "data-1"] []) [data1; data2]).
Proof.
  assert (Hnot : "gone" ∉ resourceName <$> [data1; data2])
    by (by apply (bool_decide_eq_true_1 _)).
  split; [done|].
  apply (proj1 (C8_dangling_reference_omitted [data1; data2]
                  (Some {| podName := "web-1"; labels := None |}) "gone" Hnot)
           [] (pvcVolume "gone") [pvcVolume "data-1"]).
  reflexivity.
Defined.

End ResourceClaims.

(** * Association of services and ingresses *)

Section ServiceClaims.
Import Js K8s Spec Examples.

(** C2, as stated, fails: a selector that is present but empty is satisfied
    by every labelled pod, and its service is listed. *)
Lemma C2_empty_selector_matches :
  ServerActions.findAssociatedServices webPod [serviceOf "plain" (Some ∅) []]
    = ["plain"] ∧
  NamespaceDetailsRoute.findAssociatedServices webPod
    [serviceOf "plain" (Some ∅) []]
    = ["plain"].
Proof. split; by_evaluation. Qed.

(** C2, amended: a service is listed for a pod exactly when the pod has a
    label set, the service has a selector and every key of the selector is
    in the label set with an equal value.  A service without selector is
    never listed; a service whose selector is present but empty is listed
    for every pod that has a label set. *)
Theorem C2_service_listed_iff_selector_included :
  (∀ (pod : PodObject) (services : list Service) (s : string),
     s ∈ ServerActions.findAssociatedServices pod services ↔
     ∃ podLabels svc sp sel,
       metadata pod ≫= labels = Some podLabels ∧
       svc ∈ services ∧
       serviceSpec svc = Some sp ∧
       selector sp = Some sel ∧
       (∀ key value,
          sel !! key = Some value → podLabels !! key = Some value) ∧
       s = ServerActions.formatService svc sp) ∧
  (∀ (podLabels : gmap string string) (name : string),
     ServerActions.findAssociatedServices (podOf (Some podLabels) [] [])
       [serviceOf name (Some ∅) []] = [name]) ∧
  (∀ (pod : PodObject) (name : string) (ps : list N),
     ServerActions.findAssociatedServices pod [serviceOf name None ps] = []).
Proof.
  split; [|split].
  - intros pod services s. unfold ServerActions.findAssociatedServices.
    destruct (metadata pod ≫= labels) as [podLabels|].
    + rewrite services_fold, app_nil_l, list_elem_of_omap. split.
      * intros (svc & Hsvc & (sp & sel & ? & ? & ? & ?)%rendered_Some).
        by exists podLabels, svc, sp, sel.
      * intros (? & svc & sp & sel & [= <-] & Hsvc & Hsp & Hsel & Hall & ->).
        exists svc. split; [done|]. apply rendered_Some. by exists sp, sel.
    + rewrite elem_of_nil. split; [done|].
      by intros (? & ? & ? & ? & [=] & _).
  - intros podLabels name.
    erewrite findAssociatedServices_labelled by done. simpl.
    unfold rendered. simpl. rewrite decide_True; [done|].
    apply map_Forall_empty.
  - intros pod name ps. unfold ServerActions.findAssociatedServices.
    by destruct (metadata pod ≫= labels).
Qed.

(** C7: the services of a pod are listed in catalog order, each matching one
    as its name, followed by [:] and its ports joined by commas when it has
    ports; cutting every entry at its first [:] gives back the names of the
    matching services, whatever follows the colon; a host is returned
    exactly when a path of one of its rules has a backend service among
    these names and the rule has a host; no host is returned twice. *)
Theorem C7_services_rendered_ingresses_resolved
    (pod : PodObject) (podLabels : gmap string string)
    (services : list Service) (ingresses : list Ingress) :
  metadata pod ≫= labels = Some podLabels →
  Forall (λ svc, noColon (serviceName svc) = true) services →
  let names := ServerActions.findAssociatedServices pod services in
  let hosts := ServerActions.findAssociatedIngresses names ingresses in
  names = omap (rendered podLabels) services ∧
  (∀ svc sp,
     ports sp = None ∨ ports sp = Some [] →
     ServerActions.formatService svc sp = serviceName svc) ∧
  (∀ svc sp p ps,
     ports sp = Some (p :: ps) →
     ServerActions.formatService svc sp
     = serviceName svc +:+ ":" +:+
       join "," ((λ q, pretty (port q)) <$> p :: ps)) ∧
  ServerActions.basename <$> names
    = omap (λ svc, rendered podLabels svc ≫= λ _, Some (serviceName svc))
        services ∧
  (∀ name suffix,
     noColon name = true →
     ServerActions.basename (name +:+ ":" +:+ suffix) = name) ∧
  hosts = unique (ingresses ≫= λ i,
            ingressRules i ≫= ruleHosts (ServerActions.basename <$> names)) ∧
  NoDup hosts ∧
  ∀ h, h ∈ hosts ↔
       ∃ ingress rule path wanted,
         ingress ∈ ingresses ∧
         rule ∈ ingressRules ingress ∧
         path ∈ default [] (http rule ≫= paths) ∧
         (backend path ≫= service) ≫= (λ s, truthy (backendName s))
           = Some wanted ∧
         wanted ∈ ServerActions.basename <$> names ∧
         truthy (host rule) = Some h.
Proof.
  intros Hlabels Hnames names hosts.
  assert (Hhosts : hosts = unique (ingresses ≫= λ i,
            ingressRules i ≫= ruleHosts (ServerActions.basename <$> names))).
  { unfold hosts, ServerActions.findAssociatedIngresses.
    by rewrite ingresses_fold. }
  split; [by apply findAssociatedServices_labelled|].
  split.
  { intros svc sp [Hports|Hports]; unfold ServerActions.formatService;
      by rewrite Hports. }
  split.
  { intros svc sp p ps Hports. unfold ServerActions.formatService.
    by rewrite Hports. }
  split.
  { unfold names. rewrite (findAssociatedServices_labelled _ _ _ Hlabels).
    clear names hosts Hhosts. induction Hnames as [|svc services Hsvc _ IH].
    - done.
    - simpl. destruct (rendered podLabels svc) as [s|] eqn:E; simpl.
      + f_equal; [by eapply basename_rendered | apply IH].
      + apply IH. }
  split; [by intros; apply basename_ports|].
  split; [done|].
  split; [rewrite Hhosts; apply NoDup_unique|].
  intros h. rewrite Hhosts, elem_of_unique, list_elem_of_bind. split.
  - intros (ingress & (rule & Hh & Hrule)%list_elem_of_bind & Hingress).
    apply elem_of_ruleHosts in Hh as (path & wanted & ? & ? & ? & ?).
    by exists ingress, rule, path, wanted.
  - intros (ingress & rule & path & wanted & ? & ? & ? & ? & ? & ?).
    exists ingress. split; [|done]. apply list_elem_of_bind.
    exists rule. split; [|done]. apply elem_of_ruleHosts.
    by exists path, wanted.
Qed.

Lemma C7_services_rendered_witness :
  metadata webPod ≫= labels = Some {[ "app" := "web"; "tier" := "frontend" ]} ∧
  ServerActions.findAssociatedServices webPod
    [serviceOf "svc1" (Some {[ "app" := "web" ]}) [80%N; 443%N];
     serviceOf "svc2" (Some {[ "app" := "web"; "tier" := "backend" ]}) []]
    = ["svc1:80,443"] ∧
  ServerActions.findAssociatedIngresses ["svc1:80,443"]
    [ingressOf (Some "example.com") "svc1"; ingressOf None "svc1";
     ingressOf (Some "other.org") "svc2"; ingressOf (Some "example.com") "svc1"]
    = ["example.com"] ∧
  NoDup (ServerActions.findAssociatedIngresses
           (ServerActions.findAssociatedServices webPod
              [serviceOf "svc1" (Some {[ "app" := "web" ]}) [80%N; 443%N]])
           [ingressOf (Some "example.com") "svc1"]).
Proof.
  split; [reflexivity|]. split; [by_evaluation|]. split; [by_evaluation|].
  apply (C7_services_rendered_ingresses_resolved webPod
           {[ "app" := "web"; "tier" := "frontend" ]}
           [serviceOf "svc1" (Some {[ "app" := "web" ]}) [80%N; 443%N]]
           [ingressOf (Some "example.com") "svc1"]).
  - reflexivity.
  - repeat constructor.
Defined.

End ServiceClaims.

(** * The namespace record *)

Section NamespaceClaims.
Import Js K8s Spec Examples MoreExamples.

(** C9, as stated, fails: the sum of numbers depends on their order and on
    their grouping.  With the usages [2^53], [1] and [1] the sum is [2^53]
    in this order and [2^53 + 2] with the large one last or with the two
    small ones added first; the CPU total of a namespace whose pods have
    these usages is [2^53], not their sum. *)
Lemma C9_sum_depends_on_order :
  integerValue
    (cpu (aggregate [ {| cpu := ofZ 9007199254740992; memory := ofZ 0 |};
                      {| cpu := ofZ 1; memory := ofZ 0 |};
                      {| cpu := ofZ 1; memory := ofZ 0 |} ]))
    = Some 9007199254740992%Z ∧
  integerValue
    (cpu (aggregate [ {| cpu := ofZ 1; memory := ofZ 0 |};
                      {| cpu := ofZ 1; memory := ofZ 0 |};
                      {| cpu := ofZ 9007199254740992; memory := ofZ 0 |} ]))
    = Some 9007199254740994%Z ∧
  integerValue
    (cpu (aggregate
            [ {| cpu := ofZ 9007199254740992; memory := ofZ 0 |};
              aggregate [ {| cpu := ofZ 1; memory := ofZ 0 |};
                          {| cpu := ofZ 1; memory := ofZ 0 |} ] ]))
    = Some 9007199254740994%Z ∧
  (Namespace.cpuUsage <$>
     ServerActions.getNamespaceDetails "default" (Some unevenPods)
       [barePod "a"; barePod "b"; barePod "c"] [] [] [] [] [])
    = Some (ofZ 9007199254740992) ∧
  (Namespace.cpuUsage <$>
     NamespaceDetailsRoute.POST "default" (Some unevenPods)
       [barePod "a"; barePod "b"; barePod "c"] [] [] [] [] [])
    = Some (ofZ 9007199254740992) ∧
  (9007199254740992 + 1 + 1 = 9007199254740994)%Z.
Proof. repeat split; by_evaluation. Qed.

(** C9, amended: the sum of quantities is the sum of the fields, taken from
    the first to the last.  The empty sum is [(0, 0)]; two quantities may be
    swapped; a sum may be continued, [aggregate [a; b; c]] being
    [aggregate [aggregate [a; b]; c]]; for quantities of non-negative
    integers whose sums stay within [2^53] it is the sum of the integers,
    whatever their order; and the totals of a namespace are the sum of the
    quantities of its pods in the order of the listing. *)
Theorem C9_aggregation_is_field_wise_sum
    (a b c : Metrics) (qs qs' : list (Z * Z))
    (namespaceName : string) (podMetricsMap : gmap string Metrics)
    (items : list PodObject) (pvcs configMaps secrets : list Resource)
    (services : list Service) (ingresses : list Ingress) (ns : Namespace.t) :
  canonical (cpu a) → canonical (memory a) →
  canonical (cpu b) → canonical (memory b) →
  Forall (λ q, 0 ≤ q.1 ∧ 0 ≤ q.2)%Z qs →
  (sumZ (fst <$> qs) ≤ 2 ^ 53)%Z → (sumZ (snd <$> qs) ≤ 2 ^ 53)%Z →
  qs ≡ₚ qs' →
  ServerActions.namespaceOf namespaceName podMetricsMap items pvcs configMaps
    secrets services ingresses = Some ns →
  aggregate [] = {| cpu := ofZ 0; memory := ofZ 0 |} ∧
  aggregate [a; b]
    = {| cpu := add (cpu a) (cpu b); memory := add (memory a) (memory b) |} ∧
  aggregate [a; b] = aggregate [b; a] ∧
  aggregate [a; b; c] = aggregate [aggregate [a; b]; c] ∧
  aggregate ((λ q, {| cpu := ofZ q.1; memory := ofZ q.2 |}) <$> qs)
    = {| cpu := ofZ (sumZ (fst <$> qs)); memory := ofZ (sumZ (snd <$> qs)) |} ∧
  aggregate ((λ q, {| cpu := ofZ q.1; memory := ofZ q.2 |}) <$> qs)
    = aggregate ((λ q, {| cpu := ofZ q.1; memory := ofZ q.2 |}) <$> qs') ∧
  {| cpu := Namespace.cpuUsage ns; memory := Namespace.memoryUsage ns |}
    = aggregate (quantityOf <$> Namespace.pods ns).
Proof.
  intros Hca Hma Hcb Hmb Hqs Hcpu Hmem Hperm Hns.
  split; [done|]. split; [by apply aggregate_pair|].
  split; [by rewrite !aggregate_pair, (add_comm (cpu a)),
            (add_comm (memory a))|].
  split; [apply aggregate_continued|].
  split; [by apply aggregate_precise|]. split.
  - rewrite !aggregate_precise; try done.
    + by rewrite (sumZ_perm _ _ (fmap_Permutation fst _ _ Hperm)),
        (sumZ_perm _ _ (fmap_Permutation snd _ _ Hperm)).
    + by rewrite <- Hperm.
    + by rewrite <- (sumZ_perm _ _ (fmap_Permutation fst _ _ Hperm)).
    + by rewrite <- (sumZ_perm _ _ (fmap_Permutation snd _ _ Hperm)).
  - unfold ServerActions.namespaceOf in Hns.
    destruct (mapM _ items) as [pods|]; [|done]. injection Hns as <-.
    cbn [Namespace.cpuUsage Namespace.memoryUsage Namespace.pods].
    rewrite aggregate_fold, !reduce_addValue, <- !list_fmap_compose. done.
Qed.

Lemma C9_aggregation_witness :
  ∃ ns,
    ServerActions.namespaceOf "default"
      (ServerActions.parsePodMetrics twoPods)
      [barePod "web-1"; barePod "db-1"] [] [] [] [] [] = Some ns ∧
    Namespace.cpuUsage ns = ofZ 1250 ∧
    Namespace.memoryUsage ns = ofZ 1088 ∧
    {| cpu := Namespace.cpuUsage ns; memory := Namespace.memoryUsage ns |}
      = aggregate (quantityOf <$> Namespace.pods ns) ∧
    aggregate ((λ q, {| cpu := ofZ q.1; memory := ofZ q.2 |})
                 <$> [(250, 64); (1000, 1024)]%Z)
      = aggregate ((λ q, {| cpu := ofZ q.1; memory := ofZ q.2 |})
                     <$> [(1000, 1024); (250, 64)]%Z).
Proof.
  destruct (ServerActions.namespaceOf "default"
              (ServerActions.parsePodMetrics twoPods)
              [barePod "web-1"; barePod "db-1"] [] [] [] [] [])
    as [ns|] eqn:Hns; [|by vm_compute in Hns].
  exists ns. split; [done|].
  assert (Hcpu : Namespace.cpuUsage ns = ofZ 1250).
  { vm_compute in Hns. injection Hns as <-. reflexivity. }
  assert (Hmem : Namespace.memoryUsage ns = ofZ 1088).
  { vm_compute in Hns. injection Hns as <-. reflexivity. }
  split; [done|]. split; [done|].
  assert (Hqs : Forall (λ q : Z * Z, 0 ≤ q.1 ∧ 0 ≤ q.2)%Z
                  [(250, 64); (1000, 1024)]%Z).
  { repeat constructor; simpl; lia. }
  destruct (C9_aggregation_is_field_wise_sum
              {| cpu := ofZ 1; memory := ofZ 2 |}
              {| cpu := ofZ 3; memory := ofZ 4 |}
              {| cpu := ofZ 5; memory := ofZ 6 |}
              [(250, 64); (1000, 1024)]%Z [(1000, 1024); (250, 64)]%Z
              "default" (ServerActions.parsePodMetrics twoPods)
              [barePod "web-1"; barePod "db-1"] [] [] [] [] [] ns
              eq_refl eq_refl eq_refl eq_refl Hqs
              ltac:(simpl; lia) ltac:(simpl; lia)
              (Permutation_swap _ _ _) Hns)
    as (_ & _ & _ & _ & _ & Horder & Htotals).
  by split.
Defined.

(** C10, at the failing input: a listed pod named [constructor] without a
    line in the metrics text.  The name is not in the metrics map, yet
    reading it finds the function every object inherits under that name,
    so the default [{ cpu: 0, memory: 0 }] is not taken: the record has
    neither CPU nor memory usage, where [Pod] of [types.ts] declares
    numbers, and both totals of the namespace are [NaN].  A pod named
    [web-1] in the same listing gets [0] and [0]. *)
Theorem C10_pod_named_constructor_has_no_usage :
  ServerActions.parsePodMetrics "other-pod 5m 12Mi" !! "constructor" = None ∧
  ServerActions.getNamespaceDetails "default" (Some "other-pod 5m 12Mi")
    [barePod "web-1"; barePod "constructor"] [] [] [] [] []
  = Some {| Namespace.id := "default";
            Namespace.name := "default";
            Namespace.podCount := 2;
            Namespace.cpuUsage := NaN;
            Namespace.memoryUsage := NaN;
            Namespace.pods :=
              [ {| Pod.id := "web-1"; Pod.name := "web-1";
                   Pod.cpuUsage := Some (ofZ 0);
                   Pod.memoryUsage := Some (ofZ 0);
                   Pod.pvcs := []; Pod.configMaps := []; Pod.secrets := [];
                   Pod.services := []; Pod.ingresses := [] |};
                {| Pod.id := "constructor"; Pod.name := "constructor";
                   Pod.cpuUsage := None; Pod.memoryUsage := None;
                   Pod.pvcs := []; Pod.configMaps := []; Pod.secrets := [];
                   Pod.services := []; Pod.ingresses := [] |} ] |} ∧
  NamespaceDetailsRoute.POST "default" (Some "other-pod 5m 12Mi")
    [barePod "web-1"; barePod "constructor"] [] [] [] [] []
  = ServerActions.getNamespaceDetails "default" (Some "other-pod 5m 12Mi")
      [barePod "web-1"; barePod "constructor"] [] [] [] [] [].
Proof. repeat split; by_evaluation. Qed.

End NamespaceClaims.

(** * Further properties of the code *)

(** ** A text is read line by line *)

Section Reading.
Import Js Spec Decode Reading.

Lemma server_line_step result line :
  ServerActions.parsePodMetricsLine result line
  = match fieldsOf line with
    | Some sample => <[sample.1.1 := serverMetrics sample]> result
    | None => result
    end.
Proof.
  unfold ServerActions.parsePodMetricsLine, fieldsOf.
  by destruct (partsOf line) as [|name [|cpuStr [|memStr rest]]].
Qed.

Lemma route_line_step result line :
  NamespaceDetailsRoute.parsePodMetricsLine result line
  = match fieldsOf line with
    | Some sample => <[sample.1.1 := routeMetrics sample]> result
    | None => result
    end.
Proof.
  unfold NamespaceDetailsRoute.parsePodMetricsLine, fieldsOf.
  by destruct (partsOf line) as [|name [|cpuStr [|memStr rest]]].
Qed.

Lemma fieldsOf_Some line name cpuStr memStr :
  fieldsOf line = Some (name, cpuStr, memStr) ↔
  ∃ rest, partsOf line = name :: cpuStr :: memStr :: rest.
Proof.
  unfold fieldsOf. destruct (partsOf line) as [|a [|b [|c rest]]]; split;
    try done; try (by intros [? [=]]).
  - intros [= -> -> ->]. by exists rest.
  - by intros [? [= -> -> -> _]].
Qed.

(** The map built by inserting the readings of the samples in order. *)
Section Inserting.
Context (reading : string * string * string → Metrics).

Lemma insertSample_fold_is_Some lines result name :
  is_Some (fold_left (insertSample reading) lines result !! name) ↔
  is_Some (result !! name) ∨
  ∃ line sample, line ∈ lines ∧ fieldsOf line = Some sample ∧
                 sample.1.1 = name.
Proof.
  revert result. induction lines as [|line lines IH]; intros result.
  - simpl. split; [by left|]. intros [?|(? & ? & []%elem_of_nil & _)]. done.
  - cbn [fold_left]. rewrite IH. unfold insertSample. split.
    + intros [Hsome|(l & sample & Hl & Hfields & Hname)].
      * destruct (fieldsOf line) as [sample|] eqn:E; [|by left].
        destruct (decide (sample.1.1 = name)) as [Heq|Hne].
        -- right. exists line, sample. split; [left|done].
        -- left. by rewrite lookup_insert_ne in Hsome.
      * right. exists l, sample. split; [by right|done].
    + intros [Hsome|(l & sample & Hl & Hfields & Hname)].
      * left. destruct (fieldsOf line) as [sample|]; [|done].
        destruct (decide (sample.1.1 = name)) as [<-|Hne].
        -- rewrite lookup_insert_eq. by eexists.
        -- by rewrite lookup_insert_ne.
      * apply elem_of_cons in Hl as [->|Hl].
        -- left. rewrite Hfields, <- Hname, lookup_insert_eq. by eexists.
        -- right. by exists l, sample.
Qed.

Lemma insertSample_fold_untouched lines result name :
  (∀ line sample, line ∈ lines → fieldsOf line = Some sample →
                  sample.1.1 ≠ name) →
  fold_left (insertSample reading) lines result !! name = result !! name.
Proof.
  revert result. induction lines as [|line lines IH]; intros result Hother;
    [done|].
  cbn [fold_left]. rewrite IH.
  - unfold insertSample. destruct (fieldsOf line) as [sample|] eqn:E; [|done].
    apply lookup_insert_ne. eapply Hother; [left|done].
  - intros l sample Hl. apply Hother. by right.
Qed.

Lemma insertSample_fold_last before line after sample result :
  fieldsOf line = Some sample →
  (∀ l s, l ∈ after → fieldsOf l = Some s → s.1.1 ≠ sample.1.1) →
  fold_left (insertSample reading) (before ++ line :: after) result !! sample.1.1
  = Some (reading sample).
Proof.
  intros Hline Hafter. rewrite fold_left_app. cbn [fold_left].
  rewrite insertSample_fold_untouched by done.
  unfold insertSample. rewrite Hline. apply lookup_insert_eq.
Qed.

Lemma insertSample_fold_filter lines result :
  fold_left (insertSample reading) lines result
  = fold_left (insertSample reading)
      (filter (λ line, is_Some (fieldsOf line)) lines) result.
Proof.
  revert result. induction lines as [|line lines IH]; intros result; [done|].
  cbn [fold_left]. rewrite IH.
  destruct (fieldsOf line) as [sample|] eqn:E.
  - by rewrite filter_cons_True by (by rewrite E).
  - rewrite filter_cons_False by (rewrite E; by intros [? ?]).
    f_equal. unfold insertSample. by rewrite E.
Qed.

End Inserting.

Lemma parsePodMetrics_server_fold text :
  ServerActions.parsePodMetrics text
  = fold_left (insertSample serverMetrics) (linesOf text) ∅.
Proof.
  unfold ServerActions.parsePodMetrics. generalize (∅ : gmap string Metrics).
  induction (linesOf text) as [|line lines IH]; intros result; [done|].
  cbn [fold_left]. by rewrite IH, server_line_step.
Qed.

Lemma parsePodMetrics_route_fold text :
  NamespaceDetailsRoute.parsePodMetrics text
  = fold_left (insertSample routeMetrics) (linesOf text) ∅.
Proof.
  unfold NamespaceDetailsRoute.parsePodMetrics.
  generalize (∅ : gmap string Metrics).
  induction (linesOf text) as [|line lines IH]; intros result; [done|].
  cbn [fold_left]. by rewrite IH, route_line_step.
Qed.

End Reading.

(** ** The parts of a line *)

Section Parts.
Import Js Spec Decode Reading.

Lemma trimEnd_cons c s :
  trimEnd (String c s)
  = match trimEnd s with
    | "" => if isSpace c then "" else String c ""
    | t => String c t
    end.
Proof. reflexivity. Qed.

Lemma trimEnd_idem s : trimEnd (trimEnd s) = trimEnd s.
Proof.
  induction s as [|c s IH]; [done|]. rewrite trimEnd_cons.
  destruct (trimEnd s) as [|d t] eqn:E.
  - destruct (isSpace c) eqn:Hc; [done|]. rewrite trimEnd_cons. simpl.
    by rewrite Hc.
  - by rewrite (trimEnd_cons c (String d t)), IH.
Qed.

Lemma trimStart_head s :
  trimStart s = "" ∨ ∃ c r, trimStart s = String c r ∧ isSpace c = false.
Proof.
  induction s as [|c s IH]; [by left|]. simpl.
  destruct (isSpace c) eqn:Hc; [done|]. right. by exists c, s.
Qed.

Lemma trimEnd_head c r :
  isSpace c = false → ∃ r', trimEnd (String c r) = String c r'.
Proof.
  intros Hc. rewrite trimEnd_cons. destruct (trimEnd r).
  - rewrite Hc. by eexists.
  - by eexists.
Qed.

(** A trimmed text is empty, or starts with ink and has no white space at
    its end. *)
Lemma trim_shape s :
  trim s = "" ∨
  ∃ c r, trim s = String c r ∧ isSpace c = false ∧ trimEnd (trim s) = trim s.
Proof.
  unfold trim. destruct (trimStart_head s) as [->|(c & r & -> & Hc)];
    [by left|].
  right. destruct (trimEnd_head c r Hc) as [r' Hr'].
  exists c, r'. by rewrite trimEnd_idem.
Qed.

Lemma splitSpaces_cons inRun c s :
  splitSpaces inRun (String c s)
  = if isSpace c
    then (if inRun then splitSpaces true s else "" :: splitSpaces true s)
    else consHead c (splitSpaces false s).
Proof. reflexivity. Qed.

Lemma splitSpaces_noSpace inRun s :
  Forall (λ part, noSpace part = true) (splitSpaces inRun s).
Proof.
  revert inRun. induction s as [|c s IH]; intros inRun.
  - by repeat constructor.
  - rewrite splitSpaces_cons. destruct (isSpace c) eqn:Hc.
    + destruct inRun; [apply IH|]. constructor; [done | apply IH].
    + specialize (IH false). destruct (splitSpaces false s) as [|h t].
      * repeat constructor. simpl. by rewrite Hc.
      * inversion IH; subst. constructor; [|done]. simpl. by rewrite Hc.
  Qed.

(** Only the first part of a text without white space at its end can be
    empty, and only when the text starts with white space outside a run. *)
Lemma splitSpaces_nonempty s :
  trimEnd s = s → s ≠ "" →
  ∀ inRun, ∃ h t,
    splitSpaces inRun s = h :: t ∧
    Forall (λ part, part ≠ "") t ∧
    (h = "" → inRun = false ∧ ∃ c r, s = String c r ∧ isSpace c = true).
Proof.
  induction s as [|c s IH]; [done|]. intros Htrim _ inRun.
  rewrite trimEnd_cons in Htrim.
  assert (Htail : s = "" ∧ isSpace c = false ∨ s ≠ "" ∧ trimEnd s = s).
  { destruct (trimEnd s) as [|d t] eqn:E.
    - destruct (isSpace c); [done|]. injection Htrim as <-. by left.
    - injection Htrim as <-. by right. }
  rewrite splitSpaces_cons.
  destruct Htail as [[-> Hc]|[Hne Hs]].
  - rewrite Hc. simpl. exists (String c ""), []. by repeat split.
  - destruct (isSpace c) eqn:Hc.
    + destruct (IH Hs Hne true) as (h & t & Heq & Ht & Hh).
      assert (h ≠ "") by (intros ->; by destruct Hh).
      destruct inRun.
      * exists h, t. split; [done|]. split; [done|]. by intros ->.
      * exists "", (h :: t). rewrite Heq. split; [done|].
        split; [by constructor|]. intros _. split; [done|]. by exists c, s.
    + destruct (IH Hs Hne false) as (h & t & Heq & Ht & _).
      rewrite Heq. simpl. exists (String c h), t. by repeat split.
Qed.

(** The parts of a line are tokens, unless the line is blank. *)
Lemma partsOf_tokens line :
  partsOf line = [""] ∨ Forall (λ part, isToken part = true) (partsOf line).
Proof.
  unfold partsOf.
  destruct (trim_shape line) as [->|(c & r & Heq & Hc & Htrim)]; [by left|].
  right. pose proof (splitSpaces_noSpace false (trim line)) as Hink.
  destruct (splitSpaces_nonempty (trim line) Htrim) with (inRun := false)
    as (h & t & Hparts & Ht & Hh); [by rewrite Heq|].
  rewrite Hparts in Hink |- *.
  assert (Hhead : h ≠ "").
  { intros ->. destruct Hh as (_ & c' & r' & Heq' & Hc'); [done|].
    rewrite Heq in Heq'. injection Heq' as -> ->. congruence. }
  inversion Hink as [|? ? Hh' Ht']; subst. constructor.
  - by destruct h.
  - clear -Ht Ht'. induction Ht as [|p t Hp _ IH]; [done|].
    inversion Ht'; subst. constructor; [by destruct p | by apply IH].
Qed.

Lemma fieldsOf_tokens line name cpuStr memStr :
  fieldsOf line = Some (name, cpuStr, memStr) →
  isToken name = true ∧ isToken cpuStr = true ∧ isToken memStr = true.
Proof.
  intros [rest Hparts]%fieldsOf_Some.
  destruct (partsOf_tokens line) as [Hblank|Hall]; [congruence|].
  rewrite Hparts in Hall.
  inversion Hall as [|? ? ? H1]; subst. inversion H1 as [|? ? ? H2]; subst.
  by inversion H2; subst.
Qed.

(** A blank text has one line, which has one empty part. *)
Lemma trimStart_blank s : blank s = true → trimStart s = "".
Proof.
  induction s as [|c s IH]; [done|]. simpl.
  intros [-> Hs]%andb_prop. by apply IH.
Qed.

Lemma linesOf_blank text : blank text = true → linesOf text = [""].
Proof. intros H. unfold linesOf, trim. by rewrite trimStart_blank. Qed.

End Parts.

(** ** Totals are sums over the samples *)

Section SampleTotals.
Import Js Spec Decode Reading.

Lemma total_NaN l : NaN ∈ l → total l = NaN.
Proof. apply fold_add_poisoned. Qed.

Lemma sumZ_replicate (z : Z) (k : nat) :
  sumZ (replicate k z) = (z * Z.of_nat k)%Z.
Proof. induction k as [|k IH]; simpl; lia. Qed.

Lemma total_replicate (z : Z) (k : nat) :
  (0 ≤ z)%Z → (z * Z.of_nat k ≤ 2 ^ 53)%Z →
  total (replicate k (ofZ z)) = ofZ (z * Z.of_nat k).
Proof.
  intros Hz Hk. rewrite <- (fmap_replicate ofZ), total_precise.
  - by rewrite sumZ_replicate.
  - by apply Forall_replicate.
  - by rewrite sumZ_replicate.
Qed.

(** A running total that grows by what [f] reads in a sample, when it reads
    something, and stays on every other line. *)
Lemma fold_left_total {A} (step : A → string → A) (field : A → JsNum)
    (f : string * string * string → option JsNum) (lines : list string)
    (acc : A) :
  (∀ acc line,
     field (step acc line)
     = match fieldsOf line ≫= f with
       | Some x => add (field acc) x
       | None => field acc
       end) →
  field (fold_left step lines acc)
  = fold_left add (omap f (omap fieldsOf lines)) (field acc).
Proof.
  intros Hstep. revert acc.
  induction lines as [|line lines IH]; intros acc; [done|].
  cbn [fold_left]. rewrite IH, Hstep. cbn [omap list_omap].
  destruct (fieldsOf line) as [sample|]; [|done].
  change (Some sample ≫= f) with (f sample). cbn [omap list_omap].
  by destruct (f sample).
Qed.

Lemma omap_Some {A B} (f : A → B) (l : list A) :
  omap (λ x, Some (f x)) l = f <$> l.
Proof. induction l as [|x l IH]; [done|]. cbn. by rewrite IH. Qed.

(** The fields of the five callbacks, sample by sample. *)
Ltac callback step :=
  intros acc line; unfold step, fieldsOf;
  destruct (partsOf line) as [|? [|? [|? ?]]]; reflexivity.

Lemma namespace_line_cpu acc line :
  nsCpuUsage (ServerActions.parseNamespaceMetricsLine acc line)
  = match fieldsOf line ≫= λ sample, Some (cpuOf sample.1.2) with
    | Some x => add (nsCpuUsage acc) x
    | None => nsCpuUsage acc
    end.
Proof. revert acc line. callback ServerActions.parseNamespaceMetricsLine. Qed.

Lemma namespace_line_memory acc line :
  nsMemoryUsage (ServerActions.parseNamespaceMetricsLine acc line)
  = match fieldsOf line ≫= λ sample, memoryOf sample.2 with
    | Some x => add (nsMemoryUsage acc) x
    | None => nsMemoryUsage acc
    end.
Proof. revert acc line. callback ServerActions.parseNamespaceMetricsLine. Qed.

Lemma node_line_cpu acc line :
  nodeCpuUsage (ServerActions.parseNodeMetricsLine acc line)
  = match fieldsOf line ≫= λ sample, Some (cpuOf sample.1.2) with
    | Some x => add (nodeCpuUsage acc) x
    | None => nodeCpuUsage acc
    end.
Proof. revert acc line. callback ServerActions.parseNodeMetricsLine. Qed.

Lemma node_line_memory acc line :
  nodeMemoryUsage (ServerActions.parseNodeMetricsLine acc line)
  = match fieldsOf line ≫= λ sample, memoryOf sample.2 with
    | Some x => add (nodeMemoryUsage acc) x
    | None => nodeMemoryUsage acc
    end.
Proof. revert acc line. callback ServerActions.parseNodeMetricsLine. Qed.

Lemma node_line_cpuTotal acc line :
  nodeCpuTotal (ServerActions.parseNodeMetricsLine acc line)
  = match fieldsOf line ≫= λ _, Some (ofZ 4000) with
    | Some x => add (nodeCpuTotal acc) x
    | None => nodeCpuTotal acc
    end.
Proof. revert acc line. callback ServerActions.parseNodeMetricsLine. Qed.

Lemma node_line_memoryTotal acc line :
  nodeMemoryTotal (ServerActions.parseNodeMetricsLine acc line)
  = match fieldsOf line ≫= λ _, Some (ofZ 16384) with
    | Some x => add (nodeMemoryTotal acc) x
    | None => nodeMemoryTotal acc
    end.
Proof. revert acc line. callback ServerActions.parseNodeMetricsLine. Qed.

Lemma route_node_line_cpu acc line :
  nodeCpuUsage (ClusterInfoRoute.parseNodeMetricsLine acc line)
  = match fieldsOf line ≫= λ sample, Some (cpuOf sample.1.2) with
    | Some x => add (nodeCpuUsage acc) x
    | None => nodeCpuUsage acc
    end.
Proof. revert acc line. callback ClusterInfoRoute.parseNodeMetricsLine. Qed.

Lemma route_node_line_memory acc line :
  nodeMemoryUsage (ClusterInfoRoute.parseNodeMetricsLine acc line)
  = match fieldsOf line ≫= λ sample, Some (memoryOfCorrected sample.2) with
    | Some x => add (nodeMemoryUsage acc) x
    | None => nodeMemoryUsage acc
    end.
Proof. revert acc line. callback ClusterInfoRoute.parseNodeMetricsLine. Qed.

Lemma route_node_line_cpuTotal acc line :
  nodeCpuTotal (ClusterInfoRoute.parseNodeMetricsLine acc line)
  = match fieldsOf line ≫= λ _, Some (ofZ 4000) with
    | Some x => add (nodeCpuTotal acc) x
    | None => nodeCpuTotal acc
    end.
Proof. revert acc line. callback ClusterInfoRoute.parseNodeMetricsLine. Qed.

Lemma route_node_line_memoryTotal acc line :
  nodeMemoryTotal (ClusterInfoRoute.parseNodeMetricsLine acc line)
  = match fieldsOf line ≫= λ _, Some (ofZ 16384) with
    | Some x => add (nodeMemoryTotal acc) x
    | None => nodeMemoryTotal acc
    end.
Proof. revert acc line. callback ClusterInfoRoute.parseNodeMetricsLine. Qed.

Lemma fmap_const_replicate {A} (x : JsNum) (l : list A) :
  (λ _, x) <$> l = replicate (length l) x.
Proof. induction l as [|y l IH]; [done|]. by rewrite fmap_cons, IH. Qed.

End SampleTotals.

(** ** The parsers of [kubectl top] *)

Section ParserProperties.
Import Js Spec Decode Reading Examples MoreExamples.

Lemma insertSample_fold_keys reading (text name : string) :
  is_Some (fold_left (insertSample reading) (linesOf text) ∅ !! name) ↔
  ∃ line cpuStr memStr rest,
    line ∈ linesOf text ∧ partsOf line = name :: cpuStr :: memStr :: rest.
Proof.
  rewrite insertSample_fold_is_Some, lookup_empty. split.
  - intros [[? [=]]|(line & [[n c] m] & Hline & Hfields & Hname)].
    simpl in Hname. subst n.
    apply fieldsOf_Some in Hfields as [rest Hparts].
    by exists line, c, m, rest.
  - intros (line & c & m & rest & Hline & Hparts). right.
    exists line, (name, c, m). split; [done|]. split; [|done].
    apply fieldsOf_Some. by exists rest.
Qed.

Lemma namespace_usage (text : string) :
  nsCpuUsage (ServerActions.parseNamespaceMetrics text)
    = total ((λ sample, cpuOf sample.1.2) <$> samplesOf text) ∧
  nsMemoryUsage (ServerActions.parseNamespaceMetrics text)
    = total (omap (λ sample, memoryOf sample.2) (samplesOf text)).
Proof.
  unfold ServerActions.parseNamespaceMetrics, total, samplesOf. split.
  - by rewrite (fold_left_total _ nsCpuUsage _ _ _ namespace_line_cpu),
      omap_Some.
  - by rewrite (fold_left_total _ nsMemoryUsage _ _ _ namespace_line_memory).
Qed.

Lemma node_usage (text : string) :
  nodeCpuUsage (ServerActions.parseNodeMetrics text)
    = total ((λ sample, cpuOf sample.1.2) <$> samplesOf text) ∧
  nodeMemoryUsage (ServerActions.parseNodeMetrics text)
    = total (omap (λ sample, memoryOf sample.2) (samplesOf text)).
Proof.
  unfold ServerActions.parseNodeMetrics, total, samplesOf. split.
  - by rewrite (fold_left_total _ nodeCpuUsage _ _ _ node_line_cpu),
      omap_Some.
  - by rewrite (fold_left_total _ nodeMemoryUsage _ _ _ node_line_memory).
Qed.

Lemma route_node_usage (text : string) :
  nodeCpuUsage (ClusterInfoRoute.parseNodeMetrics text)
    = total ((λ sample, cpuOf sample.1.2) <$> samplesOf text) ∧
  nodeMemoryUsage (ClusterInfoRoute.parseNodeMetrics text)
    = total ((λ sample, memoryOfCorrected sample.2) <$> samplesOf text).
Proof.
  unfold ClusterInfoRoute.parseNodeMetrics, total, samplesOf. split.
  - by rewrite (fold_left_total _ nodeCpuUsage _ _ _ route_node_line_cpu),
      omap_Some.
  - by rewrite
      (fold_left_total _ nodeMemoryUsage _ _ _ route_node_line_memory),
      omap_Some.
Qed.

(** The capacity is a sum of as many equal terms as there are samples. *)
Lemma node_capacity (text : string) :
  nodeCpuTotal (ServerActions.parseNodeMetrics text)
    = total (replicate (length (samplesOf text)) (ofZ 4000)) ∧
  nodeMemoryTotal (ServerActions.parseNodeMetrics text)
    = total (replicate (length (samplesOf text)) (ofZ 16384)).
Proof.
  unfold ServerActions.parseNodeMetrics, total, samplesOf. split.
  - by rewrite (fold_left_total _ nodeCpuTotal _ _ _ node_line_cpuTotal),
      omap_Some, fmap_const_replicate.
  - by rewrite
      (fold_left_total _ nodeMemoryTotal _ _ _ node_line_memoryTotal),
      omap_Some, fmap_const_replicate.
Qed.

Lemma route_node_capacity (text : string) :
  nodeCpuTotal (ClusterInfoRoute.parseNodeMetrics text)
    = total (replicate (length (samplesOf text)) (ofZ 4000)) ∧
  nodeMemoryTotal (ClusterInfoRoute.parseNodeMetrics text)
    = total (replicate (length (samplesOf text)) (ofZ 16384)).
Proof.
  unfold ClusterInfoRoute.parseNodeMetrics, total, samplesOf. split.
  - by rewrite
      (fold_left_total _ nodeCpuTotal _ _ _ route_node_line_cpuTotal),
      omap_Some, fmap_const_replicate.
  - by rewrite
      (fold_left_total _ nodeMemoryTotal _ _ _ route_node_line_memoryTotal),
      omap_Some, fmap_const_replicate.
Qed.

Lemma parsePodMetrics_blank (text : string) :
  blank text = true →
  ServerActions.parsePodMetrics text = ∅ ∧
  NamespaceDetailsRoute.parsePodMetrics text = ∅.
Proof.
  intros Hblank%linesOf_blank.
  unfold ServerActions.parsePodMetrics, NamespaceDetailsRoute.parsePodMetrics.
  by rewrite Hblank.
Qed.

(** X1: the own keys of the per-pod map are the first parts, other than
    [__proto__], of the lines with at least three parts; a line named
    [__proto__] replaces the prototype of the map and adds no key; both
    per-pod parsers have the same keys and replace the prototype on the
    same texts. *)
Theorem pod_metrics_keys_are_sample_names (text name : string) :
  (name ∈ ownKeys (ServerActions.parsePodMetrics text) ↔
   name ≠ "__proto__" ∧
   ∃ line cpuStr memStr rest,
     line ∈ linesOf text ∧ partsOf line = name :: cpuStr :: memStr :: rest) ∧
  ("__proto__" ∉ ownKeys (ServerActions.parsePodMetrics text)) ∧
  (is_Some (ServerActions.parsePodMetrics text !! "__proto__") ↔
   ∃ line cpuStr memStr rest,
     line ∈ linesOf text ∧
     partsOf line = "__proto__" :: cpuStr :: memStr :: rest) ∧
  ownKeys (NamespaceDetailsRoute.parsePodMetrics text)
    = ownKeys (ServerActions.parsePodMetrics text) ∧
  (is_Some (NamespaceDetailsRoute.parsePodMetrics text !! "__proto__") ↔
   is_Some (ServerActions.parsePodMetrics text !! "__proto__")).
Proof.
  rewrite parsePodMetrics_server_fold, parsePodMetrics_route_fold.
  unfold ownKeys. split; [|split; [|split; [|split]]].
  - rewrite elem_of_difference, elem_of_dom, not_elem_of_singleton,
      insertSample_fold_keys. tauto.
  - rewrite elem_of_difference, not_elem_of_singleton. tauto.
  - apply insertSample_fold_keys.
  - apply set_eq. intros key.
    by rewrite !elem_of_difference, !elem_of_dom, !insertSample_fold_keys.
  - by rewrite !insertSample_fold_keys.
Qed.

(** X2: every key of the per-pod map is a token: it is not empty and holds
    no white space. *)
Theorem pod_metrics_keys_are_tokens (text name : string) :
  is_Some (ServerActions.parsePodMetrics text !! name) →
  isToken name = true.
Proof.
  rewrite parsePodMetrics_server_fold.
  intros (line & c & m & rest & _ & Hparts)%insertSample_fold_keys.
  assert (Hfields : fieldsOf line = Some (name, c, m))
    by (apply fieldsOf_Some; by exists rest).
  by apply fieldsOf_tokens in Hfields as [? _].
Qed.

Lemma pod_metrics_keys_are_tokens_witness :
  is_Some (ServerActions.parsePodMetrics twoPods !! "db-1") ∧
  isToken "db-1" = true.
Proof.
  assert (H : is_Some (ServerActions.parsePodMetrics twoPods !! "db-1"))
    by (vm_compute; by eexists).
  split; [done|]. by apply (pod_metrics_keys_are_tokens twoPods "db-1").
Defined.

(** X3: when a name comes on several lines, the last of them gives the
    entry. *)
Theorem pod_metrics_last_line_wins
    (text line name cpuStr memStr : string) (before after rest : list string) :
  linesOf text = before ++ line :: after →
  partsOf line = name :: cpuStr :: memStr :: rest →
  (∀ later c m r, later ∈ after → partsOf later ≠ name :: c :: m :: r) →
  ServerActions.parsePodMetrics text !! name
    = Some {| cpu := cpuOf cpuStr;
              memory := default (ofZ 0) (memoryOf memStr) |} ∧
  NamespaceDetailsRoute.parsePodMetrics text !! name
    = Some {| cpu := cpuOf cpuStr; memory := memoryOfCorrected memStr |}.
Proof.
  intros Hlines Hparts Hafter.
  assert (Hfields : fieldsOf line = Some (name, cpuStr, memStr))
    by (apply fieldsOf_Some; by exists rest).
  assert (Hlater : ∀ l s, l ∈ after → fieldsOf l = Some s →
                          s.1.1 ≠ (name, cpuStr, memStr).1.1).
  { intros l [[n c] m] Hl [r Hr]%fieldsOf_Some Heq. simpl in Heq. subst n.
    by eapply Hafter. }
  rewrite parsePodMetrics_server_fold, parsePodMetrics_route_fold, Hlines.
  split.
  - apply (insertSample_fold_last serverMetrics _ _ _ (name, cpuStr, memStr));
      done.
  - apply (insertSample_fold_last routeMetrics _ _ _ (name, cpuStr, memStr));
      done.
Qed.

Lemma pod_metrics_last_line_wins_witness :
  linesOf repeatedPod = ["pod-a 1m 1Mi"] ++ "pod-a 2m 2Mi" :: [] ∧
  ServerActions.parsePodMetrics repeatedPod !! "pod-a"
    = Some {| cpu := cpuOf "2m";
              memory := default (ofZ 0) (memoryOf "2Mi") |}.
Proof.
  assert (Hlines : linesOf repeatedPod
                   = ["pod-a 1m 1Mi"] ++ "pod-a 2m 2Mi" :: [])
    by (by vm_compute).
  split; [done|].
  apply (pod_metrics_last_line_wins repeatedPod "pod-a 2m 2Mi" "pod-a" "2m"
           "2Mi" ["pod-a 1m 1Mi"] [] []).
  - done.
  - by vm_compute.
  - intros later c m r Hlater. by apply elem_of_nil in Hlater.
Defined.

(** X4: the usage totals of the namespace and node parsers are the sums,
    from the first line to the last, of the fields decoded on the lines
    with at least three parts; the other lines add nothing, and in the
    parsers of [server-actions.ts] neither does a memory field without
    [Mi], [Gi] or [Ki]. *)
Theorem usage_totals_are_sums_over_samples (text : string) :
  let cpus := (λ sample, cpuOf sample.1.2) <$> samplesOf text in
  let memories := omap (λ sample, memoryOf sample.2) (samplesOf text) in
  let corrected :=
    (λ sample, memoryOfCorrected sample.2) <$> samplesOf text in
  nsCpuUsage (ServerActions.parseNamespaceMetrics text) = total cpus ∧
  nsMemoryUsage (ServerActions.parseNamespaceMetrics text) = total memories ∧
  nodeCpuUsage (ServerActions.parseNodeMetrics text) = total cpus ∧
  nodeMemoryUsage (ServerActions.parseNodeMetrics text) = total memories ∧
  nodeCpuUsage (ClusterInfoRoute.parseNodeMetrics text) = total cpus ∧
  nodeMemoryUsage (ClusterInfoRoute.parseNodeMetrics text) = total corrected.
Proof.
  intros cpus memories corrected.
  destruct (namespace_usage text), (node_usage text), (route_node_usage text).
  by repeat split.
Qed.

(** X5: the capacity a node parser reports is 4000 millicores and 16384
    mebibytes for every line with at least three parts, whatever the fields
    hold, for every text of up to [2^39] such lines. *)
Theorem node_capacity_counts_lines (text : string) :
  let nodes := Z.of_nat (length (samplesOf text)) in
  (nodes ≤ 2 ^ 39)%Z →
  nodeCpuTotal (ServerActions.parseNodeMetrics text) = ofZ (4000 * nodes) ∧
  nodeMemoryTotal (ServerActions.parseNodeMetrics text)
    = ofZ (16384 * nodes) ∧
  nodeCpuTotal (ClusterInfoRoute.parseNodeMetrics text)
    = ofZ (4000 * nodes) ∧
  nodeMemoryTotal (ClusterInfoRoute.parseNodeMetrics text)
    = ofZ (16384 * nodes).
Proof.
  intros nodes Hnodes.
  destruct (node_capacity text) as [-> ->].
  destruct (route_node_capacity text) as [-> ->].
  fold nodes. by rewrite !total_replicate by (subst nodes; lia).
Qed.

Lemma node_capacity_counts_lines_witness :
  (Z.of_nat (length (samplesOf twoPods)) ≤ 2 ^ 39)%Z ∧
  nodeCpuTotal (ServerActions.parseNodeMetrics twoPods) = ofZ 8000 ∧
  nodeMemoryTotal (ClusterInfoRoute.parseNodeMetrics twoPods) = ofZ 32768.
Proof.
  assert (Hnodes : (Z.of_nat (length (samplesOf twoPods)) ≤ 2 ^ 39)%Z)
    by (by vm_compute).
  split; [done|].
  destruct (node_capacity_counts_lines twoPods Hnodes)
    as (Hcpu & _ & _ & Hmemory).
  split; [exact Hcpu | exact Hmemory].
Defined.

(** X6: a text of white space only, the empty text included, reads as no
    pod, no usage and no node. *)
Theorem blank_text_reads_as_nothing (text : string) :
  blank text = true →
  ServerActions.parsePodMetrics text = ∅ ∧
  NamespaceDetailsRoute.parsePodMetrics text = ∅ ∧
  ServerActions.parseNamespaceMetrics text
    = {| nsCpuUsage := ofZ 0; nsMemoryUsage := ofZ 0 |} ∧
  ServerActions.parseNodeMetrics text
    = {| nodeCpuUsage := ofZ 0; nodeCpuTotal := ofZ 0;
         nodeMemoryUsage := ofZ 0; nodeMemoryTotal := ofZ 0 |} ∧
  ClusterInfoRoute.parseNodeMetrics text
    = {| nodeCpuUsage := ofZ 0; nodeCpuTotal := ofZ 0;
         nodeMemoryUsage := ofZ 0; nodeMemoryTotal := ofZ 0 |}.
Proof.
  intros Hblank%linesOf_blank.
  unfold ServerActions.parsePodMetrics, NamespaceDetailsRoute.parsePodMetrics,
    ServerActions.parseNamespaceMetrics, ServerActions.parseNodeMetrics,
    ClusterInfoRoute.parseNodeMetrics.
  by rewrite Hblank.
Qed.

Lemma blank_text_reads_as_nothing_witness :
  blank (String "010" "  ") = true ∧
  ServerActions.parsePodMetrics (String "010" "  ") = ∅.
Proof.
  split; [reflexivity|].
  by apply (blank_text_reads_as_nothing (String "010" "  ")).
Defined.

(** X7: where every line with at least three parts has a memory field
    ending in [Mi], [Gi] or [Ki], the corrected parsers and the original
    ones read the same: the per-pod maps are equal and so are the node
    totals. *)
Theorem corrected_parsers_agree_on_known_suffixes (text : string) :
  (∀ sample, sample ∈ samplesOf text → is_Some (memoryOf sample.2)) →
  NamespaceDetailsRoute.parsePodMetrics text
    = ServerActions.parsePodMetrics text ∧
  ClusterInfoRoute.parseNodeMetrics text = ServerActions.parseNodeMetrics text.
Proof.
  intros Hknown.
  assert (Hmem : ∀ sample, sample ∈ samplesOf text →
            memoryOf sample.2 = Some (memoryOfCorrected sample.2)).
  { intros sample [m Hm]%Hknown. rewrite Hm. f_equal. symmetry.
    by apply memoryOfCorrected_known. }
  split.
  - rewrite parsePodMetrics_server_fold, parsePodMetrics_route_fold.
    unfold samplesOf in Hmem. generalize (∅ : gmap string Metrics).
    induction (linesOf text) as [|line lines IH]; intros result; [done|].
    cbn [fold_left]. rewrite IH.
    + f_equal. unfold insertSample.
      destruct (fieldsOf line) as [sample|] eqn:E; [|done].
      unfold routeMetrics, serverMetrics. rewrite Hmem; [done|].
      cbn [omap list_omap]. rewrite E. left.
    + intros sample Hin. apply Hmem. cbn [omap list_omap].
      destruct (fieldsOf line); [by right | done].
  - destruct (node_usage text) as [Hcpu Hmemory].
    destruct (route_node_usage text) as [Hcpu' Hmemory'].
    destruct (node_capacity text) as [Hct Hmt].
    destruct (route_node_capacity text) as [Hct' Hmt'].
    destruct (ClusterInfoRoute.parseNodeMetrics text) as [a1 a2 a3 a4].
    destruct (ServerActions.parseNodeMetrics text) as [b1 b2 b3 b4].
    simpl in *. subst. f_equal. f_equal. clear Hknown.
    induction (samplesOf text) as [|sample samples IH]; [done|].
    cbn [omap list_omap fmap list_fmap].
    rewrite (Hmem sample) by left. f_equal. apply IH.
    intros s Hs. apply Hmem. by right.
Qed.

Lemma corrected_parsers_agree_witness :
  (∀ sample, sample ∈ samplesOf twoPods → is_Some (memoryOf sample.2)) ∧
  NamespaceDetailsRoute.parsePodMetrics twoPods
    = ServerActions.parsePodMetrics twoPods.
Proof.
  assert (Hknown : ∀ sample, sample ∈ samplesOf twoPods →
                             is_Some (memoryOf sample.2)).
  { intros sample Hin. vm_compute in Hin.
    repeat (apply elem_of_cons in Hin as [->|Hin]; [vm_compute; by eexists|]).
    by apply elem_of_nil in Hin. }
  split; [done|].
  by apply (corrected_parsers_agree_on_known_suffixes twoPods).
Defined.

End ParserProperties.

(** ** The overview and the details of a namespace *)

Section OverviewAndDetails.
Import Js K8s Spec Decode Reading Examples MoreExamples.

(** Adding a zero where nothing is read changes no sum. *)
Lemma fold_add_default {A} (g : A → option JsNum) (l : list A) a :
  canonical a →
  fold_left add ((λ x, default (ofZ 0) (g x)) <$> l) a
  = fold_left add (omap g l) a.
Proof.
  revert a. induction l as [|x l IH]; intros a Ha; [done|].
  rewrite fmap_cons. cbn [fold_left omap list_omap].
  destruct (g x) as [y|]; simpl.
  - apply IH, add_canonical.
  - rewrite add_0_r by done. by apply IH.
Qed.

(** With distinct names every sample is found under its name. *)
Lemma insertSample_fold_distinct reading lines sample :
  NoDup ((λ s, s.1.1) <$> omap fieldsOf lines) →
  sample ∈ omap fieldsOf lines →
  fold_left (insertSample reading) lines ∅ !! sample.1.1
  = Some (reading sample).
Proof.
  intros Hdistinct (line & Hline & Hfields)%list_elem_of_omap.
  apply list_elem_of_split in Hline as (before & after & ->).
  apply insertSample_fold_last; [done|].
  intros l s Hl Hs Heq.
  rewrite omap_app in Hdistinct. cbn [omap list_omap] in Hdistinct.
  rewrite Hfields, fmap_app, fmap_cons in Hdistinct.
  apply NoDup_app in Hdistinct as (_ & _ & Hdistinct).
  apply NoDup_cons in Hdistinct as [Hnot _]. apply Hnot.
  rewrite <- Heq. apply list_elem_of_fmap. exists s. split; [done|].
  apply list_elem_of_omap. by exists l.
Qed.

(** The usage of the records of a listing, pod by pod. *)
Lemma podRecords_usage podMetricsMap pvcs configMaps secrets services
    ingresses items pods :
  mapM (ServerActions.podRecord podMetricsMap pvcs configMaps secrets
          services ingresses) items = Some pods →
  (λ record, (Pod.cpuUsage record, Pod.memoryUsage record)) <$> pods
  = ServerActions.usageOf podMetricsMap
      <$> omap (λ p, podName <$> metadata p) items.
Proof.
  revert pods. induction items as [|pod items IH]; intros pods.
  - by intros [= <-].
  - rewrite mapM_Some. intros Hall.
    inversion Hall as [|? record ? pods' Hrecord Hrest]; subst.
    apply mapM_Some in Hrest. rewrite fmap_cons, (IH _ Hrest).
    unfold ServerActions.podRecord in Hrecord.
    destruct (metadata pod) as [meta|] eqn:Hmeta; [|done]. simpl in Hrecord.
    injection Hrecord as <-. cbn [omap list_omap]. rewrite Hmeta.
    cbn [fmap option_fmap option_map]. rewrite fmap_cons. f_equal.
    simpl. by destruct (ServerActions.usageOf _ _).
Qed.

Lemma namespace_totals namespaceName podMetricsMap items pvcs configMaps
    secrets services ingresses ns :
  ServerActions.namespaceOf namespaceName podMetricsMap items pvcs configMaps
    secrets services ingresses = Some ns →
  let usage :=
    ServerActions.usageOf podMetricsMap
      <$> omap (λ p, podName <$> metadata p) items in
  Namespace.cpuUsage ns = total ((λ u, default NaN u.1) <$> usage) ∧
  Namespace.memoryUsage ns = total ((λ u, default NaN u.2) <$> usage).
Proof.
  intros Hns usage. unfold ServerActions.namespaceOf in Hns.
  destruct (mapM _ items) as [pods|] eqn:Hpods; [|done].
  injection Hns as <-.
  cbn [Namespace.cpuUsage Namespace.memoryUsage]. unfold usage, total.
  rewrite <- (podRecords_usage _ _ _ _ _ _ _ _ Hpods).
  by rewrite !reduce_addValue, <- !list_fmap_compose.
Qed.

(** X8: when the pods are listed in the order of the lines of the metrics
    text, one line with at least three parts for every pod and no name
    twice, the totals of the namespace record are the totals the namespace
    parser gives for the same text: the overview of the cluster and the
    details of the namespace show the same CPU, and the same memory with
    the per-pod parser of [server-actions.ts]. *)
Theorem details_totals_match_overview
    (text namespaceName : string) (items : list PodObject)
    (pvcs configMaps secrets : list Resource) (services : list Service)
    (ingresses : list Ingress) (ns viaRoute : Namespace.t) :
  NoDup ((λ sample, sample.1.1) <$> samplesOf text) →
  omap (λ p, podName <$> metadata p) items
    = (λ sample, sample.1.1) <$> samplesOf text →
  ServerActions.getNamespaceDetails namespaceName (Some text) items pvcs
    configMaps secrets services ingresses = Some ns →
  NamespaceDetailsRoute.POST namespaceName (Some text) items pvcs
    configMaps secrets services ingresses = Some viaRoute →
  Namespace.cpuUsage ns
    = nsCpuUsage (ServerActions.parseNamespaceMetrics text) ∧
  Namespace.memoryUsage ns
    = nsMemoryUsage (ServerActions.parseNamespaceMetrics text) ∧
  Namespace.cpuUsage viaRoute
    = nsCpuUsage (ServerActions.parseNamespaceMetrics text).
Proof.
  intros Hdistinct Hnames Hns Hroute.
  destruct (namespace_usage text) as [Hcpu Hmem].
  apply namespace_totals in Hns as [Hc Hm].
  apply namespace_totals in Hroute as [Hc' _].
  rewrite Hcpu, Hmem, Hc, Hm, Hc'. simpl. rewrite Hnames.
  rewrite <- !list_fmap_compose.
  rewrite parsePodMetrics_server_fold, parsePodMetrics_route_fold.
  assert (Hserver : ∀ sample, sample ∈ samplesOf text →
    ServerActions.usageOf
      (fold_left (insertSample serverMetrics) (linesOf text) ∅) sample.1.1
    = (Some (cpuOf sample.1.2),
       Some (default (ofZ 0) (memoryOf sample.2)))).
  { intros sample Hin. unfold ServerActions.usageOf.
    by rewrite insertSample_fold_distinct. }
  assert (Hviaroute : ∀ sample, sample ∈ samplesOf text →
    ServerActions.usageOf
      (fold_left (insertSample routeMetrics) (linesOf text) ∅) sample.1.1
    = (Some (cpuOf sample.1.2), Some (memoryOfCorrected sample.2))).
  { intros sample Hin. unfold ServerActions.usageOf.
    by rewrite insertSample_fold_distinct. }
  split; [|split].
  - f_equal. apply list_fmap_ext. intros i sample Hi. simpl.
    by rewrite Hserver by (by eapply list_elem_of_lookup_2).
  - unfold total. rewrite <- (fold_add_default _ _ _ (ofZ_canonical 0)).
    f_equal. apply list_fmap_ext. intros i sample Hi. simpl.
    by rewrite Hserver by (by eapply list_elem_of_lookup_2).
  - f_equal. apply list_fmap_ext. intros i sample Hi. simpl.
    by rewrite Hviaroute by (by eapply list_elem_of_lookup_2).
Qed.

Lemma details_totals_match_overview_witness :
  NoDup ((λ sample, sample.1.1) <$> samplesOf twoPods) ∧
  ∃ ns,
    ServerActions.getNamespaceDetails "default" (Some twoPods)
      [barePod "web-1"; barePod "db-1"] [] [] [] [] [] = Some ns ∧
    Namespace.cpuUsage ns
      = nsCpuUsage (ServerActions.parseNamespaceMetrics twoPods).
Proof.
  assert (Hdistinct : NoDup ((λ sample, sample.1.1) <$> samplesOf twoPods)).
  { vm_compute. repeat constructor; rewrite ?elem_of_cons, ?elem_of_nil;
      intros H; by repeat destruct H as [H|H]. }
  assert (Hnames : omap (λ p, podName <$> metadata p)
                     [barePod "web-1"; barePod "db-1"]
                   = (λ sample, sample.1.1) <$> samplesOf twoPods)
    by (by vm_compute).
  split; [done|].
  destruct (ServerActions.getNamespaceDetails "default" (Some twoPods)
              [barePod "web-1"; barePod "db-1"] [] [] [] [] [])
    as [ns|] eqn:Hns; [|by vm_compute in Hns].
  destruct (NamespaceDetailsRoute.POST "default" (Some twoPods)
              [barePod "web-1"; barePod "db-1"] [] [] [] [] [])
    as [viaRoute|] eqn:Hroute; [|by vm_compute in Hroute].
  exists ns. split; [done|].
  by destruct (details_totals_match_overview twoPods "default"
                 [barePod "web-1"; barePod "db-1"] [] [] [] [] [] ns viaRoute
                 Hdistinct Hnames Hns Hroute) as [? _].
Defined.

End OverviewAndDetails.

(** ** Order of discovery *)

Section Discovery.
Import Js K8s Spec ServerActions.

Lemma uniqueFrom_ext seen seen' l :
  (∀ x, x ∈ seen ↔ x ∈ seen') → uniqueFrom seen l = uniqueFrom seen' l.
Proof.
  revert seen seen'. induction l as [|y l IH]; intros seen seen' Hsame; [done|].
  simpl. unfold includes. rewrite (bool_decide_ext _ _ (Hsame y)).
  case_bool_decide; [by apply IH|]. f_equal. apply IH.
  intros x. rewrite !elem_of_cons. by rewrite Hsame.
Qed.

Lemma uniqueFrom_app seen l1 l2 :
  uniqueFrom seen (l1 ++ l2)
  = uniqueFrom seen l1 ++ uniqueFrom (l1 ++ seen) l2.
Proof.
  revert seen. induction l1 as [|y l1 IH]; intros seen; [done|].
  rewrite <- !app_comm_cons. simpl. destruct (includes seen y) eqn:E.
  - apply includes_true in E. rewrite IH. f_equal. apply uniqueFrom_ext.
    intros x. rewrite elem_of_cons, !elem_of_app. naive_solver.
  - rewrite IH, <- app_comm_cons. do 2 f_equal. apply uniqueFrom_ext.
    intros x. rewrite elem_of_cons, !elem_of_app, elem_of_cons. naive_solver.
Qed.

Lemma unique_snoc l x :
  unique (l ++ [x]) = if decide (x ∈ l) then unique l else unique l ++ [x].
Proof.
  unfold unique. rewrite uniqueFrom_app, app_nil_r. simpl. unfold includes.
  case_bool_decide; case_decide; try done. by rewrite app_nil_r.
Qed.

Lemma unique_same_elements l1 l2 x :
  unique l1 = unique l2 → x ∈ l1 ↔ x ∈ l2.
Proof. intros H. by rewrite <- (elem_of_unique l1), H, elem_of_unique. Qed.

(** Two lists are read alike when their first occurrences are the same. *)
Lemma unique_push result seenAs x :
  unique result = unique seenAs →
  unique (if decide (x ∈ result) then result else result ++ [x])
  = unique (seenAs ++ [x]).
Proof.
  intros Hsame. rewrite (unique_snoc seenAs).
  pose proof (unique_same_elements _ _ x Hsame) as Hmember.
  destruct (decide (x ∈ result)) as [Hin|Hnot].
  - by rewrite decide_True by tauto.
  - rewrite (decide_False (P := x ∈ seenAs)) by tauto.
    by rewrite unique_snoc, decide_False, Hsame.
Qed.

Context (resources : list Resource).
Local Abbreviation inCatalog := (λ name, name ∈ resourceName <$> resources).

Lemma volumes_fold vs result :
  fold_left (volumeStep resources) vs result
  = result ++ filter inCatalog (omap volumeTarget vs).
Proof.
  revert result. induction vs as [|v vs IH]; intros result.
  - by rewrite app_nil_r.
  - cbn [fold_left]. rewrite IH, volumeStep_spec. cbn [omap list_omap].
    destruct (volumeTarget v) as [wanted|]; [|done].
    case_decide.
    + by rewrite filter_cons_True, <- app_assoc.
    + by rewrite filter_cons_False.
Qed.

Lemma envStep_unique result seenAs e :
  unique result = unique seenAs →
  unique (envStep resources result e)
  = unique (seenAs ++ filter inCatalog (option_list (envTarget e))).
Proof.
  intros Hsame. rewrite envStep_spec.
  destruct (envTarget e) as [wanted|]; simpl; [|by rewrite app_nil_r].
  rewrite pushIfNew_spec. destruct (decide (wanted ∈ resourceName <$> resources)).
  - rewrite filter_cons_True by done. rewrite filter_nil.
    rewrite <- (unique_push result seenAs wanted Hsame).
    f_equal. destruct (decide (wanted ∈ result)).
    + by rewrite decide_False by tauto.
    + by rewrite decide_True.
  - rewrite filter_cons_False by done. rewrite filter_nil, app_nil_r.
    by rewrite decide_False by tauto.
Qed.

Lemma env_fold_unique es result seenAs :
  unique result = unique seenAs →
  unique (fold_left (envStep resources) es result)
  = unique (seenAs ++ filter inCatalog (omap envTarget es)).
Proof.
  revert result seenAs. induction es as [|e es IH]; intros result seenAs Hsame.
  - by rewrite app_nil_r.
  - cbn [fold_left].
    rewrite (IH _ _ (envStep_unique _ _ e Hsame)), <- app_assoc.
    do 2 f_equal. cbn [omap list_omap].
    destruct (envTarget e); [|done]. by rewrite <- filter_app.
Qed.

Lemma containers_fold_unique cs result seenAs :
  unique result = unique seenAs →
  unique (fold_left (containerStep resources) cs result)
  = unique (seenAs ++
            filter inCatalog
              (omap envTarget (mjoin ((λ c, default [] (env c)) <$> cs)))).
Proof.
  revert result seenAs. induction cs as [|c cs IH]; intros result seenAs Hsame.
  - by rewrite app_nil_r.
  - cbn [fold_left].
    assert (Hstep : unique (containerStep resources result c)
              = unique (seenAs ++
                  filter inCatalog (omap envTarget (default [] (env c))))).
    { unfold containerStep. destruct (env c) as [es|]; simpl.
      - by apply env_fold_unique.
      - by rewrite app_nil_r. }
    rewrite (IH _ _ Hstep), <- app_assoc. do 2 f_equal.
    rewrite fmap_cons. cbn [mjoin list_join]. by rewrite omap_app, filter_app.
Qed.

(** The names come in the order of their first reference: volumes first,
    then the environment entries of the containers. *)
Lemma findAssociatedResources_order pod :
  findAssociatedResources pod resources
  = unique (filter inCatalog (referencedNames pod)).
Proof.
  unfold findAssociatedResources, referencedNames. rewrite filter_app.
  set (afterVolumes := match spec pod ≫= volumes with
                       | Some vs => fold_left (volumeStep resources) vs []
                       | None => []
                       end).
  assert (Hvolumes : afterVolumes
            = filter inCatalog (omap volumeTarget
                                  (default [] (spec pod ≫= volumes)))).
  { unfold afterVolumes. destruct (spec pod ≫= volumes) as [vs|]; [|done].
    by rewrite volumes_fold. }
  destruct (spec pod ≫= containers) as [cs|]; simpl.
  - rewrite (containers_fold_unique cs afterVolumes afterVolumes eq_refl).
    by rewrite Hvolumes.
  - by rewrite Hvolumes, app_nil_r.
Qed.

End Discovery.

(** ** Resolution of references, services and ingresses *)

Section AssociationProperties.
Import Js K8s Spec Examples MoreExamples.

(** X9: the names are returned in the order in which the pod first refers
    to them, volumes before environment entries, each once, and only those
    of the catalog. *)
Theorem resources_in_order_of_first_reference
    (pod : PodObject) (resources : list Resource) :
  ServerActions.findAssociatedResources pod resources
    = unique (filter (λ name, name ∈ resourceName <$> resources)
                (referencedNames pod)) ∧
  NoDup (ServerActions.findAssociatedResources pod resources).
Proof.
  split; [apply findAssociatedResources_order|].
  unfold ServerActions.findAssociatedResources. apply NoDup_unique.
Qed.

(** X10: the catalog only matters through the set of its names: two
    catalogs with the same names, in any order and with any repetition,
    resolve every pod alike. *)
Theorem catalog_matters_through_its_names
    (pod : PodObject) (resources resources' : list Resource) :
  (∀ name, name ∈ resourceName <$> resources ↔
           name ∈ resourceName <$> resources') →
  ServerActions.findAssociatedResources pod resources
  = ServerActions.findAssociatedResources pod resources'.
Proof.
  intros Hsame. rewrite !findAssociatedResources_order. f_equal.
  by apply list_filter_iff.
Qed.

Lemma catalog_matters_through_its_names_witness :
  (∀ name, name ∈ resourceName <$> [data1; data2] ↔
           name ∈ resourceName <$> [data2; data1; data2]) ∧
  ServerActions.findAssociatedResources webPod [data1; data2]
  = ServerActions.findAssociatedResources webPod [data2; data1; data2].
Proof.
  assert (Hsame : ∀ name, name ∈ resourceName <$> [data1; data2] ↔
                          name ∈ resourceName <$> [data2; data1; data2]).
  { intros name. simpl. rewrite !elem_of_cons, elem_of_nil. tauto. }
  split; [done|].
  by apply (catalog_matters_through_its_names webPod).
Defined.

Lemma omap_sublist_mono {A B} (f g : A → option B) (l : list A) :
  (∀ x y, f x = Some y → g x = Some y) → omap f l `sublist_of` omap g l.
Proof.
  intros Hmono. induction l as [|x l IH]; [done|]. cbn [omap list_omap].
  destruct (f x) as [y|] eqn:E.
  - rewrite (Hmono _ _ E). by apply sublist_skip.
  - destruct (g x); [by apply sublist_cons | done].
Qed.

(** X11: labels added to a pod never remove a service: the services of the
    pod with fewer labels are a sublist of those of the pod with more. *)
Theorem more_labels_keep_services
    (pod pod' : PodObject) (podLabels podLabels' : gmap string string)
    (services : list Service) :
  metadata pod ≫= labels = Some podLabels →
  metadata pod' ≫= labels = Some podLabels' →
  podLabels ⊆ podLabels' →
  ServerActions.findAssociatedServices pod services
    `sublist_of` ServerActions.findAssociatedServices pod' services.
Proof.
  intros Hpod Hpod' Hsub.
  rewrite (findAssociatedServices_labelled _ _ _ Hpod),
    (findAssociatedServices_labelled _ _ _ Hpod').
  apply omap_sublist_mono. intros svc s.
  rewrite !rendered_Some. intros (sp & sel & ? & ? & Hall & ?).
  exists sp, sel. repeat split; try done.
  intros key value Hkey. eapply lookup_weaken; [by apply Hall | done].
Qed.

Lemma more_labels_keep_services_witness :
  ({[ "app" := "web" ]} : gmap string string)
    ⊆ {[ "app" := "web"; "tier" := "frontend" ]} ∧
  ServerActions.findAssociatedServices (podOf (Some {[ "app" := "web" ]}) [] [])
    [serviceOf "svc1" (Some {[ "app" := "web" ]}) [80%N]]
    `sublist_of`
  ServerActions.findAssociatedServices webPod
    [serviceOf "svc1" (Some {[ "app" := "web" ]}) [80%N]].
Proof.
  assert (Hsub : ({[ "app" := "web" ]} : gmap string string)
                   ⊆ {[ "app" := "web"; "tier" := "frontend" ]}).
  { apply map_subseteq_spec. intros key value.
    rewrite lookup_singleton_Some. intros [<- <-]. by vm_compute. }
  split; [done|].
  by apply (more_labels_keep_services _ _ {[ "app" := "web" ]}
              {[ "app" := "web"; "tier" := "frontend" ]}).
Defined.

Lemma ruleHosts_ext basenames basenames' rule :
  (∀ b, b ∈ basenames ↔ b ∈ basenames') →
  ruleHosts basenames rule = ruleHosts basenames' rule.
Proof.
  intros Hsame. unfold ruleHosts. destruct (truthy (host rule)); [|done].
  induction (default [] (http rule ≫= paths)) as [|path ps IH]; [done|].
  cbn [omap list_omap]. rewrite IH.
  destruct ((backend path ≫= service) ≫= _) as [wanted|]; [|done].
  change (Some wanted ≫= ?f) with (f wanted). cbv beta.
  destruct (decide (wanted ∈ basenames)) as [Hin|Hnot].
  - by rewrite decide_True by (by apply Hsame).
  - by rewrite decide_False by (by rewrite <- Hsame).
Qed.

Lemma findAssociatedIngresses_hosts serviceNames ingresses :
  ServerActions.findAssociatedIngresses serviceNames ingresses
  = unique (ingresses ≫= λ i,
      ingressRules i ≫= ruleHosts (ServerActions.basename <$> serviceNames)).
Proof.
  unfold ServerActions.findAssociatedIngresses. by rewrite ingresses_fold.
Qed.

Lemma splitChar_head_noColon s :
  noColon (ServerActions.basename s) = true.
Proof.
  unfold ServerActions.basename.
  induction s as [|c s IH]; [done|]. simpl.
  destruct (Ascii.eqb c ":") eqn:Hc; [done|].
  destruct (splitChar ":" s) as [|h t]; simpl in *; by rewrite Hc.
Qed.

Lemma basename_idem s :
  ServerActions.basename (ServerActions.basename s) = ServerActions.basename s.
Proof. apply basename_plain, splitChar_head_noColon. Qed.

Lemma hosts_ext names names' (ingresses : list Ingress) :
  (∀ b, b ∈ names ↔ b ∈ names') →
  (ingresses ≫= λ i, ingressRules i ≫= ruleHosts names)
  = (ingresses ≫= λ i, ingressRules i ≫= ruleHosts names').
Proof.
  intros Hsame. induction ingresses as [|i ingresses IH]; [done|].
  cbn [mbind list_bind]. rewrite IH. f_equal.
  induction (ingressRules i) as [|rule rs IHr]; [done|].
  cbn [mbind list_bind]. by rewrite IHr, (ruleHosts_ext _ _ rule Hsame).
Qed.

(** X12: the hosts depend on the service entries only through the set of
    their base names; in particular the ports written after the names play
    no part. *)
Theorem ingresses_depend_on_base_names
    (serviceNames serviceNames' : list string) (ingresses : list Ingress) :
  (∀ b, b ∈ ServerActions.basename <$> serviceNames ↔
        b ∈ ServerActions.basename <$> serviceNames') →
  ServerActions.findAssociatedIngresses serviceNames ingresses
  = ServerActions.findAssociatedIngresses serviceNames' ingresses.
Proof.
  intros Hsame. rewrite !findAssociatedIngresses_hosts.
  by rewrite (hosts_ext _ _ ingresses Hsame).
Qed.

Lemma ingresses_depend_on_base_names_witness :
  (∀ b, b ∈ ServerActions.basename <$> ["svc1:80,443"] ↔
        b ∈ ServerActions.basename <$> ["svc1"; "svc1:8080"]) ∧
  ServerActions.findAssociatedIngresses ["svc1:80,443"]
    [ingressOf (Some "example.com") "svc1"]
  = ServerActions.findAssociatedIngresses ["svc1"; "svc1:8080"]
      [ingressOf (Some "example.com") "svc1"].
Proof.
  assert (Hsame : ∀ b, b ∈ ServerActions.basename <$> ["svc1:80,443"] ↔
                       b ∈ ServerActions.basename <$> ["svc1"; "svc1:8080"]).
  { intros b. vm_compute (_ <$> _). rewrite !elem_of_cons, elem_of_nil.
    tauto. }
  split; [done|]. by apply ingresses_depend_on_base_names.
Defined.

(** X13: every host returned is a non-empty host; without service entries
    no host is returned; stripping the ports beforehand changes nothing;
    more service entries never give fewer hosts. *)
Theorem ingress_hosts_are_real_and_monotone
    (serviceNames serviceNames' : list string) (ingresses : list Ingress) :
  serviceNames ⊆ serviceNames' →
  (∀ h, h ∈ ServerActions.findAssociatedIngresses serviceNames ingresses →
        h ≠ "" ∧
        h ∈ ServerActions.findAssociatedIngresses serviceNames' ingresses) ∧
  ServerActions.findAssociatedIngresses [] ingresses = [] ∧
  ServerActions.findAssociatedIngresses
    (ServerActions.basename <$> serviceNames) ingresses
  = ServerActions.findAssociatedIngresses serviceNames ingresses.
Proof.
  intros Hsub.
  assert (Hmember : ∀ names h,
    h ∈ ServerActions.findAssociatedIngresses names ingresses ↔
    ∃ ingress rule path wanted,
      ingress ∈ ingresses ∧ rule ∈ ingressRules ingress ∧
      path ∈ default [] (http rule ≫= paths) ∧
      (backend path ≫= service) ≫= (λ s, truthy (backendName s))
        = Some wanted ∧
      wanted ∈ ServerActions.basename <$> names ∧
      truthy (host rule) = Some h).
  { intros names h.
    rewrite findAssociatedIngresses_hosts, elem_of_unique, list_elem_of_bind.
    split.
    - intros (ingress & (rule & Hh & Hrule)%list_elem_of_bind & Hingress).
      apply elem_of_ruleHosts in Hh as (path & wanted & ? & ? & ? & ?).
      by exists ingress, rule, path, wanted.
    - intros (ingress & rule & path & wanted & ? & ? & ? & ? & ? & ?).
      exists ingress. split; [|done]. apply list_elem_of_bind.
      exists rule. split; [|done]. apply elem_of_ruleHosts.
      by exists path, wanted. }
  split; [|split].
  - intros h Hh. split.
    + apply Hmember in Hh as (? & rule & ? & ? & _ & _ & _ & _ & _ & Hhost).
      unfold truthy in Hhost. by destruct (host rule) as [[|]|]; intros ->.
    + apply Hmember in Hh
        as (ingress & rule & path & wanted & ? & ? & ? & ? & Hin & ?).
      apply Hmember. exists ingress, rule, path, wanted.
      repeat split; try done.
      apply list_elem_of_fmap in Hin as (s & -> & Hs).
      apply list_elem_of_fmap_2. by apply Hsub.
  - apply elem_of_nil_inv.
    intros h (? & ? & ? & wanted & _ & _ & _ & _ & Hin & _)%Hmember.
    by apply elem_of_nil in Hin.
  - rewrite !findAssociatedIngresses_hosts. f_equal. apply hosts_ext.
    intros b.
    replace (ServerActions.basename <$> (ServerActions.basename <$> serviceNames))
      with (ServerActions.basename <$> serviceNames); [done|].
    rewrite <- list_fmap_compose. apply list_fmap_ext. intros i s _. simpl.
    symmetry. apply basename_idem.
Qed.

Lemma ingress_hosts_witness :
  ["svc1"] ⊆ ["svc1"; "svc2"] ∧
  ServerActions.findAssociatedIngresses [] [ingressOf (Some "a.org") "svc1"]
  = [].
Proof.
  assert (Hsub : ["svc1"] ⊆ ["svc1"; "svc2"]).
  { intros x. rewrite !elem_of_cons. tauto. }
  split; [done|].
  by destruct (ingress_hosts_are_real_and_monotone ["svc1"] ["svc1"; "svc2"]
                 [ingressOf (Some "a.org") "svc1"] Hsub) as (_ & ? & _).
Defined.

End AssociationProperties.

(** ** The records of a namespace *)

Section RecordProperties.
Import Js K8s Spec Decode Reading Examples MoreExamples.

Lemma podRecord_Some podMetricsMap pvcs configMaps secrets services ingresses
    pod record :
  ServerActions.podRecord podMetricsMap pvcs configMaps secrets services
    ingresses pod = Some record →
  ∃ meta, metadata pod = Some meta ∧
    record = {|
      Pod.id := podName meta;
      Pod.name := podName meta;
      Pod.cpuUsage := (ServerActions.usageOf podMetricsMap (podName meta)).1;
      Pod.memoryUsage :=
        (ServerActions.usageOf podMetricsMap (podName meta)).2;
      Pod.pvcs := ServerActions.findAssociatedResources pod pvcs;
      Pod.configMaps := ServerActions.findAssociatedResources pod configMaps;
      Pod.secrets := ServerActions.findAssociatedResources pod secrets;
      Pod.services := ServerActions.findAssociatedServices pod services;
      Pod.ingresses :=
        ServerActions.findAssociatedIngresses
          (ServerActions.findAssociatedServices pod services) ingresses |}.
Proof.
  unfold ServerActions.podRecord. destruct (metadata pod) as [meta|]; [|done].
  simpl. intros [= <-]. by exists meta.
Qed.

Lemma namespaceOf_Some namespaceName podMetricsMap items pvcs configMaps
    secrets services ingresses ns :
  ServerActions.namespaceOf namespaceName podMetricsMap items pvcs configMaps
    secrets services ingresses = Some ns →
  mapM (ServerActions.podRecord podMetricsMap pvcs configMaps secrets services
          ingresses) items = Some (Namespace.pods ns).
Proof.
  unfold ServerActions.namespaceOf.
  destruct (mapM _ items) as [pods|]; [|done]. by intros [= <-].
Qed.

(** X14: in every record of a namespace the storage claims, config maps,
    secrets and hosts are free of repetitions, and the first three are names
    of the catalog they were resolved against. *)
Theorem records_hold_catalog_names_once
    (namespaceName : string) (podMetricsMap : gmap string Metrics)
    (items : list PodObject) (pvcs configMaps secrets : list Resource)
    (services : list Service) (ingresses : list Ingress) (ns : Namespace.t) :
  ServerActions.namespaceOf namespaceName podMetricsMap items pvcs configMaps
    secrets services ingresses = Some ns →
  Forall (λ record,
            NoDup (Pod.pvcs record) ∧ NoDup (Pod.configMaps record) ∧
            NoDup (Pod.secrets record) ∧ NoDup (Pod.ingresses record) ∧
            Pod.pvcs record ⊆ resourceName <$> pvcs ∧
            Pod.configMaps record ⊆ resourceName <$> configMaps ∧
            Pod.secrets record ⊆ resourceName <$> secrets)
         (Namespace.pods ns).
Proof.
  intros Hpods%namespaceOf_Some. apply mapM_Some in Hpods.
  apply Forall_forall. intros record Hrecord.
  apply list_elem_of_lookup in Hrecord as [i Hi].
  destruct (Forall2_lookup_r _ _ _ _ _ Hpods Hi) as (pod & _ & Hbuild).
  apply podRecord_Some in Hbuild as (meta & _ & ->). simpl.
  assert (Hin : ∀ resources,
    ServerActions.findAssociatedResources pod resources
      ⊆ resourceName <$> resources).
  { intros resources name Hname.
    by apply elem_of_findAssociatedResources in Hname as [_ ?]. }
  unfold ServerActions.findAssociatedIngresses.
  repeat split; try apply Hin; try apply NoDup_unique;
    unfold ServerActions.findAssociatedResources; apply NoDup_unique.
Qed.

Lemma records_hold_catalog_names_once_witness :
  ∃ ns,
    ServerActions.namespaceOf "default" ∅ [webPod] [data1; data2] [appConfig]
      [] [] [] = Some ns ∧
    Forall (λ record, NoDup (Pod.pvcs record)) (Namespace.pods ns).
Proof.
  destruct (ServerActions.namespaceOf "default" ∅ [webPod] [data1; data2]
              [appConfig] [] [] []) as [ns|] eqn:Hns;
    [|by vm_compute in Hns].
  exists ns. split; [done|].
  eapply Forall_impl;
    [apply (records_hold_catalog_names_once _ _ _ _ _ _ _ _ _ Hns)|].
  by intros record [? _].
Defined.

Lemma namespaceOf_None namespaceName podMetricsMap items pvcs configMaps
    secrets services ingresses :
  ServerActions.namespaceOf namespaceName podMetricsMap items pvcs configMaps
    secrets services ingresses = None ↔
  Exists (λ pod, metadata pod = None) items.
Proof.
  unfold ServerActions.namespaceOf.
  destruct (mapM _ items) as [pods|] eqn:Hpods; simpl.
  - split; [done|]. intros Hmissing. apply mapM_Some in Hpods.
    apply Exists_exists in Hmissing as (pod & Hpod & Hnone).
    apply list_elem_of_lookup in Hpod as [i Hi].
    destruct (Forall2_lookup_l _ _ _ _ _ Hpods Hi) as (r & _ & Hbuild).
    apply podRecord_Some in Hbuild as (? & ? & _). congruence.
  - split; [|done]. intros _. apply mapM_None in Hpods.
    eapply Exists_impl; [done|]. intros pod. simpl.
    unfold ServerActions.podRecord. by destruct (metadata pod).
Qed.

(** X15: the assembly of a namespace fails whenever a listed pod has no
    metadata; when it succeeds there is one record for every listed pod,
    and the records carry the names of the listed pods, in the order of
    the listing, as their name and as their id. *)
Theorem namespace_fails_on_pod_without_metadata
    (namespaceName : string) (podMetricsMap : gmap string Metrics)
    (items : list PodObject) (pvcs configMaps secrets : list Resource)
    (services : list Service) (ingresses : list Ingress) :
  let result := ServerActions.namespaceOf namespaceName podMetricsMap items
                  pvcs configMaps secrets services ingresses in
  (Exists (λ pod, metadata pod = None) items → result = None) ∧
  (∀ ns, result = Some ns →
     Namespace.name ns = namespaceName ∧
     Namespace.podCount ns = length items ∧
     Pod.name <$> Namespace.pods ns
       = omap (λ pod, podName <$> metadata pod) items ∧
     Pod.id <$> Namespace.pods ns = Pod.name <$> Namespace.pods ns).
Proof.
  intros result. split; [apply namespaceOf_None|].
  intros ns Hns. split; [|split].
  { unfold result, ServerActions.namespaceOf in Hns.
    destruct (mapM _ items); [|done]. by injection Hns as <-. }
  { unfold result, ServerActions.namespaceOf in Hns.
    destruct (mapM _ items) as [pods|] eqn:Hpods; [|done].
    injection Hns as <-. simpl. by apply length_mapM in Hpods. }
  apply namespaceOf_Some in Hns. revert Hns.
  generalize (Namespace.pods ns). clear result ns.
  induction items as [|pod items IH]; intros pods.
  - by intros [= <-].
  - rewrite mapM_Some. intros Hall.
    inversion Hall as [|? record ? pods' Hrecord Hrest]; subst.
    apply mapM_Some in Hrest. destruct (IH _ Hrest) as [Hnames Hids].
    apply podRecord_Some in Hrecord as (meta & Hmeta & ->).
    cbn [omap list_omap]. rewrite Hmeta. rewrite !fmap_cons. simpl.
    split; f_equal; [exact Hnames | exact Hids].
Qed.

Lemma namespace_fails_on_pod_without_metadata_witness :
  ServerActions.namespaceOf "default" ∅
    [webPod; {| metadata := None; spec := None |}] [] [] [] [] [] = None ∧
  ∃ ns,
    ServerActions.namespaceOf "default" ∅ [webPod; barePod "db-1"] [] [] []
      [] [] = Some ns ∧
    Pod.name <$> Namespace.pods ns
      = omap (λ pod, podName <$> metadata pod) [webPod; barePod "db-1"].
Proof.
  split.
  - apply (namespace_fails_on_pod_without_metadata "default" ∅
             [webPod; {| metadata := None; spec := None |}] [] [] [] [] []).
    apply Exists_cons. right. by apply Exists_cons; left.
  - destruct (ServerActions.namespaceOf "default" ∅ [webPod; barePod "db-1"]
                [] [] [] [] []) as [ns|] eqn:Hns;
      [|by vm_compute in Hns].
    exists ns. split; [done|].
    destruct (namespace_fails_on_pod_without_metadata "default" ∅
                [webPod; barePod "db-1"] [] [] [] [] []) as [_ Hrecords].
    by destruct (Hrecords ns Hns) as (_ & _ & ? & _).
Defined.

Lemma total_zeros l : Forall (λ x, x = ofZ 0) l → total l = ofZ 0.
Proof.
  unfold total. induction 1 as [|x l -> _ IH]; [done|]. exact IH.
Qed.

Lemma usageOf_empty name :
  name ∉ objectPrototypeNames →
  ServerActions.usageOf ∅ name = (Some (ofZ 0), Some (ofZ 0)).
Proof.
  intros Hplain. unfold ServerActions.usageOf, ServerActions.inheritedTruthy.
  rewrite !lookup_empty. by rewrite bool_decide_eq_false_2.
Qed.

(** X16: when [kubectl top pods] failed, or printed nothing but white
    space, the two handlers build the same namespace; in what they build,
    every pod whose name is not the name of a property of
    [Object.prototype] has CPU and memory usage [0], and when no pod has
    such a name the totals are [0]. *)
Theorem without_metrics_usage_is_zero
    (namespaceName : string) (metricsStdout : option string)
    (items : list PodObject) (pvcs configMaps secrets : list Resource)
    (services : list Service) (ingresses : list Ingress) (ns : Namespace.t) :
  from_option (λ text, blank text = true) True metricsStdout →
  ServerActions.getNamespaceDetails namespaceName metricsStdout items pvcs
    configMaps secrets services ingresses = Some ns →
  NamespaceDetailsRoute.POST namespaceName metricsStdout items pvcs
    configMaps secrets services ingresses = Some ns ∧
  Forall (λ record,
            Pod.name record ∉ objectPrototypeNames →
            Pod.cpuUsage record = Some (ofZ 0) ∧
            Pod.memoryUsage record = Some (ofZ 0))
         (Namespace.pods ns) ∧
  (Forall (λ record, Pod.name record ∉ objectPrototypeNames)
     (Namespace.pods ns) →
   Namespace.cpuUsage ns = ofZ 0 ∧ Namespace.memoryUsage ns = ofZ 0).
Proof.
  intros Hblank.
  assert (Hserver : ServerActions.podMetricsMapOf metricsStdout = ∅).
  { destruct metricsStdout as [text|]; [|done]. simpl in *.
    by apply parsePodMetrics_blank. }
  assert (Hroute : NamespaceDetailsRoute.podMetricsMapOf metricsStdout = ∅).
  { destruct metricsStdout as [text|]; [|done]. simpl in *.
    by apply parsePodMetrics_blank. }
  unfold ServerActions.getNamespaceDetails, NamespaceDetailsRoute.POST.
  rewrite Hserver, Hroute. intros Hns. split; [done|].
  assert (Hrecords : ∀ record, record ∈ Namespace.pods ns →
    Pod.cpuUsage record = (ServerActions.usageOf ∅ (Pod.name record)).1 ∧
    Pod.memoryUsage record = (ServerActions.usageOf ∅ (Pod.name record)).2).
  { intros record Hrecord.
    pose proof Hns as Hpods. apply namespaceOf_Some, mapM_Some in Hpods.
    apply list_elem_of_lookup in Hrecord as [i Hi].
    destruct (Forall2_lookup_r _ _ _ _ _ Hpods Hi) as (pod & _ & Hbuild).
    by apply podRecord_Some in Hbuild as (meta & _ & ->). }
  split.
  - apply Forall_forall. intros record Hrecord Hplain.
    destruct (Hrecords record Hrecord) as [-> ->].
    by rewrite usageOf_empty.
  - intros Hplain. rewrite Forall_forall in Hplain.
    unfold ServerActions.namespaceOf in Hns.
    destruct (mapM _ items) as [pods|]; [|done]. injection Hns as <-.
    cbn [Namespace.cpuUsage Namespace.memoryUsage Namespace.pods] in *.
    rewrite !reduce_addValue.
    split; apply total_zeros, Forall_fmap, Forall_forall;
      intros record Hrecord; simpl;
      destruct (Hrecords record Hrecord) as [Hc Hm];
      rewrite ?Hc, ?Hm, usageOf_empty by (by apply Hplain); done.
Qed.

Lemma without_metrics_usage_is_zero_witness :
  ∃ ns,
    ServerActions.getNamespaceDetails "default" None [webPod] [data1]
      [appConfig] [] [] [] = Some ns ∧
    NamespaceDetailsRoute.POST "default" None [webPod] [data1]
      [appConfig] [] [] [] = Some ns ∧
    Forall (λ record,
              Pod.name record ∉ objectPrototypeNames →
              Pod.cpuUsage record = Some (ofZ 0) ∧
              Pod.memoryUsage record = Some (ofZ 0))
           (Namespace.pods ns).
Proof.
  destruct (ServerActions.getNamespaceDetails "default" None [webPod] [data1]
              [appConfig] [] [] []) as [ns|] eqn:Hns;
    [|by vm_compute in Hns].
  exists ns. split; [done|].
  by destruct (without_metrics_usage_is_zero "default" None [webPod] [data1]
                 [appConfig] [] [] [] ns I Hns) as (? & ? & _).
Defined.

(** X22: a listed pod whose name has no entry in the metrics map and is not
    found on what the map inherits, which are the properties of
    [Object.prototype] and, after a line named [__proto__], [cpu] and
    [memory], is kept, at its place, with CPU and memory usage [0] and with
    the association lists the resolvers compute for it; the namespace
    counts every listed pod. *)
Theorem pod_without_metrics_kept
    (namespaceName : string) (podMetricsMap : gmap string Metrics)
    (items : list PodObject) (pvcs configMaps secrets : list Resource)
    (services : list Service) (ingresses : list Ingress)
    (i : nat) (pod : PodObject) (meta : PodMeta) :
  Forall (λ p, is_Some (metadata p)) items →
  items !! i = Some pod →
  metadata pod = Some meta →
  podMetricsMap !! podName meta = None →
  podName meta ∉ objectPrototypeNames →
  (podMetricsMap !! "__proto__" = None ∨
   (podName meta ≠ "cpu" ∧ podName meta ≠ "memory")) →
  ∃ ns record,
    ServerActions.namespaceOf namespaceName podMetricsMap items pvcs
      configMaps secrets services ingresses = Some ns ∧
    Namespace.podCount ns = length items ∧
    length (Namespace.pods ns) = length items ∧
    Namespace.pods ns !! i = Some record ∧
    Pod.name record = podName meta ∧
    Pod.cpuUsage record = Some (ofZ 0) ∧
    Pod.memoryUsage record = Some (ofZ 0) ∧
    Pod.pvcs record = ServerActions.findAssociatedResources pod pvcs ∧
    Pod.configMaps record
      = ServerActions.findAssociatedResources pod configMaps ∧
    Pod.secrets record = ServerActions.findAssociatedResources pod secrets ∧
    Pod.services record = ServerActions.findAssociatedServices pod services ∧
    Pod.ingresses record
      = ServerActions.findAssociatedIngresses
          (ServerActions.findAssociatedServices pod services) ingresses.
Proof.
  intros Hall Hi Hmeta Hnone Hplain Hproto.
  assert (Hinherited :
    ServerActions.inheritedTruthy podMetricsMap (podName meta) = false).
  { unfold ServerActions.inheritedTruthy.
    destruct Hproto as [->|[Hcpu Hmemory]].
    - by apply bool_decide_eq_false.
    - destruct (podMetricsMap !! "__proto__");
        [rewrite !decide_False by done|]; by apply bool_decide_eq_false. }
  set (build := ServerActions.podRecord podMetricsMap pvcs configMaps secrets
                  services ingresses).
  destruct (mapM build items) as [pods|] eqn:Hpods.
  - pose proof (length_mapM _ _ _ Hpods) as Hlen.
    pose proof (mapM_Some_1 _ _ _ Hpods) as Hrecords.
    destruct (Forall2_lookup_l _ _ _ _ _ Hrecords Hi)
      as (record & Hrecord & Hbuild).
    eexists _, record. split.
    { unfold ServerActions.namespaceOf. fold build. by rewrite Hpods. }
    simpl. unfold build, ServerActions.podRecord in Hbuild.
    rewrite Hmeta in Hbuild. simpl in Hbuild.
    unfold ServerActions.usageOf in Hbuild.
    rewrite Hnone, Hinherited in Hbuild.
    injection Hbuild as <-. simpl. by rewrite Hlen.
  - apply mapM_None_1, Exists_exists in Hpods as (p & Hp & Hfail).
    rewrite Forall_forall in Hall. destruct (Hall p Hp) as [m Hm].
    unfold build, ServerActions.podRecord in Hfail. by rewrite Hm in Hfail.
Qed.

Lemma pod_without_metrics_kept_witness :
  Forall (λ p, is_Some (metadata p)) [webPod] ∧
  [webPod] !! 0 = Some webPod ∧
  ServerActions.parsePodMetrics "other-pod 5m 12Mi" !! "web-1" = None ∧
  ("web-1" ∉ objectPrototypeNames) ∧
  ∃ ns record,
    ServerActions.namespaceOf "default"
      (ServerActions.parsePodMetrics "other-pod 5m 12Mi") [webPod]
      [data1; data2] [appConfig] [] [] [] = Some ns ∧
    Namespace.podCount ns = 1 ∧
    Namespace.pods ns !! 0 = Some record ∧
    Pod.cpuUsage record = Some (ofZ 0) ∧
    Pod.memoryUsage record = Some (ofZ 0) ∧
    Pod.pvcs record = ["data-1"].
Proof.
  assert (Hall : Forall (λ p, is_Some (metadata p)) [webPod])
    by (by repeat constructor).
  assert (Hnone : ServerActions.parsePodMetrics "other-pod 5m 12Mi" !! "web-1"
                  = None) by (by vm_compute).
  assert (Hplain : "web-1" ∉ objectPrototypeNames)
    by (by apply (bool_decide_eq_true_1 _)).
  split; [done|]. split; [done|]. split; [done|]. split; [done|].
  destruct (pod_without_metrics_kept "default"
              (ServerActions.parsePodMetrics "other-pod 5m 12Mi") [webPod]
              [data1; data2] [appConfig] [] [] [] 0 webPod
              {| podName := "web-1";
                 labels := Some {[ "app" := "web"; "tier" := "frontend" ]} |}
              Hall eq_refl eq_refl Hnone Hplain (or_introl eq_refl))
    as (ns & record & Hns & Hcount & _ & Hrecord & _ & Hcpu & Hmem & Hpvcs & _).
  exists ns, record. by repeat split.
Defined.

End RecordProperties.

(** ** The overview of a cluster *)

Section OverviewProperties.
Import Js Spec Decode Reading Overview Examples MoreExamples.

(** The totals of a namespace in the overview: the sums over what
    [kubectl top pods] printed for it; nothing when the command failed. *)
Lemma summary_usage listing :
  summaryCpuUsage (namespaceSummary listing)
    = total (from_option
               (λ text, (λ sample, cpuOf sample.1.2) <$> samplesOf text) []
               (nsMetricsStdout listing)) ∧
  summaryMemoryUsage (namespaceSummary listing)
    = total (from_option
               (λ text, omap (λ sample, memoryOf sample.2) (samplesOf text))
               [] (nsMetricsStdout listing)).
Proof.
  unfold namespaceSummary. destruct (nsMetricsStdout listing) as [text|].
  - apply namespace_usage.
  - done.
Qed.

Lemma cluster_usage parseNodeMetrics contextName nodeStdout listings :
  cpuUsage (clusterOf parseNodeMetrics contextName nodeStdout listings)
    = total ((λ listing,
                total (from_option
                         (λ text, (λ sample, cpuOf sample.1.2)
                                    <$> samplesOf text)
                         [] (nsMetricsStdout listing))) <$> listings) ∧
  memoryUsage (clusterOf parseNodeMetrics contextName nodeStdout listings)
    = total ((λ listing,
                total (from_option
                         (λ text, omap (λ sample, memoryOf sample.2)
                                    (samplesOf text))
                         [] (nsMetricsStdout listing))) <$> listings).
Proof.
  unfold clusterOf. cbn [cpuUsage memoryUsage]. unfold total at 1 3.
  rewrite !reduce_fold, <- !list_fmap_compose.
  split; f_equal; apply list_fmap_ext; intros i listing _; simpl;
    apply summary_usage.
Qed.

Lemma trimStart_blank_app pre s :
  blank pre = true → trimStart (pre +:+ s) = trimStart s.
Proof.
  induction pre as [|c pre IH]; [done|]. rewrite app_cons. simpl.
  intros [-> Hpre]%andb_prop. by apply IH.
Qed.

Lemma trimEnd_blank s : blank s = true → trimEnd s = "".
Proof.
  induction s as [|c s IH]; [done|]. simpl.
  intros [-> Hs]%andb_prop. by rewrite IH.
Qed.

Lemma trimEnd_app_blank a post :
  isToken a = true → blank post = true → trimEnd (a +:+ post) = a.
Proof.
  intros Ha Hpost. induction a as [|c a IH]; [done|].
  rewrite app_cons. cbn [trimEnd]. simpl in Ha.
  apply andb_prop in Ha as [Hc Ha]. destruct a as [|d a].
  - rewrite app_empty_l, trimEnd_blank by done. by destruct (isSpace c).
  - by rewrite IH.
Qed.

Lemma trim_padded pre a post :
  blank pre = true → isToken a = true → blank post = true →
  trim (pre +:+ a +:+ post) = a.
Proof.
  intros Hpre Ha Hpost. unfold trim.
  rewrite trimStart_blank_app, trimStart_token by done.
  by apply trimEnd_app_blank.
Qed.

(** X17: the usage of a cluster is the sum, namespace after namespace, of
    the totals of the namespaces, each of which is the sum, line after
    line, of the fields decoded on the lines with at least three parts that
    [kubectl top pods] printed for it; a namespace whose metrics command
    failed counts as [0], and what [kubectl top nodes] printed plays no
    part. *)
Theorem cluster_usage_sums_namespace_totals
    (parseNodeMetrics : string → NodeTotals) (contextName : string)
    (nodeStdout nodeStdout' : option string)
    (listings : list NamespaceListing) :
  let cluster := clusterOf parseNodeMetrics contextName nodeStdout listings in
  let cpus listing :=
    from_option (λ text, (λ sample, cpuOf sample.1.2) <$> samplesOf text)
      [] (nsMetricsStdout listing) in
  let memories listing :=
    from_option (λ text, omap (λ sample, memoryOf sample.2) (samplesOf text))
      [] (nsMetricsStdout listing) in
  cpuUsage cluster = total ((λ listing, total (cpus listing)) <$> listings) ∧
  memoryUsage cluster
    = total ((λ listing, total (memories listing)) <$> listings) ∧
  summaryName <$> namespaces cluster = nsName <$> listings ∧
  cpuUsage (clusterOf parseNodeMetrics contextName nodeStdout' listings)
    = cpuUsage cluster ∧
  memoryUsage (clusterOf parseNodeMetrics contextName nodeStdout' listings)
    = memoryUsage cluster.
Proof.
  intros cluster cpus memories. subst cluster cpus memories.
  destruct (cluster_usage parseNodeMetrics contextName nodeStdout listings)
    as [-> ->].
  destruct (cluster_usage parseNodeMetrics contextName nodeStdout' listings)
    as [-> ->].
  do 2 (split; [done|]). split; [|done].
  unfold clusterOf. cbn [namespaces]. rewrite <- list_fmap_compose.
  by apply list_fmap_ext.
Qed.

(** X18: one CPU field that does not start with a digit, in one line of one
    namespace, makes the CPU usage of the whole cluster [NaN]. *)
Theorem one_field_poisons_the_cluster
    (parseNodeMetrics : string → NodeTotals) (contextName : string)
    (nodeStdout : option string) (listings : list NamespaceListing)
    (listing : NamespaceListing) (text line name cpuStr memStr : string)
    (rest : list string) :
  listing ∈ listings →
  nsMetricsStdout listing = Some text →
  line ∈ linesOf text →
  partsOf line = name :: cpuStr :: memStr :: rest →
  parseInt (cpuPayload cpuStr) = NaN →
  cpuUsage (clusterOf parseNodeMetrics contextName nodeStdout listings) = NaN.
Proof.
  intros Hlisting Htext Hline Hparts Hcpu.
  destruct (cluster_usage parseNodeMetrics contextName nodeStdout listings)
    as [-> _].
  apply total_NaN, list_elem_of_fmap. exists listing. split; [|done].
  rewrite Htext. simpl. symmetry. apply total_NaN, list_elem_of_fmap.
  exists (name, cpuStr, memStr). split.
  - simpl. symmetry. by apply cpuOf_unparseable.
  - unfold samplesOf. apply list_elem_of_omap. exists line. split; [done|].
    apply fieldsOf_Some. by exists rest.
Qed.

Lemma one_field_poisons_the_cluster_witness :
  cpuUsage (getClusterInfo "minikube" None
              [ {| nsName := "default"; podStdout := "2";
                   nsMetricsStdout := Some "web-1 250m 64Mi" |};
                {| nsName := "kube-system"; podStdout := "1";
                   nsMetricsStdout := Some "dns-1 <unknown> 12Mi" |} ])
  = NaN.
Proof.
  apply (one_field_poisons_the_cluster _ "minikube" None _
           {| nsName := "kube-system"; podStdout := "1";
              nsMetricsStdout := Some "dns-1 <unknown> 12Mi" |}
           "dns-1 <unknown> 12Mi" "dns-1 <unknown> 12Mi" "dns-1" "<unknown>"
           "12Mi" []).
  - apply elem_of_cons. right. apply elem_of_cons. by left.
  - reflexivity.
  - vm_compute. apply elem_of_cons. by left.
  - by vm_compute.
  - by vm_compute.
Defined.

(** X19: the capacity of a cluster comes from the node metrics alone: 8000
    millicores and 32000 mebibytes when [kubectl top nodes] failed,
    otherwise 4000 and 16384 for every line with at least three parts it
    printed, up to [2^39] lines, so a command that prints nothing gives a
    capacity of zero. *)
Theorem cluster_capacity_from_node_lines
    (contextName : string) (listings : list NamespaceListing) :
  cpuTotal (getClusterInfo contextName None listings) = ofZ 8000 ∧
  memoryTotal (getClusterInfo contextName None listings) = ofZ 32000 ∧
  cpuTotal (POST contextName None listings) = ofZ 8000 ∧
  memoryTotal (POST contextName None listings) = ofZ 32000 ∧
  ∀ text,
    let nodes := Z.of_nat (length (samplesOf text)) in
    (nodes ≤ 2 ^ 39)%Z →
    cpuTotal (getClusterInfo contextName (Some text) listings)
      = ofZ (4000 * nodes) ∧
    memoryTotal (getClusterInfo contextName (Some text) listings)
      = ofZ (16384 * nodes) ∧
    cpuTotal (POST contextName (Some text) listings) = ofZ (4000 * nodes) ∧
    memoryTotal (POST contextName (Some text) listings)
      = ofZ (16384 * nodes) ∧
    (blank text = true → nodes = 0%Z).
Proof.
  do 4 (split; [done|]). intros text nodes Hnodes.
  unfold getClusterInfo, POST, clusterOf. cbn [cpuTotal memoryTotal].
  destruct (node_capacity text) as [-> ->].
  destruct (route_node_capacity text) as [-> ->].
  fold nodes. rewrite !total_replicate by (subst nodes; lia).
  do 4 (split; [done|]). intros Hblank. subst nodes.
  unfold samplesOf. by rewrite linesOf_blank.
Qed.

Lemma cluster_capacity_from_node_lines_witness :
  (Z.of_nat (length (samplesOf twoPods)) ≤ 2 ^ 39)%Z ∧
  cpuTotal (getClusterInfo "minikube" (Some twoPods) []) = ofZ 8000.
Proof.
  assert (Hnodes : (Z.of_nat (length (samplesOf twoPods)) ≤ 2 ^ 39)%Z)
    by (by vm_compute).
  split; [done|].
  destruct (cluster_capacity_from_node_lines "minikube" [])
    as (_ & _ & _ & _ & Hlines).
  by destruct (Hlines twoPods Hnodes) as (? & _).
Defined.

(** X20: the pod count of a namespace is never [NaN]: for a count of up to
    [2^53] it is the number [wc -l] printed, with any white space around
    it, and it is zero when what was printed does not start with a
    number. *)
Theorem pod_count_is_a_number (listing : NamespaceListing) :
  summaryPodCount (namespaceSummary listing) ≠ NaN ∧
  (∀ (n : N) pre post,
     precise (Z.of_N n) →
     blank pre = true → blank post = true →
     podStdout listing = pre +:+ pretty n +:+ post →
     summaryPodCount (namespaceSummary listing) = ofN n ∧
     integerValue (summaryPodCount (namespaceSummary listing))
       = Some (Z.of_N n)) ∧
  (parseInt (trim (podStdout listing)) = NaN →
   summaryPodCount (namespaceSummary listing) = ofZ 0).
Proof.
  unfold namespaceSummary. cbn [summaryPodCount]. split; [|split].
  - unfold orZero. by destruct (parseInt _) as [| |[] ?].
  - intros n pre post Hn Hpre Hpost ->.
    rewrite trim_padded, parseInt_pretty by (done || apply isToken_pretty).
    destruct (ofZ_precise _ Hn) as [Hvalue _]. fold (ofN n) in Hvalue.
    assert (Hcount : orZero (ofN n) = ofN n).
    { unfold orZero. destruct (truthyNumber (ofN n)) eqn:Htruthy; [done|].
      destruct (ofN n) as [| |m e] eqn:E; [done..|]. simpl in Htruthy.
      apply negb_false_iff, Z.eqb_eq in Htruthy. subst m.
      simpl in Hvalue. destruct (0 <=? e)%Z; [|done].
      injection Hvalue as Hzero. assert (n = 0%N) as -> by lia.
      vm_compute in E. by injection E as <-. }
    by rewrite Hcount.
  - by intros ->.
Qed.

Lemma pod_count_is_a_number_witness :
  precise (Z.of_N 12) ∧
  summaryPodCount
    (namespaceSummary {| nsName := "default";
                         podStdout := "  " +:+ pretty 12%N +:+ String "010" "";
                         nsMetricsStdout := None |})
  = ofN 12.
Proof.
  assert (Hn : precise (Z.of_N 12)) by (unfold precise; simpl; lia).
  split; [done|].
  destruct (pod_count_is_a_number
              {| nsName := "default";
                 podStdout := "  " +:+ pretty 12%N +:+ String "010" "";
                 nsMetricsStdout := None |}) as (_ & Hcount & _).
  by destruct (Hcount 12%N "  " (String "010" "") Hn eq_refl eq_refl eq_refl).
Defined.

End OverviewProperties.

(** ** The list of contexts *)

Section ContextProperties.
Import Js Contexts.

Lemma filter_unique_key {A} (key : A → string) (wanted : string) (l : list A) :
  NoDup (key <$> l) →
  (length (filter (λ x, key x = wanted) l) ≤ 1)%nat.
Proof.
  induction l as [|x l IH]; [simpl; lia|].
  rewrite fmap_cons, NoDup_cons. intros [Hfresh Hrest].
  rewrite filter_cons. destruct (decide (key x = wanted)) as [Hx|Hx].
  - assert (Hnone : filter (λ x, key x = wanted) l = []).
    { apply elem_of_nil_inv. intros y [Hy Hin]%list_elem_of_filter.
      apply Hfresh. rewrite Hx, <- Hy. by apply list_elem_of_fmap_2. }
    rewrite Hnone. simpl. lia.
  - by apply IH.
Qed.

Lemma current_formatContext currentContext item :
  current (formatContext currentContext item) = true ↔
  itemName item = currentContext.
Proof. simpl. apply bool_decide_eq_true. Qed.

(** X21: the contexts come out in the order of the listing, with their
    names; a context is flagged as current exactly when its name is the
    trimmed output of [kubectl config current-context]; with distinct names
    at most one is flagged, and when that command failed only a context
    with the empty name could be. *)
Theorem at_most_one_current_context
    (items : list ContextItem) (currentStdout : option string) :
  NoDup (itemName <$> items) →
  let contexts := getKubeContexts items currentStdout in
  name <$> contexts = itemName <$> items ∧
  (∀ k, k ∈ contexts →
        (current k = true ↔ name k = getCurrentContext currentStdout)) ∧
  (length (filter (λ k, current k = true) contexts) ≤ 1)%nat ∧
  (currentStdout = None →
   ∀ k, k ∈ contexts → current k = true → name k = "").
Proof.
  intros Hdistinct contexts. subst contexts. unfold getKubeContexts.
  assert (Hflag : ∀ k,
    k ∈ formatContext (getCurrentContext currentStdout) <$> items →
    (current k = true ↔ name k = getCurrentContext currentStdout)).
  { intros k (item & -> & _)%list_elem_of_fmap.
    apply current_formatContext. }
  split; [|split; [exact Hflag|split]].
  - rewrite <- list_fmap_compose. by apply list_fmap_ext.
  - rewrite <- (filter_unique_key itemName
                  (getCurrentContext currentStdout) items Hdistinct).
    clear Hdistinct Hflag.
    induction items as [|item items IH]; [done|].
    rewrite fmap_cons, !filter_cons.
    destruct (decide (itemName item = _)) as [Hitem|Hitem].
    + rewrite decide_True by (by apply current_formatContext).
      simpl. lia.
    + rewrite decide_False by (by rewrite current_formatContext). done.
  - intros -> k Hk Hcurrent. by apply Hflag in Hcurrent.
Qed.

Lemma at_most_one_current_context_witness :
  NoDup (itemName <$>
           [ {| itemName := "dev"; itemCluster := "c1"; itemUser := "u";
                itemNamespace := None |};
             {| itemName := "prod"; itemCluster := "c2"; itemUser := "u";
                itemNamespace := Some "shop" |} ]) ∧
  (length (filter (λ k, current k = true)
            (getKubeContexts
               [ {| itemName := "dev"; itemCluster := "c1"; itemUser := "u";
                    itemNamespace := None |};
                 {| itemName := "prod"; itemCluster := "c2"; itemUser := "u";
                    itemNamespace := Some "shop" |} ]
               (Some (String "010" "prod ")))) ≤ 1)%nat.
Proof.
  assert (Hdistinct : NoDup (itemName <$>
           [ {| itemName := "dev"; itemCluster := "c1"; itemUser := "u";
                itemNamespace := None |};
             {| itemName := "prod"; itemCluster := "c2"; itemUser := "u";
                itemNamespace := Some "shop" |} ])).
  { simpl. apply NoDup_cons. split.
    - rewrite elem_of_cons, elem_of_nil. by intros [|[]].
    - apply NoDup_singleton. }
  split; [done|].
  by destruct (at_most_one_current_context _
                 (Some (String "010" "prod ")) Hdistinct) as (_ & _ & ? & _).
Defined.

End ContextProperties.
